(** * NLP-based CV parser: a shallow embedding of [src/index.js]

    The handler of [src/index.js] decodes an uploaded résumé (PDF or DOCX) to
    text and runs nine field extractors over it.  Most extractors are
    JavaScript regular expressions, so the first part of this file is the
    backtracking matcher of ECMAScript (the part of it the program's patterns
    use), the second part the extractors, the third the handler with its
    effects (the temporary file, [salaryRegex.lastIndex], the calls to the
    decoders), and the last part the properties. *)

From Stdlib Require Import Ascii String NArith QArith.
From stdpp Require Import base option list gmap strings.

Open Scope nat_scope.

(** ** JavaScript strings

    A JavaScript string is a sequence of UTF-16 code units. *)

Abbreviation jsstring := (list N).

(** [js "..."] is the string of an ASCII literal. *)
Definition js (s : string) : jsstring :=
  (fun a => N_of_ascii a) <$> list_ascii_of_string s.
Arguments js _%_string.

Definition ch (a : ascii) : N := N_of_ascii a.
Arguments ch _%_char.

Definition euro : N := 8364.   (* U+20AC *)
Definition pound : N := 163.   (* U+00A3 *)

(** [s.substring(i, j)] for [i <= j]. *)
Definition substring (s : jsstring) (i j : nat) : jsstring :=
  take (j - i) (drop i s).

(** *** Character predicates of the ECMAScript grammar *)

Definition inRange (lo hi c : N) : bool := ((lo <=? c) && (c <=? hi))%N.

Definition isDigit (c : N) : bool := inRange 48 57 c.

(** [\w]: letters, digits and the underscore. *)
Definition isWordChar (c : N) : bool :=
  inRange 97 122 c || inRange 65 90 c || isDigit c || (c =? 95)%N.

(** [\s], and what [trim] strips: WhiteSpace and LineTerminator. *)
Definition isWhiteSpace (c : N) : bool :=
  inRange 9 13 c || (c =? 32)%N || (c =? 160)%N || (c =? 5760)%N
  || inRange 8192 8202 c || (c =? 8232)%N || (c =? 8233)%N || (c =? 8239)%N
  || (c =? 8287)%N || (c =? 12288)%N || (c =? 65279)%N.

Definition asciiUpper (c : N) : N := if inRange 97 122 c then (c - 32)%N else c.
Definition asciiLower (c : N) : N := if inRange 65 90 c then (c + 32)%N else c.

(** ** Regular expressions *)

Inductive ClassAtom :=
| CChar (c : N)
| CRange (lo hi : N)
| CDigit
| CWord
| CSpace.

Definition atomHas (x : N) (a : ClassAtom) : bool :=
  match a with
  | CChar c => (c =? x)%N
  | CRange lo hi => inRange lo hi x
  | CDigit => isDigit x
  | CWord => isWordChar x
  | CSpace => isWhiteSpace x
  end.

Definition classHas (atoms : list ClassAtom) (x : N) : bool :=
  existsb (atomHas x) atoms.

(** CharacterSetMatcher's test: some member of the class has the canonical
    form of the input character.  Without the [u] flag Canonicalize is
    [toUpperCase], except that it never maps a code unit of 128 or more to one
    below 128: an ASCII member and a character outside ASCII never agree, and
    for an ASCII character the members to try are the character and its other
    case.  Characters outside ASCII are compared as they are; the patterns of
    this program have two of them, the euro and the pound sign, which have no
    other case. *)
Definition charSetMatches (ignoreCase invert : bool) (atoms : list ClassAtom)
    (c : N) : bool :=
  let found :=
    classHas atoms c
    || (ignoreCase && (classHas atoms (asciiUpper c) || classHas atoms (asciiLower c))) in
  xorb invert found.

Inductive Regex :=
| Empty
| CharSet (invert : bool) (atoms : list ClassAtom)
| Seq (r1 r2 : Regex)
| Disj (r1 r2 : Regex)
| Quant (min : nat) (max : option nat) (r : Regex)   (* greedy *)
| Group (idx : nat) (r : Regex)                       (* capture number idx *)
| WordBoundary
| NegLookahead (r : Regex)
| NegLookbehind (r : Regex).

(** Pattern syntax, so that a pattern reads like its source. *)
Definition chr (c : N) : Regex := CharSet false [CChar c].
Definition seqs (rs : list Regex) : Regex := foldr Seq Empty rs.
Definition lit (s : string) : Regex := seqs (chr <$> js s).
Arguments lit _%_string.
Definition opt (r : Regex) : Regex := Quant 0 (Some 1) r.
Definition star (r : Regex) : Regex := Quant 0 None r.
Definition plus (r : Regex) : Regex := Quant 1 None r.

(** The capture groups inside a pattern: a quantifier clears them at each
    iteration. *)
Fixpoint groupsOf (r : Regex) : list nat :=
  match r with
  | Empty | CharSet _ _ | WordBoundary => []
  | Seq r1 r2 | Disj r1 r2 => groupsOf r1 ++ groupsOf r2
  | Quant _ _ r | NegLookahead r | NegLookbehind r => groupsOf r
  | Group i r => i :: groupsOf r
  end.

(** *** The matcher *)

Record MatchState := mkState {
  endIndex : nat;
  captures : list (option (nat * nat))   (* capture i at position i - 1 *)
}.

Inductive Outcome :=
| Matched (s : MatchState)
| Failure
| OutOfFuel.

Definition Cont := MatchState -> Outcome.

Inductive Direction := Forward | Backward.

Definition clearCaptures (gs : list nat) (x : MatchState) : MatchState :=
  mkState (endIndex x) (foldr (fun g caps => <[pred g := None]> caps) (captures x) gs).

Definition setCapture (g : nat) (range : nat * nat) (y : MatchState) : MatchState :=
  mkState (endIndex y) (<[pred g := Some range]> (captures y)).

(** RepeatMatcher, greedy.  Every iteration with [min = 0] must move the end
    index, and at most [min] others do not, so [1 + min + length input]
    iterations are enough (see [compile_fuel]). *)
Fixpoint repeatMatcher (m : Cont -> MatchState -> Outcome) (gs : list nat)
    (fuel min : nat) (max : option nat) (c : Cont) (x : MatchState) : Outcome :=
  match fuel with
  | 0 => OutOfFuel
  | S fuel' =>
      if bool_decide (max = Some 0) then c x else
      let d : Cont := fun y =>
        if (min =? 0) && (endIndex y =? endIndex x) then Failure
        else repeatMatcher m gs fuel' (pred min) (pred <$> max) c y in
      let xr := clearCaptures gs x in
      if min =? 0 then
        match m d xr with
        | Failure => c x
        | z => z
        end
      else m d xr
  end.

Section Matcher.
Variable input : jsstring.
Variable ignoreCase : bool.

Definition isWordCharAt (e : nat) : bool :=
  match input !! e with
  | Some c => isWordChar c
  | None => false
  end.

Definition isWordBoundary (e : nat) : bool :=
  xorb (match e with 0 => false | S e' => isWordCharAt e' end) (isWordCharAt e).

Definition runLookaround (m : Cont -> MatchState -> Outcome)
    (c : Cont) (x : MatchState) : Outcome :=
  match m Matched x with
  | Matched _ => Failure
  | Failure => c x
  | OutOfFuel => OutOfFuel
  end.

Fixpoint compile (r : Regex) (dir : Direction) (c : Cont) (x : MatchState)
    : Outcome :=
  match r with
  | Empty => c x
  | CharSet invert atoms =>
      match dir with
      | Forward =>
          match input !! endIndex x with
          | Some a =>
              if charSetMatches ignoreCase invert atoms a
              then c (mkState (S (endIndex x)) (captures x))
              else Failure
          | None => Failure
          end
      | Backward =>
          match endIndex x with
          | 0 => Failure
          | S e =>
              match input !! e with
              | Some a =>
                  if charSetMatches ignoreCase invert atoms a
                  then c (mkState e (captures x))
                  else Failure
              | None => Failure
              end
          end
      end
  | Seq r1 r2 =>
      match dir with
      | Forward => compile r1 dir (compile r2 dir c) x
      | Backward => compile r2 dir (compile r1 dir c) x
      end
  | Disj r1 r2 =>
      match compile r1 dir c x with
      | Failure => compile r2 dir c x
      | z => z
      end
  | Quant min max r' =>
      repeatMatcher (compile r' dir) (groupsOf r')
        (1 + min + length input) min max c x
  | Group g r' =>
      compile r' dir
        (fun y =>
           c (setCapture g
                (match dir with
                 | Forward => (endIndex x, endIndex y)
                 | Backward => (endIndex y, endIndex x)
                 end) y)) x
  | WordBoundary => if isWordBoundary (endIndex x) then c x else Failure
  | NegLookahead r' => runLookaround (compile r' Forward) c x
  | NegLookbehind r' => runLookaround (compile r' Backward) c x
  end.
End Matcher.

(** ** RegExp objects

    The pattern and the flags of a RegExp never change; [lastIndex] does, and
    is passed in and out of [regExpBuiltinExec]. *)

Record RegExp := mkRegExp {
  pattern : Regex;
  nGroups : nat;
  groupNames : list (string * nat);
  global : bool;
  ignoreCaseFlag : bool
}.

Record MatchResult := mkResult {
  index : nat;
  matched : jsstring;                 (* result[0] *)
  groupValues : list (option jsstring)  (* result[1], result[2], ... *)
}.

(** [result.groups.name]: [None] is [undefined]. *)
Definition namedGroup (R : RegExp) (m : MatchResult) (name : string)
    : option jsstring :=
  match find (fun p => bool_decide (p.1 = name)) (groupNames R) with
  | Some (_, g) => mjoin (groupValues m !! pred g)
  | None => None
  end.

Definition matchAt (R : RegExp) (str : jsstring) (i : nat) : Outcome :=
  compile str (ignoreCaseFlag R) (pattern R) Forward Matched
    (mkState i (replicate (nGroups R) None)).

(** The loop of RegExpBuiltinExec over the start positions [i, i + n].  The
    matcher does not run out of fuel at a position of the text (see
    [matchAt_fuel]), so any answer but [Matched] is a failure here. *)
Fixpoint scanFrom (R : RegExp) (str : jsstring) (n i : nat)
    : option (nat * MatchState) :=
  match matchAt R str i with
  | Matched y => Some (i, y)
  | _ =>
      match n with
      | 0 => None
      | S n' => scanFrom R str n' (S i)
      end
  end.

Definition toResult (str : jsstring) (i : nat) (y : MatchState) : MatchResult :=
  mkResult i (substring str i (endIndex y))
    ((fun cap : option (nat * nat) =>
        (fun ab : nat * nat => substring str ab.1 ab.2) <$> cap) <$> captures y).

(** RegExpBuiltinExec(R, str) with [R.lastIndex = lastIndex]: the result and the
    new [lastIndex]. *)
Definition regExpBuiltinExec (R : RegExp) (lastIndex : nat) (str : jsstring)
    : option MatchResult * nat :=
  let start := if global R then lastIndex else 0 in
  if length str <? start then
    (None, if global R then 0 else lastIndex)
  else
    match scanFrom R str (length str - start) start with
    | None => (None, if global R then 0 else lastIndex)
    | Some (i, y) =>
        (Some (toResult str i y), if global R then endIndex y else lastIndex)
    end.

(** [RegExp.prototype.test]. *)
Definition regExpTest (R : RegExp) (lastIndex : nat) (str : jsstring) : bool * nat :=
  let '(r, li) := regExpBuiltinExec R lastIndex str in (bool_decide (is_Some r), li).

(** The loop of [RegExp.prototype[@@match]] for a global RegExp: it collects
    the matched strings, stepping over an empty match.  It ends before
    [2 + length str] rounds (see [matchLoop_final]). *)
Fixpoint matchLoop (R : RegExp) (str : jsstring) (fuel lastIndex : nat)
    : list jsstring * nat :=
  match fuel with
  | 0 => ([], lastIndex)
  | S fuel' =>
      match regExpBuiltinExec R lastIndex str with
      | (None, li) => ([], li)
      | (Some m, li) =>
          let li' := if bool_decide (matched m = []) then S li else li in
          let '(rest, final) := matchLoop R str fuel' li' in
          (matched m :: rest, final)
      end
  end.

(** [str.match(R)] with [R.lastIndex = lastIndex] before the call: the array
    ([None] is [null]; element 0 is the only one the program reads, the rest
    of the array of a non-global match is left out) and [R.lastIndex] after
    the call. *)
Definition stringMatch (str : jsstring) (R : RegExp) (lastIndex : nat)
    : option (list jsstring) * nat :=
  if global R then
    match matchLoop R str (2 + length str) 0 with
    | ([], li) => (None, li)
    | (A, li) => (Some A, li)
    end
  else
    let '(r, li) := regExpBuiltinExec R lastIndex str in
    ((fun m => [matched m]) <$> r, li).

(** ** The patterns of [src/index.js] *)

Definition cc (a : ascii) : ClassAtom := CChar (ch a).
Arguments cc _%_char.
Definition lower : ClassAtom := CRange (ch "a") (ch "z").
Definition upper : ClassAtom := CRange (ch "A") (ch "Z").
Definition digit09 : ClassAtom := CRange (ch "0") (ch "9").
Definition one (a : ascii) : Regex := chr (ch a).
Arguments one _%_char.
Definition digit : Regex := CharSet false [CDigit].
Definition currencyClass : Regex := CharSet false [cc "$"; CChar euro; CChar pound].

(** [/[a-zA-Z._%+-][a-zA-Z0-9._%+-]*@[a-zA-Z0-9.-]+\.[a-zA-Z]{2,}/] *)
Definition emailRegex : RegExp :=
  mkRegExp
    (seqs [ CharSet false [lower; upper; cc "."; cc "_"; cc "%"; cc "+"; cc "-"];
            star (CharSet false [lower; upper; digit09; cc "."; cc "_"; cc "%"; cc "+"; cc "-"]);
            one "@";
            plus (CharSet false [lower; upper; digit09; cc "."; cc "-"]);
            one ".";
            Quant 2 None (CharSet false [lower; upper]) ])
    0 [] false false.

(** [/\+?\d{1,3}[0-9\-\(\) ]{10,20}/] *)
Definition phoneRegex : RegExp :=
  mkRegExp
    (seqs [ opt (one "+");
            Quant 1 (Some 3) digit;
            Quant 10 (Some 20) (CharSet false [digit09; cc "-"; cc "("; cc ")"; cc " "]) ])
    0 [] false false.

(** [/((https?:\/\/)?(www\.)?)?linkedin\.com\/(in\/)?[A-z0-9_-]+/gi] *)
Definition linkedInRegex : RegExp :=
  mkRegExp
    (seqs [ opt (Group 1 (seqs [ opt (Group 2 (seqs [lit "http"; opt (one "s"); lit "://"]));
                                 opt (Group 3 (lit "www.")) ]));
            lit "linkedin.com/";
            opt (Group 4 (lit "in/"));
            plus (CharSet false [CRange (ch "A") (ch "z"); digit09; cc "_"; cc "-"]) ])
    4 [] true true.

(** [/(https?:\/\/)?(wa\.me|api\.whatsapp\.com)\/[^\s]+/gi] *)
Definition whatsAppRegex : RegExp :=
  mkRegExp
    (seqs [ opt (Group 1 (seqs [lit "http"; opt (one "s"); lit "://"]));
            Group 2 (Disj (lit "wa.me") (lit "api.whatsapp.com"));
            one "/";
            plus (CharSet true [CSpace]) ])
    2 [] true true.

(** [/(https?:\/\/)?(t\.me|telegram\.me)\/[^\s]+/gi] *)
Definition telegramUrlRegex : RegExp :=
  mkRegExp
    (seqs [ opt (Group 1 (seqs [lit "http"; opt (one "s"); lit "://"]));
            Group 2 (Disj (lit "t.me") (lit "telegram.me"));
            one "/";
            plus (CharSet true [CSpace]) ])
    2 [] true true.

(** [/(?<![\w.])@\w+(?!\.\w)/gi] *)
Definition telegramHandleRegex : RegExp :=
  mkRegExp
    (seqs [ NegLookbehind (CharSet false [CWord; cc "."]);
            one "@";
            plus (CharSet false [CWord]);
            NegLookahead (seqs [one "."; CharSet false [CWord]]) ])
    0 [] true true.

(** [/(?<currencySymbol>[\$€£])\s?(?<amount>\d+(?:,?\d{3})*(?:\.\d{1,2})?)( {1,3})(?<currencySymbol2>[\$€£])?\s?\s?(?:per year|annually|per annum|per month)?/gi] *)
Definition salaryRegex : RegExp :=
  mkRegExp
    (seqs [ Group 1 currencyClass;
            opt (CharSet false [CSpace]);
            Group 2 (seqs [ plus digit;
                            star (seqs [opt (one ","); Quant 3 (Some 3) digit]);
                            opt (seqs [one "."; Quant 1 (Some 2) digit]) ]);
            Group 3 (Quant 1 (Some 3) (one " "));
            opt (Group 4 currencyClass);
            opt (CharSet false [CSpace]);
            opt (CharSet false [CSpace]);
            opt (Disj (lit "per year")
                   (Disj (lit "annually") (Disj (lit "per annum") (lit "per month")))) ])
    4 [("currencySymbol", 1); ("amount", 2); ("currencySymbol2", 4)]%string true true.

(** ** String helpers of the runtime *)

(** [s.split(sep)] for a separator of one code unit. *)
Fixpoint split (sep : N) (s : jsstring) : list jsstring :=
  match s with
  | [] => [[]]
  | a :: s' =>
      if (a =? sep)%N then [] :: split sep s'
      else match split sep s' with
           | p :: ps => (a :: p) :: ps
           | [] => [[a]]
           end
  end.

Fixpoint trimStart (s : jsstring) : jsstring :=
  match s with
  | a :: s' => if isWhiteSpace a then trimStart s' else s
  | [] => []
  end.

Definition trim (s : jsstring) : jsstring :=
  reverse (trimStart (reverse (trimStart s))).

(** A string is truthy when it is not empty; [undefined] is falsy. *)
Definition truthy (v : option jsstring) : bool :=
  match v with
  | Some (_ :: _) => true
  | _ => false
  end.

(** [a || b] on values that are strings or [undefined]. *)
Definition orElse (a b : option jsstring) : option jsstring :=
  if truthy a then a else b.

(** The value of a string of decimal digits. *)
Definition digitsValue (ds : jsstring) : N :=
  foldl (fun acc d => (10 * acc + (d - 48))%N) 0%N ds.

Fixpoint spanDigits (s : jsstring) : jsstring * jsstring :=
  match s with
  | a :: s' =>
      if isDigit a then let '(ds, rest) := spanDigits s' in (a :: ds, rest)
      else ([], s)
  | [] => ([], [])
  end.

(** A Number that [parseFloat] answers on an unsigned decimal: NaN,
    [Infinity], or a finite double, kept as the rational it stands for. *)
Inductive JsNumber :=
| NaN
| Infinity
| Double (q : Q).

(** The integer nearest to [num / den], the even one of two that are equally
    near. *)
Definition roundHalfEven (num den : Z) : Z :=
  let q := (num / den)%Z in
  let r := (num mod den)%Z in
  match (2 * r ?= den)%Z with
  | Lt => q
  | Gt => (q + 1)%Z
  | Eq => if Z.even q then q else (q + 1)%Z
  end.

(** The Number value of the rational [n / d], for [0 <= n] and [0 < d]: with
    [2 ^ e <= n / d < 2 ^ (e + 1)], the multiple of [2 ^ (e - 52)], or of
    [2 ^ (-1074)] for a subnormal, that is nearest to [n / d], ties to the
    even multiple; [Infinity] when that is [2 ^ 1024]. *)
Definition roundToDouble (n d : Z) : JsNumber :=
  if (n =? 0)%Z then Double 0 else
  let e0 := (Z.log2 n - Z.log2 d)%Z in
  let e := if (d * 2 ^ Z.max e0 0 <=? n * 2 ^ Z.max (- e0) 0)%Z
           then e0 else (e0 - 1)%Z in
  let s := Z.min (52 - e) 1074 in
  let m := roundHalfEven (n * 2 ^ Z.max s 0) (d * 2 ^ Z.max (- s) 0) in
  if (2 ^ 1024 * 2 ^ Z.max s 0 <=? m * 2 ^ Z.max (- s) 0)%Z then Infinity
  else Double (Qred (m * 2 ^ Z.max (- s) 0 # Z.to_pos (2 ^ Z.max s 0))).

(** [parseFloat] on the strings the program gives it: digits with an optional
    fraction (no sign, exponent or leading blank).  The result is the double
    nearest to the decimal read, or NaN when no digit is read. *)
Definition parseFloat (s : jsstring) : JsNumber :=
  let '(ip, rest) := spanDigits s in
  let fp := match rest with
            | a :: rest' => if (a =? ch ".")%N then (spanDigits rest').1 else []
            | [] => []
            end in
  match ip, fp with
  | [], [] => NaN
  | _, _ =>
      roundToDouble (Z.of_N (digitsValue (ip ++ fp))) (10 ^ Z.of_nat (length fp))
  end.

(** ** The world of the handler *)

Definition bytes := list Byte.byte.

(** What the program gets from its libraries and data files: the decoders, the
    entity recognizer of [compromise], and the two reference lists.  An entry
    of a list is kept with the one field the program reads. *)
Record Country := mkCountry { countryName : jsstring }.
Record Language := mkLanguage { languageName : jsstring }.

Class Runtime := {
  (** [Buffer.from(body, 'base64')] *)
  bufferFromBase64 : jsstring -> bytes;
  (** [pdfParse(buffer)]: [inl message] when the promise rejects, [inr text]
      for [data.text] *)
  pdfParse : bytes -> jsstring + jsstring;
  (** [docxParser.parseDocx(path, callback)], from what is stored at the path:
      [inl message] for [callback(error)], [inr data] for [callback(null, data)] *)
  parseDocx : option bytes -> jsstring + jsstring;
  (** [nlp(text).people().out('array')] *)
  people : jsstring -> list jsstring;
  (** [nlp(text).places().out('array')] *)
  places : jsstring -> list jsstring;
  iso31661 : list Country;
  languages : list Language;
  (** the message of the TypeError the engine throws at line 21 when
      [event.uploadCv] is [undefined]; its wording is the engine's *)
  destructureMessage : jsstring
}.

Inductive Exn :=
| JsError (message : jsstring)      (* new Error(message) *)
| TypeError (message : jsstring).   (* thrown by the runtime *)

Definition exnMessage (e : Exn) : jsstring :=
  match e with
  | JsError m | TypeError m => m
  end.

Inductive Call :=
| CallPdfParse (buffer : bytes)
| CallParseDocx (path : jsstring).

Record World := mkWorld {
  files : gmap jsstring bytes;   (* the file system *)
  salaryLastIndex : nat;         (* salaryRegex.lastIndex *)
  calls : list Call              (* the decoder calls made so far, latest first *)
}.

(** The result of a computation: a value, a thrown exception, or
    [OutsideModel] when the program builds a RegExp from a source that
    [parsePattern] below does not read. *)
Inductive Result (A : Type) :=
| Return (a : A)
| Throw (e : Exn)
| OutsideModel.
Arguments Return {A} a.
Arguments Throw {A} e.
Arguments OutsideModel {A}.

Definition M (A : Type) : Type := World -> Result A * World.

Global Instance M_ret : MRet M := fun A a w => (Return a, w).
Global Instance M_bind : MBind M := fun A B f m w =>
  match m w with
  | (Return a, w') => f a w'
  | (Throw e, w') => (Throw e, w')
  | (OutsideModel, w') => (OutsideModel, w')
  end.

Definition throw {A} (e : Exn) : M A := fun w => (Throw e, w).
Definition liftResult {A} (r : Result A) : M A := fun w => (r, w).

(** [try { body } catch (error) { handler }] *)
Definition tryCatch {A} (body : M A) (handler : Exn -> M A) : M A := fun w =>
  match body w with
  | (Throw e, w') => handler e w'
  | r => r
  end.

Definition writeFileSync (path : jsstring) (content : bytes) : M unit := fun w =>
  (Return (), mkWorld (<[path := content]> (files w)) (salaryLastIndex w) (calls w)).

(** The program unlinks only the file it has just written, so the case of a
    missing file is left out. *)
Definition unlinkSync (path : jsstring) : M unit := fun w =>
  (Return (), mkWorld (delete path (files w)) (salaryLastIndex w) (calls w)).

Definition readFile (path : jsstring) : M (option bytes) := fun w =>
  (Return (files w !! path), w).

Definition logCall (call : Call) : M unit := fun w =>
  (Return (), mkWorld (files w) (salaryLastIndex w) (call :: calls w)).

(** ** The field extractors *)

Section Extractors.
Context `{Runtime}.

Definition splitMessage : jsstring :=
  js "Cannot read properties of undefined (reading 'split')".

(** [extractFullName]: the pair [firstName, lastName]; [lastName] may be
    [undefined].  [fullName.split] throws when [people] is empty. *)
Definition extractFullName (text : jsstring) : Result (jsstring * option jsstring) :=
  let people := people text in
  match people !! 0 with
  | None => Throw (TypeError splitMessage)
  | Some fullName =>
      let parts := split (ch " ") fullName in
      let firstName := default [] (parts !! 0) in
      let lastName := parts !! 1 in
      let lastName :=
        if negb (truthy lastName)
           && bool_decide ((fun p => length (split (ch " ") p)) <$> people !! 1 = Some 1)
        then people !! 1 else lastName in
      Return (firstName, lastName)
  end.

(** [m ? m[0] : null] *)
Definition firstMatch (m : option (list jsstring)) : option jsstring :=
  match m with
  | Some A => A !! 0
  | None => None
  end.

Definition extractEmail (text : jsstring) : option jsstring :=
  firstMatch (stringMatch text emailRegex 0).1.

Definition extractPhoneNumber (text : jsstring) : option jsstring :=
  firstMatch (stringMatch text phoneRegex 0).1.

(** The four patterns below have the [g] flag; [match] puts their
    [lastIndex] to 0 before it scans and leaves it at 0 (see
    [stringMatch_global]), so the world does not keep it. *)
Definition extractLinkedIn (text : jsstring) : option jsstring :=
  firstMatch (stringMatch text linkedInRegex 0).1.

(** [doc.places().out('array').flatMap(l => l.split(',').map(l => l.trim()))] *)
Definition locationsOf (text : jsstring) : list jsstring :=
  flat_map (fun l => trim <$> split (ch ",") l) (places text).

Definition extractCountry (text : jsstring) : option jsstring :=
  let locations := locationsOf text in
  let countries :=
    filter (fun country => countryName country ∈ locations) iso31661 in
  match countries with
  | country :: _ => Some (countryName country)
  | [] => None
  end.

(** The characters [parsePattern] does not read as themselves. *)
Definition isSyntaxChar (a : N) : bool :=
  bool_decide (a ∈ js "^$\.*+?()[]{}|").

(** [new RegExp(source)] for a source made of [\b] and of ASCII characters
    that stand for themselves; [None] for any other source.  A character
    outside ASCII is not read: under the [i] flag the engine compares it
    through its [toUpperCase] table, which is no part of the program, while
    [charSetMatches] folds the case of ASCII letters only. *)
Fixpoint parsePattern (source : jsstring) : option Regex :=
  match source with
  | [] => Some Empty
  | a :: rest =>
      if (a =? ch "\")%N then
        match rest with
        | b :: rest' =>
            if (b =? ch "b")%N then Seq WordBoundary <$> parsePattern rest'
            else None
        | [] => None
        end
      else if isSyntaxChar a || (128 <=? a)%N then None
      else Seq (chr a) <$> parsePattern rest
  end.

(** [new RegExp(`\\b${name.trim()}\\b`, 'i').test(text)] *)
Definition languageTest (text : jsstring) (language : Language) : option bool :=
  (fun r => (regExpTest (mkRegExp r 0 [] false true) 0 text).1)
    <$> parsePattern (js "\b" ++ trim (languageName language) ++ js "\b").

(** [languages.filter(language => ...)] *)
Fixpoint filterLanguages (text : jsstring) (ls : list Language)
    : option (list Language) :=
  match ls with
  | [] => Some []
  | language :: ls' =>
      match languageTest text language, filterLanguages text ls' with
      | Some keep, Some rest => Some (if keep then language :: rest else rest)
      | _, _ => None
      end
  end.

Definition extractLanguages (text : jsstring) : Result (option (list Language)) :=
  match filterLanguages text languages with
  | None => OutsideModel
  | Some [] => Return None
  | Some foundLanguages => Return (Some foundLanguages)
  end.

Definition extractWhatsApp (text : jsstring) : option jsstring :=
  firstMatch (stringMatch text whatsAppRegex 0).1.

Definition extractTelegram (text : jsstring) : option jsstring :=
  match (stringMatch text telegramUrlRegex 0).1 with
  | Some telegramUrlMatch => telegramUrlMatch !! 0
  | None => firstMatch (stringMatch text telegramHandleRegex 0).1
  end.

Definition currencyMap : list (jsstring * jsstring) :=
  [ (js "$", js "USD"); ([euro], js "EUR"); ([pound], js "GBP") ].

Definition currencyLookup (symbol : jsstring) : option jsstring :=
  snd <$> find (fun p => bool_decide (p.1 = symbol)) currencyMap.

Record Salary := mkSalary {
  amount : JsNumber;
  currency : jsstring
}.

(** [extractSalary]: [salaryRegex.exec] reads and writes
    [salaryRegex.lastIndex]. *)
Definition extractSalary (text : jsstring) : M (option Salary) := fun w =>
  let '(salaryMatch, lastIndex) :=
    regExpBuiltinExec salaryRegex (salaryLastIndex w) text in
  let w' := mkWorld (files w) lastIndex (calls w) in
  match salaryMatch with
  | Some m =>
      if truthy (namedGroup salaryRegex m "amount") then
        let amount :=
          parseFloat (filter (fun a => a ≠ ch ",")
                        (default [] (namedGroup salaryRegex m "amount"))) in
        let currencySymbol :=
          orElse (orElse (namedGroup salaryRegex m "currencySymbol")
                         (namedGroup salaryRegex m "currencySymbol2"))
                 (Some (js "$")) in
        let currencyCode :=
          orElse (currencyLookup (default [] currencySymbol)) (Some (js "USD")) in
        (Return (Some (mkSalary amount (default [] currencyCode))), w')
      else (Return None, w')
  | None => (Return None, w')
  end.
End Extractors.

(** ** The handler *)

Record UploadCv := mkUploadCv {
  body : option jsstring;     (* [None]: no such field *)
  format : option jsstring    (* [None]: absent or null *)
}.

Record Event := mkEvent {
  uploadCv : option UploadCv;
  headers : option (gmap jsstring jsstring)
}.

Record ExtractedInfo := mkInfo {
  firstName : jsstring;
  lastName : option jsstring;
  fullName : option jsstring;
  email : option jsstring;
  phoneNumber : option jsstring;
  linkedIn : option jsstring;
  country : option jsstring;
  languagesFound : option (list Language);
  whatsApp : option jsstring;
  telegram : option jsstring;
  desiredSalary : option Salary
}.

(** The object the handler returns; [None] is a field the object does not have. *)
Record Envelope := mkEnvelope {
  statusCode : nat;
  data : option ExtractedInfo;
  message : option jsstring;
  error : option jsstring
}.

Definition pdfType : jsstring := js "application/pdf".
Definition docxType : jsstring :=
  js "application/vnd.openxmlformats-officedocument.wordprocessingml.document".
Definition tempFilePath : jsstring := js "/tmp/resume.docx".

Section Handler.
Context `{Runtime}.

Definition extractFromPDF (fileContent : bytes) : M jsstring :=
  _ ← logCall (CallPdfParse fileContent);
  match pdfParse fileContent with
  | inr text => mret text
  | inl errorMessage => throw (JsError (js "Failed to parse PDF: " ++ errorMessage))
  end.

Definition extractFromDocx (fileContent : bytes) : M jsstring :=
  _ ← writeFileSync tempFilePath fileContent;
  _ ← logCall (CallParseDocx tempFilePath);
  stored ← readFile tempFilePath;
  match parseDocx stored with
  | inl errorMessage => throw (JsError (js "Failed to parse DOCX: " ++ errorMessage))
  | inr data =>
      _ ← unlinkSync tempFilePath;
      mret data
  end.

(** Lines 42 to 60: the extractors in the order of the object literal. *)
Definition extractAll (extractedText : jsstring) : M Envelope :=
  '(firstName, lastName) ← liftResult (extractFullName extractedText);
  let fullName :=
    if truthy (Some firstName) && truthy lastName
    then Some (firstName ++ js " " ++ default [] lastName) else None in
  let email := extractEmail extractedText in
  let phoneNumber := extractPhoneNumber extractedText in
  let linkedIn := extractLinkedIn extractedText in
  let country := extractCountry extractedText in
  languages ← liftResult (extractLanguages extractedText);
  let whatsApp := extractWhatsApp extractedText in
  let telegram := extractTelegram extractedText in
  desiredSalary ← extractSalary extractedText;
  mret (mkEnvelope 200
          (Some (mkInfo firstName lastName fullName email phoneNumber linkedIn
                   country languages whatsApp telegram desiredSalary))
          None None).

Definition bufferMessage : jsstring :=
  js "The first argument must be of type string or an instance of Buffer, ArrayBuffer, or Array or an Array-like Object. Received undefined".
Definition headersMessage : jsstring :=
  js "Cannot read properties of undefined (reading 'Content-Type')".

(** [format ?? event.headers['Content-Type']]; [Return None] is [undefined]. *)
Definition declaredType (cv : UploadCv) (event : Event) : Result (option jsstring) :=
  match format cv with
  | Some f => Return (Some f)
  | None =>
      match headers event with
      | Some h => Return (h !! js "Content-Type")
      | None => Throw (TypeError headersMessage)
      end
  end.

(** [exports.handler]: [Throw] is the rejection of the promise it returns. *)
Definition handler (event : Event) : M Envelope :=
  cv ← match uploadCv event with
       | Some cv => mret cv
       | None => throw (TypeError destructureMessage)
       end;
  fileContent ← match body cv with
                | Some b => mret (bufferFromBase64 b)
                | None => throw (TypeError bufferMessage)
                end;
  fileType ← liftResult (declaredType cv event);
  tryCatch
    (if bool_decide (fileType = Some pdfType) then
       extractedText ← extractFromPDF fileContent;
       extractAll extractedText
     else if bool_decide (fileType = Some docxType) then
       extractedText ← extractFromDocx fileContent;
       extractAll extractedText
     else
       mret (mkEnvelope 400 None (Some (js "Unsupported file type")) None))
    (fun error =>
       mret (mkEnvelope 500 None (Some (js "Error parsing resume"))
               (Some (exnMessage error)))).
End Handler.

(** ** Whole-word occurrence, as the specification words it

    The languages extractor is compared with these definitions: a name occurs
    as a whole word when its characters stand in the text, letters compared
    without case, with no word character right before or right after. *)

Definition sameLetter (a b : N) : bool := (asciiUpper a =? asciiUpper b)%N.

Fixpoint startsWith (name text : jsstring) : bool :=
  match name, text with
  | [], _ => true
  | a :: name', b :: text' => sameLetter a b && startsWith name' text'
  | _ :: _, [] => false
  end.

Definition wholeWordAt (name text : jsstring) (i : nat) : bool :=
  startsWith name (drop i text)
  && negb (match i with 0 => false | S p => isWordCharAt text p end)
  && negb (isWordCharAt text (i + length name)).

Definition occursAsWord (name text : jsstring) : bool :=
  existsb (wholeWordAt name text) (seq 0 (S (length text))).


(** An ASCII name that [parsePattern] reads as itself, and that begins and
    ends with a word character. *)
Definition plainName (name : jsstring) : bool :=
  forallb (fun a => (a <? 128)%N && negb (isSyntaxChar a)) name
  && match head name with Some a => isWordChar a | None => false end
  && match last name with Some a => isWordChar a | None => false end.

(** ** Notions for the proofs *)

Section Progress.
Variable input : jsstring.

(** [x'] is further on than [x] in the direction of the match. *)
Definition reach (dir : Direction) (x x' : MatchState) : Prop :=
  match dir with
  | Forward => endIndex x ≤ endIndex x' ∧ endIndex x' ≤ length input
  | Backward => endIndex x' ≤ endIndex x
  end.

Definition distance (dir : Direction) (x : MatchState) : nat :=
  match dir with
  | Forward => length input - endIndex x
  | Backward => endIndex x
  end.

Definition Progressive (dir : Direction) (m : Cont -> MatchState -> Outcome) : Prop :=
  ∀ (Q : Outcome -> Prop) (k : Cont) (x : MatchState),
    Q Failure ->
    endIndex x ≤ length input ->
    (∀ x', reach dir x x' -> Q (k x')) ->
    Q (m k x).
End Progress.

Definition isCurrencySymbol (a : N) : bool :=
  ((a =? ch "$") || (a =? euro) || (a =? pound))%N.

(** The pattern of a literal name followed by [r]. *)
Definition literal (name : jsstring) (r : Regex) : Regex :=
  foldr (fun a r' => Seq (chr a) r') r name.

Definition isMatched (o : Outcome) : bool :=
  match o with
  | Matched _ => true
  | _ => false
  end.

(** [desiredSalary] of the envelope's data, when the handler returned data. *)
Definition salaryOf (r : Result Envelope) : option (option Salary) :=
  match r with
  | Return envelope => desiredSalary <$> data envelope
  | _ => None
  end.

(** ** A runtime to run the handler on

    A decoder that answers a given text or a given failure, a recognizer that
    answers given entities, and short reference lists. *)

Module Demo.
Definition runtime (decoded : jsstring + jsstring) (persons locations : list jsstring)
    : Runtime :=
  {| bufferFromBase64 := fun _ => [];
     pdfParse := fun _ => decoded;
     parseDocx := fun _ => decoded;
     people := fun _ => persons;
     places := fun _ => locations;
     iso31661 := [mkCountry (js "France"); mkCountry (js "Germany")];
     languages := [mkLanguage (js "English"); mkLanguage (js "Spanish")];
     destructureMessage := js "uploadCv is undefined" |}.

Definition world : World := mkWorld ∅ 0 [].

Definition event (fileType : jsstring) : Event :=
  mkEvent (Some (mkUploadCv (Some (js "JVBERi0=")) (Some fileType))) None.
End Demo.

Definition envelope400 : Envelope :=
  mkEnvelope 400 None (Some (js "Unsupported file type")) None.

Definition envelope500 (description : jsstring) : Envelope :=
  mkEnvelope 500 None (Some (js "Error parsing resume")) (Some description).

(** ** Notions for the further properties *)

(** [x'] has the captures of [x] but for those of the groups [gs]. *)
Definition keeps (gs : list nat) (x x' : MatchState) : Prop :=
  ∀ j, (∀ g, g ∈ gs -> pred g ≠ j) -> captures x' !! j = captures x !! j.

(** A matcher that answers through its continuation, at a state that has
    the captures it was given but for those of the groups [gs]. *)
Definition Keeping (input : jsstring) (dir : Direction) (gs : list nat)
    (m : Cont -> MatchState -> Outcome) : Prop :=
  ∀ (Q : Outcome -> Prop) (k : Cont) (x : MatchState),
    Q Failure ->
    endIndex x ≤ length input ->
    (∀ x', reach input dir x x' -> keeps gs x x' -> Q (k x')) ->
    Q (m k x).

(** The three shapes of an envelope. *)
Definition wellShaped (envelope : Envelope) : Prop :=
  (statusCode envelope = 200 ∧ is_Some (data envelope)
   ∧ message envelope = None ∧ error envelope = None)
  ∨ (statusCode envelope = 400 ∧ data envelope = None
     ∧ message envelope = Some (js "Unsupported file type") ∧ error envelope = None)
  ∨ (statusCode envelope = 500 ∧ data envelope = None
     ∧ message envelope = Some (js "Error parsing resume") ∧ is_Some (error envelope)).

(** Character sets that the properties of the extractors speak of. *)
Definition isLetter (c : N) : bool := inRange 97 122 c || inRange 65 90 c.

Definition anyOf (s : string) (c : N) : bool := existsb (N.eqb c) (js s).
Arguments anyOf _%_string _.

(** The same text up to the case of ASCII letters. *)
Definition sameText (a b : jsstring) : bool :=
  (length a =? length b) && startsWith a b.

(** The characters of [[A-z0-9_-]]: the range from [A] to [z] holds the
    letters and the six characters between [Z] and [a]. *)
Definition isHandleChar (c : N) : bool := inRange 65 122 c || isDigit c || anyOf "_-" c.

(** ** The pieces of a place, as the specification words them

    A piece of a place is what stands between two commas of the place (or an
    end of it), without the blanks at its two ends. *)
Definition pieceOf (piece place : jsstring) : Prop :=
  ∃ before l r after,
    place = before ++ (l ++ piece ++ r) ++ after
    ∧ (before = [] ∨ last before = Some (ch ","))
    ∧ (after = [] ∨ head after = Some (ch ","))
    ∧ (ch "," ∉ l ++ piece ++ r)
    ∧ Forall (fun a => isWhiteSpace a = true) l
    ∧ Forall (fun a => isWhiteSpace a = true) r
    ∧ (∀ a, head piece = Some a -> isWhiteSpace a = false)
    ∧ (∀ a, last piece = Some a -> isWhiteSpace a = false).

(** ** The shape of a salary, as the specification words it

    An amount is one or more digits, then groups of three digits, each after
    an optional comma, then optionally a dot and one or two digits.  A salary
    stands at a position of the text when a currency symbol is there, then
    optionally one blank, an amount, and a space. *)
Definition groupShape (g : jsstring) : Prop :=
  ∃ c ds, g = c ++ ds
          ∧ (c = [] ∨ c = [ch ","])
          ∧ length ds = 3
          ∧ Forall (fun a => isDigit a = true) ds.

Definition fractionShape (f : jsstring) : Prop :=
  f = [] ∨ ∃ ds, f = ch "." :: ds
                 ∧ 1 ≤ length ds ≤ 2
                 ∧ Forall (fun a => isDigit a = true) ds.

Definition amountShape (amt : jsstring) : Prop :=
  ∃ d0 groups frac,
    amt = d0 ++ concat groups ++ frac
    ∧ 1 ≤ length d0
    ∧ Forall (fun a => isDigit a = true) d0
    ∧ Forall groupShape groups
    ∧ fractionShape frac.

Definition salaryAt (text : jsstring) (i : nat) (sym : N) (amt : jsstring) : Prop :=
  ∃ ws rest,
    drop i text = sym :: ws ++ amt ++ ch " " :: rest
    ∧ isCurrencySymbol sym = true
    ∧ (ws = [] ∨ ∃ c, ws = [c] ∧ isWhiteSpace c = true)
    ∧ amountShape amt.

(** The code of a currency symbol. *)
Definition currencyCode (sym : N) : jsstring :=
  if (sym =? euro)%N then js "EUR"
  else if (sym =? pound)%N then js "GBP"
  else js "USD".

(** The period keywords. *)
Definition periodKeywords : list jsstring :=
  [js "per year"; js "annually"; js "per annum"; js "per month"].

(** * Properties *)

(** ** The matcher answers through its continuation

    A matcher built by [compile] fails, or answers what its continuation
    answers at a state further on in its direction.  A property that holds of
    [Failure] and of the continuation's answers therefore holds of the
    matcher's answer. *)

Section MatcherFacts.
Variable input : jsstring.
Variable ignoreCase : bool.

Lemma reach_refl dir x : endIndex x ≤ length input -> reach input dir x x.
Proof. destruct dir; simpl; lia. Qed.

Lemma reach_trans dir x y z : reach input dir x y -> reach input dir y z -> reach input dir x z.
Proof. destruct dir; simpl; lia. Qed.

Lemma reach_bound dir x y :
  endIndex x ≤ length input -> reach input dir x y -> endIndex y ≤ length input.
Proof. destruct dir; simpl; lia. Qed.

Lemma reach_distance dir x y :
  reach input dir x y -> endIndex y ≠ endIndex x -> distance input dir y < distance input dir x.
Proof. destruct dir; simpl; lia. Qed.

Lemma reach_distance_le dir x y : reach input dir x y -> distance input dir y ≤ distance input dir x.
Proof. destruct dir; simpl; lia. Qed.

Lemma repeatMatcher_progressive dir m gs :
  Progressive input dir m ->
  ∀ fuel min max (Q : Outcome -> Prop) (k : Cont) (x : MatchState),
    Q Failure ->
    endIndex x ≤ length input ->
    min + distance input dir x < fuel ->
    (∀ x', reach input dir x x' -> Q (k x')) ->
    Q (repeatMatcher m gs fuel min max k x).
Proof.
  intros Hm fuel. induction fuel as [|fuel IH]; intros min max Q k x HF Hx Hfuel Hk.
  - lia.
  - simpl. case_bool_decide as Hmax.
    { apply Hk, reach_refl, Hx. }
    assert (Hd : ∀ y, reach input dir (clearCaptures gs x) y ->
              Q (if (min =? 0) && (endIndex y =? endIndex x) then Failure
                 else repeatMatcher m gs fuel (pred min) (pred <$> max) k y)).
    { intros y Hy.
      assert (Hxy : reach input dir x y) by (destruct dir; exact Hy).
      destruct ((min =? 0) && (endIndex y =? endIndex x)) eqn:E; [exact HF|].
      apply IH; [exact HF | eapply reach_bound; eauto | |].
      - destruct min as [|min'].
        + simpl in E. apply Nat.eqb_neq in E.
          pose proof (reach_distance dir x y Hxy E). simpl. lia.
        + pose proof (reach_distance_le dir x y Hxy). simpl. lia.
      - intros x' Hx'. apply Hk. eapply reach_trans; eauto. }
    destruct (min =? 0).
    + assert (HQ := Hm Q _ (clearCaptures gs x) HF Hx Hd).
      destruct (m _ (clearCaptures gs x)); try exact HQ.
      apply Hk, reach_refl, Hx.
    + apply (Hm Q _ (clearCaptures gs x) HF Hx Hd).
Qed.

Lemma compile_progressive r dir : Progressive input dir (compile input ignoreCase r dir).
Proof.
  revert dir. induction r as [|inv atoms|r1 IH1 r2 IH2|r1 IH1 r2 IH2|min max r IH|g r IH| |r IH|r IH];
    intros dir Q k x HF Hx Hk; cbn [compile].
  - apply Hk, reach_refl, Hx.
  - destruct dir.
    + destruct (input !! endIndex x) as [a|] eqn:E; [|exact HF].
      destruct (charSetMatches _ _ _ _); [|exact HF].
      apply Hk. simpl. apply lookup_lt_Some in E. lia.
    + destruct (endIndex x) as [|e] eqn:Ee; [exact HF|].
      destruct (input !! e) as [a|] eqn:E; [|exact HF].
      destruct (charSetMatches _ _ _ _); [|exact HF].
      apply Hk. simpl. lia.
  - destruct dir.
    + apply IH1; [exact HF | exact Hx |]. intros y Hy.
      apply IH2; [exact HF | eapply reach_bound; eauto |].
      intros z Hz. apply Hk. eapply reach_trans; eauto.
    + apply IH2; [exact HF | exact Hx |]. intros y Hy.
      apply IH1; [exact HF | eapply reach_bound; eauto |].
      intros z Hz. apply Hk. eapply reach_trans; eauto.
  - assert (H1 := IH1 dir Q k x HF Hx Hk).
    assert (H2 := IH2 dir Q k x HF Hx Hk).
    destruct (compile input ignoreCase r1 dir k x); assumption.
  - apply (repeatMatcher_progressive dir); [apply IH | exact HF | exact Hx | | exact Hk].
    pose proof (reach_distance_le dir x x (reach_refl dir x Hx)).
    destruct dir; simpl; lia.
  - apply IH; [exact HF | exact Hx |]. intros y Hy. apply Hk.
    destruct dir; exact Hy.
  - destruct (isWordBoundary input (endIndex x)); [|exact HF].
    apply Hk, reach_refl, Hx.
  - unfold runLookaround.
    assert (H1 := IH Forward (fun o => o ≠ OutOfFuel) Matched x
                    ltac:(discriminate) Hx ltac:(discriminate)).
    destruct (compile input ignoreCase r Forward Matched x);
      [exact HF | apply Hk, reach_refl, Hx | congruence].
  - unfold runLookaround.
    assert (H1 := IH Backward (fun o => o ≠ OutOfFuel) Matched x
                    ltac:(discriminate) Hx ltac:(discriminate)).
    destruct (compile input ignoreCase r Backward Matched x);
      [exact HF | apply Hk, reach_refl, Hx | congruence].
Qed.

(** The fuel of [repeatMatcher] is enough: a matcher whose continuation does
    not run out of fuel does not either. *)
Lemma compile_fuel r dir k x :
  endIndex x ≤ length input ->
  (∀ x', k x' ≠ OutOfFuel) ->
  compile input ignoreCase r dir k x ≠ OutOfFuel.
Proof.
  intros Hx Hk.
  apply (compile_progressive r dir (fun o => o ≠ OutOfFuel)); auto.
Qed.

(** A match ends between its start and the end of the input. *)
Lemma compile_matched_range r k x y :
  endIndex x ≤ length input ->
  compile input ignoreCase r Forward k x = Matched y ->
  ∃ x', endIndex x ≤ endIndex x' ≤ length input ∧ k x' = Matched y.
Proof.
  intros Hx.
  apply (compile_progressive r Forward
           (fun o => o = Matched y ->
                     ∃ x', endIndex x ≤ endIndex x' ≤ length input ∧ k x' = Matched y));
    [discriminate | exact Hx |].
  intros x' Hx' E. exists x'. split; [exact Hx' | exact E].
Qed.
End MatcherFacts.

(** ** The scan of [exec] and the loop of [match] *)

Section ExecFacts.
Variable R : RegExp.
Variable str : jsstring.

Lemma matchAt_fuel i : i ≤ length str -> matchAt R str i ≠ OutOfFuel.
Proof. intros Hi. apply compile_fuel; [exact Hi | discriminate]. Qed.

Lemma matchAt_range i y :
  i ≤ length str -> matchAt R str i = Matched y -> i ≤ endIndex y ≤ length str.
Proof.
  intros Hi E. apply compile_matched_range in E as (x' & Hx' & E'); [|exact Hi].
  injection E' as ->. exact Hx'.
Qed.

(** The scan answers the leftmost position at which the pattern matches. *)
Lemma scanFrom_Some n i j y :
  scanFrom R str n i = Some (j, y) ->
  i ≤ j ≤ i + n ∧ matchAt R str j = Matched y
  ∧ ∀ k, i ≤ k < j -> ∀ z, matchAt R str k ≠ Matched z.
Proof.
  revert i. induction n as [|n IH]; intros i; simpl.
  - destruct (matchAt R str i) eqn:E; intros [= <- <-] || discriminate.
    repeat split; [lia | lia | exact E | intros; lia].
  - destruct (matchAt R str i) eqn:E.
    + intros [= <- <-]. repeat split; [lia | lia | exact E | intros; lia].
    + intros Hs. apply IH in Hs as (Hj & Hm & Hmin).
      repeat split; [lia | lia | exact Hm |].
      intros k Hk z. destruct (decide (k = i)) as [->|]; [congruence|].
      apply Hmin. lia.
    + intros Hs. apply IH in Hs as (Hj & Hm & Hmin).
      repeat split; [lia | lia | exact Hm |].
      intros k Hk z. destruct (decide (k = i)) as [->|]; [congruence|].
      apply Hmin. lia.
Qed.

Lemma scanFrom_None n i :
  scanFrom R str n i = None <->
  ∀ k, i ≤ k ≤ i + n -> ∀ z, matchAt R str k ≠ Matched z.
Proof.
  revert i. induction n as [|n IH]; intros i; simpl.
  - split.
    + intros Hs k Hk z. assert (k = i) as -> by lia.
      destruct (matchAt R str i); congruence.
    + intros Hno. destruct (matchAt R str i) eqn:E; [|done..].
      exfalso. eapply (Hno i); [lia | exact E].
  - split.
    + intros Hs k Hk z. destruct (matchAt R str i) eqn:E; [discriminate| |].
      * destruct (decide (k = i)) as [->|]; [congruence|].
        apply (proj1 (IH (S i)) Hs). lia.
      * destruct (decide (k = i)) as [->|]; [congruence|].
        apply (proj1 (IH (S i)) Hs). lia.
    + intros Hno. destruct (matchAt R str i) eqn:E.
      * exfalso. eapply (Hno i); [lia | exact E].
      * apply IH. intros k Hk. apply Hno. lia.
      * apply IH. intros k Hk. apply Hno. lia.
Qed.

(** [exec] of a pattern that matches nowhere is [null], whatever
    [lastIndex] is, and puts a global pattern's [lastIndex] to 0. *)
Lemma exec_no_match lastIndex :
  (∀ k, k ≤ length str -> ∀ z, matchAt R str k ≠ Matched z) ->
  regExpBuiltinExec R lastIndex str = (None, if global R then 0 else lastIndex).
Proof.
  intros Hno. unfold regExpBuiltinExec.
  destruct (length str <? _) eqn:E; [reflexivity|].
  apply Nat.ltb_ge in E.
  rewrite (proj2 (scanFrom_None _ _)); [reflexivity|].
  intros k Hk. apply Hno. lia.
Qed.

(** [exec] from [lastIndex = 0] answers the leftmost match. *)
Lemma exec_first_match i y :
  i ≤ length str ->
  matchAt R str i = Matched y ->
  (∀ k, k < i -> ∀ z, matchAt R str k ≠ Matched z) ->
  regExpBuiltinExec R 0 str
  = (Some (toResult str i y), if global R then endIndex y else 0).
Proof.
  intros Hi Hm Hmin. unfold regExpBuiltinExec.
  assert ((if global R then 0 else 0) = 0) as -> by (destruct (global R); reflexivity).
  simpl. rewrite Nat.sub_0_r.
  destruct (scanFrom R str (length str) 0) as [[j z]|] eqn:E.
  - apply scanFrom_Some in E as (Hj & Hz & Hzmin).
    destruct (lt_eq_lt_dec i j) as [[Hlt | ->] | Hgt].
    + exfalso. eapply (Hzmin i); [lia | exact Hm].
    + rewrite Hm in Hz. injection Hz as <-. reflexivity.
    + exfalso. eapply (Hmin j); [lia | exact Hz].
  - exfalso. eapply (proj1 (scanFrom_None _ _) E i); [lia | exact Hm].
Qed.

(** Where the pattern matches somewhere, it has a leftmost match. *)
Lemma leftmost_match h y0 :
  h ≤ length str ->
  matchAt R str h = Matched y0 ->
  ∃ i y, i ≤ h ∧ matchAt R str i = Matched y
         ∧ ∀ k, k < i -> ∀ z, matchAt R str k ≠ Matched z.
Proof.
  intros Hh Hm.
  destruct (scanFrom R str (length str) 0) as [[i y]|] eqn:E.
  - apply scanFrom_Some in E as (Hi & Hy & Hleft).
    exists i, y. split; [|split; [exact Hy|]].
    + destruct (le_lt_dec i h) as [Hle | Hlt]; [exact Hle|].
      exfalso. eapply (Hleft h); [lia | exact Hm].
    + intros k Hk. apply Hleft. lia.
  - exfalso. eapply (proj1 (scanFrom_None _ _) E h); [lia | exact Hm].
Qed.

Lemma substring_nil i j :
  i ≤ j ≤ length str -> substring str i j = [] -> j = i.
Proof.
  intros Hij E. apply (f_equal length) in E.
  unfold substring in E. rewrite length_take, length_drop in E. simpl in E. lia.
Qed.

(** With enough fuel the loop of [match] leaves [lastIndex] at 0. *)
Lemma matchLoop_final fuel lastIndex :
  global R = true ->
  length str + 1 - lastIndex < fuel ->
  (matchLoop R str fuel lastIndex).2 = 0.
Proof.
  intros Hg. revert lastIndex.
  induction fuel as [|fuel IH]; intros lastIndex Hfuel; [lia|].
  simpl. unfold regExpBuiltinExec. rewrite Hg.
  destruct (length str <? lastIndex) eqn:E; [reflexivity|].
  apply Nat.ltb_ge in E.
  destruct (scanFrom R str (length str - lastIndex) lastIndex) as [[j y]|] eqn:Es;
    [|reflexivity].
  apply scanFrom_Some in Es as (Hj & Hm & _).
  apply matchAt_range in Hm as Hy; [|lia].
  set (li' := if bool_decide _ then _ else _).
  assert (lastIndex < li') as Hli.
  { subst li'. case_bool_decide as Hnil; simpl in *.
    - apply substring_nil in Hnil; lia.
    - assert (endIndex y ≠ j); [|lia].
      intros Heq. apply Hnil. rewrite Heq. unfold substring.
      rewrite Nat.sub_diag. reflexivity. }
  specialize (IH li' ltac:(lia)).
  destruct (matchLoop R str fuel li') as [rest final]. exact IH.
Qed.

(** For a global pattern [str.match(R)] does not depend on [R.lastIndex],
    leaves it at 0, and begins with the match [exec] finds from 0. *)
Lemma stringMatch_global lastIndex :
  global R = true ->
  stringMatch str R lastIndex = stringMatch str R 0
  ∧ (stringMatch str R lastIndex).2 = 0
  ∧ firstMatch (stringMatch str R lastIndex).1
    = matched <$> (regExpBuiltinExec R 0 str).1.
Proof.
  intros Hg. unfold stringMatch. rewrite Hg. split; [reflexivity|]. split.
  - pose proof (matchLoop_final (2 + length str) 0 Hg ltac:(lia)) as Hf.
    destruct (matchLoop R str (2 + length str) 0) as [[|a A] li]; exact Hf.
  - change (2 + length str) with (S (1 + length str)).
    generalize (1 + length str). intros fuel. simpl.
    destruct (regExpBuiltinExec R 0 str) as [[m|] li]; [|reflexivity].
    destruct (matchLoop R str fuel _) as [rest final]. reflexivity.
Qed.

Lemma stringMatch_nonglobal lastIndex :
  global R = false ->
  stringMatch str R lastIndex
  = ((fun m => [matched m]) <$> (regExpBuiltinExec R 0 str).1, lastIndex).
Proof.
  intros Hg. unfold stringMatch, regExpBuiltinExec. rewrite Hg. simpl.
  destruct (scanFrom R str _ 0) as [[i y]|]; reflexivity.
Qed.
End ExecFacts.

(** ** The handler's answers *)

Ltac run_handler :=
  unfold handler, extractFromPDF, extractFromDocx, tryCatch, liftResult, throw,
    logCall, writeFileSync, unlinkSync, readFile, mbind, M_bind, mret, M_ret;
  simpl.

Section HandlerFacts.
Context `{Runtime}.

(** The extractors touch neither the file system nor the decoders. *)
Lemma extractAll_frame text w :
  files (extractAll text w).2 = files w ∧ calls (extractAll text w).2 = calls w.
Proof.
  unfold extractAll, liftResult, extractSalary, mbind, M_bind, mret, M_ret.
  destruct (extractFullName text) as [[fn ln]| |]; simpl; [|done..].
  destruct (extractLanguages text) as [ls| |]; simpl; [|done..].
  destruct (regExpBuiltinExec salaryRegex (salaryLastIndex w) text) as [[m|] li];
    simpl; [|done].
  destruct (truthy _); done.
Qed.
End HandlerFacts.

(** C4. A request whose declared type is neither [application/pdf] nor the
    DOCX type gets the envelope [{statusCode: 400, message: "Unsupported file
    type"}], and the world is left as it was: no decoder is called. *)
Theorem unsupported_type_400 `{Runtime} (event : Event) (cv : UploadCv)
    (b : jsstring) (fileType : option jsstring) (w : World) :
  uploadCv event = Some cv ->
  body cv = Some b ->
  declaredType cv event = Return fileType ->
  fileType ≠ Some pdfType ->
  fileType ≠ Some docxType ->
  handler event w = (Return envelope400, w)
  ∧ calls (handler event w).2 = calls w.
Proof.
  intros Hcv Hb Hty Hpdf Hdocx.
  assert (handler event w = (Return envelope400, w)) as E.
  { run_handler. rewrite Hcv. simpl. rewrite Hb. simpl. rewrite Hty.
    rewrite !bool_decide_eq_false_2 by assumption. reflexivity. }
  rewrite E. split; reflexivity.
Qed.

Lemma unsupported_type_400_witness :
  @handler (Demo.runtime (inr (js "text")) [] []) (Demo.event (js "text/plain")) Demo.world
  = (Return envelope400, Demo.world)
  ∧ calls (@handler (Demo.runtime (inr (js "text")) [] [])
             (Demo.event (js "text/plain")) Demo.world).2 = calls Demo.world.
Proof.
  apply (@unsupported_type_400 (Demo.runtime (inr (js "text")) [] [])
           (Demo.event (js "text/plain"))
           (mkUploadCv (Some (js "JVBERi0=")) (Some (js "text/plain")))
           (js "JVBERi0=") (Some (js "text/plain")) Demo.world).
  - reflexivity.
  - reflexivity.
  - reflexivity.
  - vm_compute. discriminate.
  - vm_compute. discriminate.
Defined.

(** C5. When the decoder of a supported type fails, the handler answers
    [{statusCode: 500, message: "Error parsing resume", error: ...}], where
    [error] is the decoder's message behind "Failed to parse PDF: " or
    "Failed to parse DOCX: "; the envelope carries no data. *)
Theorem decode_failure_500 `{Runtime} (event : Event) (cv : UploadCv)
    (b cause : jsstring) (w : World) :
  uploadCv event = Some cv ->
  body cv = Some b ->
  (declaredType cv event = Return (Some pdfType) ->
   pdfParse (bufferFromBase64 b) = inl cause ->
   (handler event w).1 = Return (envelope500 (js "Failed to parse PDF: " ++ cause)))
  ∧ (declaredType cv event = Return (Some docxType) ->
     parseDocx (Some (bufferFromBase64 b)) = inl cause ->
     (handler event w).1 = Return (envelope500 (js "Failed to parse DOCX: " ++ cause))).
Proof.
  intros Hcv Hb. split; intros Hty Hdec.
  - run_handler. rewrite Hcv. simpl. rewrite Hb. simpl. rewrite Hty.
    rewrite bool_decide_eq_true_2 by reflexivity. rewrite Hdec. reflexivity.
  - run_handler. rewrite Hcv. simpl. rewrite Hb. simpl. rewrite Hty.
    rewrite bool_decide_eq_false_2 by (vm_compute; discriminate).
    rewrite bool_decide_eq_true_2 by reflexivity.
    rewrite lookup_insert_eq. rewrite Hdec. reflexivity.
Qed.

Lemma decode_failure_500_witness :
  (@handler (Demo.runtime (inl (js "bad XRef entry")) [] [])
     (Demo.event pdfType) Demo.world).1
  = Return (envelope500 (js "Failed to parse PDF: bad XRef entry"))
  ∧ (@handler (Demo.runtime (inl (js "bad zip")) [] [])
       (Demo.event docxType) Demo.world).1
    = Return (envelope500 (js "Failed to parse DOCX: bad zip")).
Proof.
  split.
  - apply (@decode_failure_500 (Demo.runtime (inl (js "bad XRef entry")) [] [])
             (Demo.event pdfType) (mkUploadCv (Some (js "JVBERi0=")) (Some pdfType))
             (js "JVBERi0=") (js "bad XRef entry") Demo.world);
      reflexivity.
  - apply (@decode_failure_500 (Demo.runtime (inl (js "bad zip")) [] [])
             (Demo.event docxType) (mkUploadCv (Some (js "JVBERi0=")) (Some docxType))
             (js "JVBERi0=") (js "bad zip") Demo.world);
      reflexivity.
Defined.

(** C10. An event without [uploadCv], and an event whose [uploadCv] has no
    [format] while the event has no [headers], make the handler throw before
    its [try]: the promise rejects, no envelope is returned, and the world is
    untouched. *)
Theorem handler_rejects_outside_try `{Runtime} (event : Event) (w : World) :
  (uploadCv event = None
   ∨ ∃ cv, uploadCv event = Some cv ∧ format cv = None ∧ headers event = None) ->
  ∃ e, handler event w = (Throw e, w).
Proof.
  intros [Hcv | (cv & Hcv & Hformat & Hheaders)]; run_handler; rewrite Hcv; simpl.
  - eauto.
  - destruct (body cv) as [b|]; simpl; [|eauto].
    unfold declaredType. rewrite Hformat, Hheaders. eauto.
Qed.

Lemma handler_rejects_outside_try_witness :
  (∃ e, @handler (Demo.runtime (inr []) [] []) (mkEvent None None) Demo.world
        = (Throw e, Demo.world))
  ∧ (∃ e, @handler (Demo.runtime (inr []) [] [])
            (mkEvent (Some (mkUploadCv (Some (js "JVBERi0=")) None)) None) Demo.world
          = (Throw e, Demo.world)).
Proof.
  split.
  - apply (@handler_rejects_outside_try (Demo.runtime (inr []) [] [])
             (mkEvent None None) Demo.world).
    left. reflexivity.
  - apply (@handler_rejects_outside_try (Demo.runtime (inr []) [] [])
             (mkEvent (Some (mkUploadCv (Some (js "JVBERi0=")) None)) None) Demo.world).
    right. eexists. repeat split.
Defined.

(** C1 (what the code does). When the recognizer finds no person,
    [extractFullName] throws a TypeError ([people[0]] is [undefined] and has
    no [split]); the handler catches it and answers the 500 envelope, with no
    field computed.  This holds for a decoded PDF and for a decoded DOCX. *)
Theorem no_person_throws `{Runtime} (event : Event) (cv : UploadCv)
    (b text : jsstring) (w : World) :
  uploadCv event = Some cv ->
  body cv = Some b ->
  (declaredType cv event = Return (Some pdfType)
   ∧ pdfParse (bufferFromBase64 b) = inr text)
  ∨ (declaredType cv event = Return (Some docxType)
     ∧ parseDocx (Some (bufferFromBase64 b)) = inr text) ->
  people text = [] ->
  extractFullName text = Throw (TypeError splitMessage)
  ∧ (handler event w).1 = Return (envelope500 splitMessage).
Proof.
  intros Hcv Hb Hdecoded Hpeople.
  assert (extractFullName text = Throw (TypeError splitMessage)) as E.
  { unfold extractFullName. rewrite Hpeople. reflexivity. }
  split; [exact E|].
  run_handler. rewrite Hcv. simpl. rewrite Hb. simpl.
  destruct Hdecoded as [[Hty Hdec] | [Hty Hdec]]; rewrite Hty.
  - rewrite bool_decide_eq_true_2 by reflexivity. rewrite Hdec.
    unfold extractAll, liftResult, mbind, M_bind. rewrite E. reflexivity.
  - rewrite bool_decide_eq_false_2 by (vm_compute; discriminate).
    rewrite bool_decide_eq_true_2 by reflexivity.
    rewrite lookup_insert_eq. rewrite Hdec.
    unfold extractAll, liftResult, mbind, M_bind. rewrite E. reflexivity.
Qed.

Lemma no_person_throws_witness :
  @extractFullName (Demo.runtime (inr (js "jane@example.com")) [] [])
    (js "jane@example.com") = Throw (TypeError splitMessage)
  ∧ (@handler (Demo.runtime (inr (js "jane@example.com")) [] [])
       (Demo.event pdfType) Demo.world).1 = Return (envelope500 splitMessage).
Proof.
  apply (@no_person_throws (Demo.runtime (inr (js "jane@example.com")) [] [])
           (Demo.event pdfType) (mkUploadCv (Some (js "JVBERi0=")) (Some pdfType))
           (js "JVBERi0=") (js "jane@example.com") Demo.world);
    [reflexivity | reflexivity | left; split; reflexivity | reflexivity].
Defined.

(** C3 (what the code does). The DOCX decoder's temporary file is removed
    when decoding succeeds, and is still there, holding the upload, when
    decoding fails: the callback rejects before it reaches [unlinkSync]. *)
Theorem docx_temp_file `{Runtime} (event : Event) (cv : UploadCv)
    (b : jsstring) (w : World) :
  uploadCv event = Some cv ->
  body cv = Some b ->
  declaredType cv event = Return (Some docxType) ->
  (∀ data, parseDocx (Some (bufferFromBase64 b)) = inr data ->
     files (handler event w).2 !! tempFilePath = None)
  ∧ (∀ cause, parseDocx (Some (bufferFromBase64 b)) = inl cause ->
       files (handler event w).2 !! tempFilePath = Some (bufferFromBase64 b)).
Proof.
  intros Hcv Hb Hty. split.
  - intros data Hdec.
    run_handler. rewrite Hcv. simpl. rewrite Hb. simpl. rewrite Hty.
    rewrite bool_decide_eq_false_2 by (vm_compute; discriminate).
    rewrite bool_decide_eq_true_2 by reflexivity.
    rewrite lookup_insert_eq. rewrite Hdec.
    match goal with
    | |- context [extractAll data ?w0] =>
        pose proof (extractAll_frame data w0) as [Hf _];
        destruct (extractAll data w0) as [[env|e|] w1]; simpl in *;
        rewrite Hf; apply lookup_delete_eq
    end.
  - intros cause Hdec.
    run_handler. rewrite Hcv. simpl. rewrite Hb. simpl. rewrite Hty.
    rewrite bool_decide_eq_false_2 by (vm_compute; discriminate).
    rewrite bool_decide_eq_true_2 by reflexivity.
    rewrite lookup_insert_eq. rewrite Hdec. simpl. apply lookup_insert_eq.
Qed.

Lemma docx_temp_file_witness :
  files (@handler (Demo.runtime (inl (js "bad zip")) [] [])
           (Demo.event docxType) Demo.world).2 !! tempFilePath = Some [].
Proof.
  apply (proj2 (@docx_temp_file (Demo.runtime (inl (js "bad zip")) [] [])
                  (Demo.event docxType)
                  (mkUploadCv (Some (js "JVBERi0=")) (Some docxType))
                  (js "JVBERi0=") Demo.world eq_refl eq_refl eq_refl)
           (js "bad zip")).
  reflexivity.
Defined.

(** ** The salary pattern *)

Ltac n_cases :=
  cbn [existsb atomHas andb orb xorb negb];
  unfold isWordChar, isDigit, inRange;
  repeat (match goal with
          | |- context [(?a <=? ?b)%N] => destruct (N.leb_spec a b); try lia
          end;
          cbn [andb orb xorb negb]);
  repeat (match goal with
          | |- context [(?a =? ?b)%N] => destruct (N.eqb_spec a b); try lia
          end;
          cbn [andb orb xorb negb]);
  try reflexivity; try congruence; try lia.

Lemma currencyClass_matches a :
  charSetMatches true false [cc "$"; CChar euro; CChar pound] a = isCurrencySymbol a.
Proof.
  unfold charSetMatches, classHas, isCurrencySymbol, asciiUpper, asciiLower,
    inRange, cc, isDigit, euro, pound.
  change (ch "$") with 36%N.
  n_cases.
Qed.

Lemma blank_matches ic a :
  charSetMatches ic false [CChar (ch " ")] a = (a =? ch " ")%N.
Proof.
  unfold charSetMatches, classHas, asciiUpper, asciiLower, inRange.
  change (ch " ") with 32%N.
  destruct ic; n_cases.
Qed.

(** A pattern that begins with a class in a group matches only where a
    character of the class stands. *)
Lemma compile_starts_with_class input ic g inv atoms r k x y :
  compile input ic (Seq (Group g (CharSet inv atoms)) r) Forward k x = Matched y ->
  ∃ a, input !! endIndex x = Some a ∧ charSetMatches ic inv atoms a = true.
Proof.
  cbn [compile]. destruct (input !! endIndex x) as [a|]; [|discriminate].
  destruct (charSetMatches ic inv atoms a) eqn:E; [|discriminate]. eauto.
Qed.

Lemma salary_needs_symbol text i y :
  matchAt salaryRegex text i = Matched y ->
  ∃ a, text !! i = Some a ∧ isCurrencySymbol a = true.
Proof.
  intros E. apply compile_starts_with_class in E as (a & Ha & Hc).
  rewrite currencyClass_matches in Hc. eauto.
Qed.

(** Skipping the first part of a sequence: what follows matched somewhere
    further on. *)
Lemma seq_skip_matched input ic r1 r2 k x y (P : Prop) :
  endIndex x ≤ length input ->
  (∀ x', endIndex x ≤ endIndex x' ≤ length input ->
         compile input ic r2 Forward k x' = Matched y -> P) ->
  compile input ic (Seq r1 r2) Forward k x = Matched y -> P.
Proof.
  intros Hx Hrest. cbn [compile].
  apply (compile_progressive input ic r1 Forward (fun o => o = Matched y -> P));
    [discriminate | exact Hx | exact Hrest].
Qed.

(** A sequence that begins with one or more characters of a class, in a group. *)
Lemma compile_starts_with_repeated_class input ic g min max inv atoms r k x y :
  min ≠ 0 -> max ≠ Some 0 ->
  compile input ic (Seq (Group g (Quant min max (CharSet inv atoms))) r) Forward k x
  = Matched y ->
  ∃ a, input !! endIndex x = Some a ∧ charSetMatches ic inv atoms a = true.
Proof.
  intros Hmin Hmax. cbn [compile].
  change (1 + min + length input) with (S (min + length input)).
  cbn [repeatMatcher]. rewrite bool_decide_eq_false_2 by exact Hmax.
  destruct min as [|min']; [done|]. cbn [Nat.eqb compile clearCaptures groupsOf foldr endIndex].
  destruct (input !! endIndex x) as [a|]; [|discriminate].
  destruct (charSetMatches ic inv atoms a) eqn:E; [|discriminate]. eauto.
Qed.

(** A match of the salary pattern needs a blank (after the amount). *)
Lemma salary_needs_blank text i y :
  i ≤ length text ->
  matchAt salaryRegex text i = Matched y ->
  ∃ j, text !! j = Some (ch " ").
Proof.
  intros Hi. unfold matchAt.
  apply seq_skip_matched; [exact Hi|]. intros x1 H1.
  apply seq_skip_matched; [lia|]. intros x2 H2.
  apply seq_skip_matched; [lia|]. intros x3 H3 E.
  apply compile_starts_with_repeated_class in E as (a & Ha & Hc); [|done..].
  rewrite blank_matches in Hc. apply N.eqb_eq in Hc as ->. eauto.
Qed.

(** [exec] of the salary pattern is [null] on a text without currency symbol
    and on a text without blank, whatever [lastIndex] is. *)
Lemma extractSalary_null text w :
  (∀ a, a ∈ text -> isCurrencySymbol a = false) ∨ ch " " ∉ text ->
  extractSalary text w = (Return None, mkWorld (files w) 0 (calls w)).
Proof.
  intros Hno. unfold extractSalary.
  rewrite exec_no_match; [reflexivity|].
  intros k Hk z E. destruct Hno as [Hsym | Hblank].
  - apply salary_needs_symbol in E as (a & Ha & Hc).
    rewrite (Hsym a) in Hc; [discriminate|]. eapply list_elem_of_lookup_2, Ha.
  - apply salary_needs_blank in E as (j & Hj); [|exact Hk].
    apply Hblank. eapply list_elem_of_lookup_2, Hj.
Qed.

(** [exec] looks at the text from [lastIndex] on only: after a call that
    matched, a second call on the same text does not see that match again. *)
Lemma extractSalary_from_lastIndex text w :
  (∀ k a, salaryLastIndex w ≤ k -> text !! k = Some a -> isCurrencySymbol a = false) ->
  extractSalary text w = (Return None, mkWorld (files w) 0 (calls w)).
Proof.
  intros Hno. unfold extractSalary, regExpBuiltinExec.
  change (global salaryRegex) with true. cbn iota.
  destruct (length text <? salaryLastIndex w) eqn:E; [reflexivity|].
  apply Nat.ltb_ge in E.
  rewrite (proj2 (scanFrom_None _ _ _ _)); [reflexivity|].
  intros k Hk z Hz. apply salary_needs_symbol in Hz as (a & Ha & Hc).
  rewrite (Hno k a) in Hc; [discriminate | lia | exact Ha].
Qed.

(** C6 as stated fails on its second example: "£1200.50" alone, with nothing
    after the amount, gives [null]. *)
Lemma extractSalary_pound_alone :
  (extractSalary (pound :: js "1200.50") Demo.world).1 = Return None.
Proof. vm_compute. reflexivity. Qed.

(** C2 (what the code does). [extractSalary] keeps state: after a call that
    found a salary, a second call on the same text searches from
    [salaryRegex.lastIndex] on and, with no currency symbol left there,
    answers [null].  So two runs of the handler on the same upload, one after
    the other, differ: the first finds the salary and leaves [lastIndex] at
    17, the end of the match; the second answers [desiredSalary: null]. *)
Theorem handler_twice_differs :
  (∀ text w salary w1,
     extractSalary text w = (Return (Some salary), w1) ->
     (∀ k a, salaryLastIndex w1 ≤ k -> text !! k = Some a -> isCurrencySymbol a = false) ->
     extractSalary text w1 = (Return None, mkWorld (files w1) 0 (calls w1)))
  ∧ let rt := Demo.runtime (inr (js "$50,000  per year")) [js "John Doe"] [] in
    let first := @handler rt (Demo.event pdfType) Demo.world in
    let second := @handler rt (Demo.event pdfType) first.2 in
    salaryOf first.1 = Some (Some (mkSalary (Double 50000) (js "USD")))
    ∧ salaryLastIndex first.2 = 17
    ∧ salaryOf second.1 = Some None
    ∧ salaryLastIndex second.2 = 0.
Proof.
  split.
  - intros text w salary w1 _ Hno. apply extractSalary_from_lastIndex, Hno.
  - vm_compute. repeat split; reflexivity.
Qed.

(** ** The country extractor *)

(** The head of a filtered list is the first element that passes. *)
Lemma filter_head {A} (P : A -> Prop) `{∀ x, Decision (P x)} (l : list A) (x : A) :
  (∃ rest, filter P l = x :: rest) <->
  ∃ before after, l = before ++ x :: after ∧ P x ∧ ∀ y, y ∈ before -> ¬ P y.
Proof.
  induction l as [|a l IH].
  - split.
    + intros (rest & Hf). discriminate.
    + intros ([|b before] & after & E & _); discriminate.
  - rewrite filter_cons. destruct (decide (P a)) as [Ha | Ha].
    + split.
      * intros (rest & [= -> <-]). exists [], l. split; [reflexivity|].
        split; [exact Ha|]. intros y Hy. inversion Hy.
      * intros ([|b before] & after & E & Hx & Hbefore).
        -- injection E as -> ->. eauto.
        -- injection E as -> ->. exfalso. apply (Hbefore b); [left | exact Ha].
    + rewrite IH. split.
      * intros (before & after & -> & Hx & Hbefore).
        exists (a :: before), after. split; [reflexivity|]. split; [exact Hx|].
        intros y Hy. apply elem_of_cons in Hy as [-> | Hy]; [exact Ha | auto].
      * intros ([|b before] & after & E & Hx & Hbefore).
        -- injection E as -> ->. contradiction.
        -- injection E as -> ->. exists before, after. split; [reflexivity|].
           split; [exact Hx|]. intros y Hy. apply Hbefore. right. exact Hy.
Qed.

Lemma filter_none {A} (P : A -> Prop) `{∀ x, Decision (P x)} (l : list A) :
  filter P l = [] <-> ∀ y, y ∈ l -> ¬ P y.
Proof.
  split.
  - intros Hf y Hy Hp. eapply filter_nil_not_elem_of; eauto.
  - intros Hno. induction l as [|a l IH]; [reflexivity|].
    rewrite filter_cons_False; [|apply Hno; left].
    apply IH. intros y Hy. apply Hno. right. exact Hy.
Qed.

(** ** The languages extractor *)

Lemma literal_matches a b :
  charSetMatches true false [CChar a] b = sameLetter a b.
Proof.
  unfold charSetMatches, classHas, sameLetter, asciiUpper, asciiLower, inRange.
  n_cases.
Qed.

Lemma sameLetter_word a b :
  sameLetter a b = true -> isWordChar a = true -> isWordChar b = true.
Proof.
  unfold sameLetter, isWordChar, isDigit, asciiUpper, inRange.
  n_cases.
Qed.

Lemma parsePattern_literal name rest r :
  forallb (fun a => (a <? 128)%N && negb (isSyntaxChar a)) name = true ->
  parsePattern rest = Some r ->
  parsePattern (name ++ rest) = Some (literal name r).
Proof.
  intros Hplain Hrest. induction name as [|a name IH]; [exact Hrest|].
  simpl in Hplain. apply andb_true_iff in Hplain as [Ha Hname].
  apply andb_true_iff in Ha as [Hascii Ha].
  apply negb_true_iff in Ha. apply N.ltb_lt in Hascii.
  cbn [app parsePattern]. rewrite Ha.
  replace (128 <=? a)%N with false by (symmetry; apply N.leb_gt; exact Hascii).
  cbn [orb].
  destruct (N.eqb_spec a (ch "\")) as [->|_]; [vm_compute in Ha; discriminate|].
  rewrite (IH Hname). reflexivity.
Qed.

Lemma parsePattern_word_pattern name :
  forallb (fun a => (a <? 128)%N && negb (isSyntaxChar a)) name = true ->
  parsePattern (js "\b" ++ name ++ js "\b")
  = Some (Seq WordBoundary (literal name (Seq WordBoundary Empty))).
Proof.
  intros Hplain.
  change (js "\b" ++ name ++ js "\b") with (ch "\" :: ch "b" :: (name ++ js "\b")).
  cbn [parsePattern]. rewrite !N.eqb_refl.
  rewrite (parsePattern_literal name (js "\b") (Seq WordBoundary Empty) Hplain);
    reflexivity.
Qed.

Lemma compile_literal text name r k e caps :
  compile text true (literal name r) Forward k (mkState e caps)
  = if startsWith name (drop e text)
    then compile text true r Forward k (mkState (e + length name) caps)
    else Failure.
Proof.
  revert e. induction name as [|a name IH]; intros e.
  - simpl. rewrite Nat.add_0_r. reflexivity.
  - cbn [literal foldr compile chr endIndex captures].
    fold (literal name r).
    destruct (text !! e) as [b|] eqn:E.
    + rewrite (drop_S _ _ _ E). cbn [startsWith]. rewrite literal_matches.
      destruct (sameLetter a b); [|reflexivity].
      rewrite IH. cbn [andb length]. rewrite Nat.add_succ_r. reflexivity.
    + rewrite drop_ge by (apply lookup_ge_None; exact E). reflexivity.
Qed.

Lemma startsWith_lookup name text j a :
  startsWith name text = true -> name !! j = Some a ->
  ∃ b, text !! j = Some b ∧ sameLetter a b = true.
Proof.
  revert text j. induction name as [|a' name IH]; intros text j Hs Hj; [done|].
  destruct text as [|b text]; [discriminate|].
  simpl in Hs. apply andb_true_iff in Hs as [Hab Hs].
  destruct j as [|j]; simpl in Hj.
  - injection Hj as ->. exists b. split; [reflexivity | exact Hab].
  - apply (IH text j Hs Hj).
Qed.

(** Where the pattern [\bname\b] matches: at the whole-word occurrences. *)
Lemma word_pattern_matchAt name text i :
  plainName name = true ->
  isMatched (matchAt
               (mkRegExp (Seq WordBoundary (literal name (Seq WordBoundary Empty)))
                  0 [] false true) text i)
  = wholeWordAt name text i.
Proof.
  intros Hplain. unfold plainName in Hplain.
  apply andb_true_iff in Hplain as [Hplain Hlast].
  apply andb_true_iff in Hplain as [_ Hhead].
  unfold matchAt, wholeWordAt.
  cbn [pattern ignoreCaseFlag nGroups replicate compile endIndex].
  destruct (startsWith name (drop i text)) eqn:Es.
  2:{ destruct (isWordBoundary text i); [|reflexivity].
      rewrite compile_literal, Es. reflexivity. }
  assert (Hat : isWordCharAt text i = true).
  { destruct (head name) as [a|] eqn:Ea; [|discriminate].
    rewrite head_lookup in Ea.
    destruct (startsWith_lookup _ _ _ _ Es Ea) as (b & Hb & Hab).
    rewrite lookup_drop, Nat.add_0_r in Hb. unfold isWordCharAt. rewrite Hb.
    eapply sameLetter_word; eauto. }
  assert (Hlen : ∃ n, length name = S n ∧ isWordCharAt text (i + n) = true).
  { destruct (last name) as [a|] eqn:Ea; [|discriminate].
    rewrite last_lookup in Ea. destruct name as [|a0 name]; [discriminate|].
    exists (length name). split; [reflexivity|].
    simpl in Ea.
    destruct (startsWith_lookup _ _ _ _ Es Ea) as (b & Hb & Hab).
    rewrite lookup_drop in Hb. unfold isWordCharAt. rewrite Hb.
    eapply sameLetter_word; eauto. }
  destruct Hlen as (n & Hn & Hend).
  unfold isWordBoundary at 1. rewrite Hat.
  destruct (match i with 0 => false | S p => isWordCharAt text p end);
    cbn [xorb negb andb]; [reflexivity|].
  rewrite compile_literal, Es. cbn [compile endIndex].
  unfold isWordBoundary. rewrite Hn, Nat.add_succ_r, Hend.
  destruct (isWordCharAt text (S (i + n))); reflexivity.
Qed.

Lemma scanFrom_existsb R str n i :
  bool_decide (is_Some (scanFrom R str n i))
  = existsb (fun k => isMatched (matchAt R str k)) (seq i (S n)).
Proof.
  revert i. induction n as [|n IH]; intros i.
  - simpl. destruct (matchAt R str i); reflexivity.
  - cbn [scanFrom]. change (seq i (S (S n))) with (i :: seq (S i) (S n)).
    cbn [existsb]. rewrite <- IH.
    destruct (matchAt R str i); reflexivity.
Qed.

Lemma existsb_pointwise {A} (f g : A -> bool) (l : list A) :
  (∀ x, f x = g x) -> existsb f l = existsb g l.
Proof.
  intros Hfg. induction l as [|x l IH]; [reflexivity|].
  simpl. rewrite Hfg, IH. reflexivity.
Qed.

Lemma languageTest_spec `{Runtime} text language :
  plainName (trim (languageName language)) = true ->
  languageTest text language
  = Some (occursAsWord (trim (languageName language)) text).
Proof.
  intros Hplain. unfold languageTest.
  rewrite parsePattern_word_pattern.
  2:{ unfold plainName in Hplain.
      apply andb_true_iff in Hplain as [Hplain _].
      apply andb_true_iff in Hplain as [Hplain _]. exact Hplain. }
  cbn [fmap option_fmap option_map]. f_equal.
  unfold regExpTest, regExpBuiltinExec. cbn [global Nat.ltb Nat.leb].
  rewrite Nat.sub_0_r. unfold occursAsWord.
  rewrite <- (existsb_pointwise _ _ _ (fun k => word_pattern_matchAt _ text k Hplain)).
  rewrite <- scanFrom_existsb.
  destruct (scanFrom _ text (length text) 0) as [[j y]|]; reflexivity.
Qed.

Lemma filterLanguages_spec `{Runtime} text (reference : list Language) :
  Forall (fun l => plainName (trim (languageName l)) = true) reference ->
  filterLanguages text reference
  = Some (filter (fun l => occursAsWord (trim (languageName l)) text = true) reference).
Proof.
  induction 1 as [|l ls Hl _ IH]; [reflexivity|].
  cbn [filterLanguages]. rewrite (languageTest_spec text l Hl), IH.
  rewrite filter_cons.
  destruct (occursAsWord (trim (languageName l)) text); reflexivity.
Qed.









(** ** The telegram extractor *)


Lemma class_inv input ic inv atoms r k x y :
  compile input ic (Seq (CharSet inv atoms) r) Forward k x = Matched y ->
  ∃ a, input !! endIndex x = Some a
       ∧ charSetMatches ic inv atoms a = true
       ∧ compile input ic r Forward k (mkState (S (endIndex x)) (captures x)) = Matched y.
Proof.
  cbn [compile]. destruct (input !! endIndex x) as [a|]; [|discriminate].
  destruct (charSetMatches ic inv atoms a) eqn:Ec; [|discriminate]. eauto.
Qed.

Lemma repeat_class_inv input ic inv atoms (m : Cont -> MatchState -> Outcome) :
  (∀ c x, m c x = compile input ic (CharSet inv atoms) Forward c x) ->
  ∀ fuel min k e caps y,
    repeatMatcher m [] fuel min None k (mkState e caps) = Matched y ->
    ∃ n, min ≤ n
         ∧ (∀ j, j < n -> ∃ a, input !! (e + j) = Some a
                              ∧ charSetMatches ic inv atoms a = true)
         ∧ k (mkState (e + n) caps) = Matched y.
Proof.
  intros Hm fuel. induction fuel as [|fuel IH]; intros min k e caps y; [discriminate|].
  cbn [repeatMatcher]. rewrite bool_decide_eq_false_2 by discriminate.
  rewrite Hm.
  cbn [compile clearCaptures foldr endIndex captures fmap option_fmap option_map].
  replace (S e =? e) with false by (symmetry; apply Nat.eqb_neq; lia).
  rewrite andb_false_r.
  assert (Hzero : k (mkState e caps) = Matched y ->
            ∃ n, 0 ≤ n
                 ∧ (∀ j, j < n -> ∃ a, input !! (e + j) = Some a
                                      ∧ charSetMatches ic inv atoms a = true)
                 ∧ k (mkState (e + n) caps) = Matched y).
  { intros E. exists 0. split; [lia|]. split; [intros; lia|].
    rewrite Nat.add_0_r. exact E. }
  assert (Hstep : ∀ min' a,
            input !! e = Some a -> charSetMatches ic inv atoms a = true ->
            repeatMatcher m [] fuel min' None k (mkState (S e) caps) = Matched y ->
            ∃ n, S min' ≤ n
                 ∧ (∀ j, j < n -> ∃ a, input !! (e + j) = Some a
                                      ∧ charSetMatches ic inv atoms a = true)
                 ∧ k (mkState (e + n) caps) = Matched y).
  { intros min' a Ha Hc E.
    apply IH in E as (n & Hn & Hall & Hk).
    exists (S n). split; [lia|]. split.
    - intros [|j] Hj.
      + rewrite Nat.add_0_r. eauto.
      + rewrite Nat.add_succ_r. apply Hall. lia.
    - rewrite Nat.add_succ_r. exact Hk. }
  destruct (input !! e) as [a|] eqn:Ea.
  2:{ destruct min; [exact Hzero | discriminate]. }
  destruct (charSetMatches ic inv atoms a) eqn:Ec.
  2:{ destruct min; [exact Hzero | discriminate]. }
  destruct min as [|min']; cbn [Nat.eqb Nat.pred].
  - destruct (repeatMatcher m [] fuel 0 None k (mkState (S e) caps)) as [z| |] eqn:Eo.
    + intros E. rewrite E in Eo.
      destruct (Hstep 0 a eq_refl Ec Eo) as (n & Hn & Hall & Hk).
      exists n. split; [lia|]. eauto.
    + exact Hzero.
    + discriminate.
  - intros E. apply (Hstep min' a eq_refl Ec E).
Qed.

Lemma plus_class_inv input ic inv atoms r k x y :
  compile input ic (Seq (plus (CharSet inv atoms)) r) Forward k x = Matched y ->
  ∃ n, 1 ≤ n
       ∧ (∀ j, j < n -> ∃ a, input !! (endIndex x + j) = Some a
                            ∧ charSetMatches ic inv atoms a = true)
       ∧ compile input ic r Forward k (mkState (endIndex x + n) (captures x)) = Matched y.
Proof.
  destruct x as [e caps]. unfold plus. cbn [compile groupsOf endIndex captures].
  apply (repeat_class_inv input ic inv atoms). reflexivity.
Qed.




Lemma symbol_matches (s a : N) :
  inRange 65 90 s = false -> inRange 97 122 s = false ->
  charSetMatches true false [CChar s] a = (a =? s)%N.
Proof.
  unfold charSetMatches, classHas, asciiUpper, asciiLower, inRange.
  n_cases.
Qed.

Lemma isWhiteSpace_letter a : inRange 65 122 a = true -> isWhiteSpace a = false.
Proof. unfold isWhiteSpace, inRange. n_cases. Qed.

Lemma not_space_matches a :
  charSetMatches true true [CSpace] a = negb (isWhiteSpace a).
Proof.
  unfold charSetMatches, classHas. cbn [existsb atomHas].
  rewrite !orb_false_r.
  destruct (isWhiteSpace a) eqn:Ea; [reflexivity|].
  assert (isWhiteSpace (asciiUpper a) = false) as ->.
  { unfold asciiUpper. destruct (inRange 97 122 a) eqn:E; [|exact Ea].
    apply isWhiteSpace_letter. revert E. unfold inRange. n_cases. }
  assert (isWhiteSpace (asciiLower a) = false) as ->.
  { unfold asciiLower. destruct (inRange 65 90 a) eqn:E; [|exact Ea].
    apply isWhiteSpace_letter. revert E. unfold inRange. n_cases. }
  reflexivity.
Qed.



Lemma group_disj_inv input ic g r1 r2 r k x y :
  compile input ic (Seq (Group g (Disj r1 r2)) r) Forward k x = Matched y ->
  compile input ic (Seq (Group g r1) r) Forward k x = Matched y
  ∨ compile input ic (Seq (Group g r2) r) Forward k x = Matched y.
Proof.
  cbn [compile].
  match goal with
  | |- match ?o with _ => _ end = _ -> _ => destruct o eqn:E
  end; intros E'; [left; congruence | right; exact E' | discriminate].
Qed.

Lemma group_literal_inv text name g r k e caps y :
  compile text true (Seq (Group g (literal name Empty)) r) Forward k (mkState e caps)
  = Matched y ->
  startsWith name (drop e text) = true
  ∧ compile text true r Forward k
      (setCapture g (e, e + length name) (mkState (e + length name) caps)) = Matched y.
Proof.
  cbn [compile]. rewrite compile_literal.
  destruct (startsWith name (drop e text)); [|discriminate].
  cbn [compile endIndex]. auto.
Qed.


(** *** Where the URL pattern does match *)

Lemma repeatMatcher_unfold m gs fuel min max k x :
  repeatMatcher m gs (S fuel) min max k x
  = if bool_decide (max = Some 0) then k x
    else
      let d : Cont := fun y =>
        if (min =? 0) && (endIndex y =? endIndex x) then Failure
        else repeatMatcher m gs fuel (pred min) (pred <$> max) k y in
      if min =? 0 then
        match m d (clearCaptures gs x) with
        | Failure => k x
        | z => z
        end
      else m d (clearCaptures gs x).
Proof. reflexivity. Qed.

(** A quantifier that may stop does not fail when what follows does not. *)
Lemma repeatMatcher_min0_total m gs fuel max k x :
  (∀ x', k x' ≠ Failure) ->
  repeatMatcher m gs (S fuel) 0 max k x ≠ Failure.
Proof.
  intros Hk. rewrite repeatMatcher_unfold. case_bool_decide; [apply Hk|].
  cbn [Nat.eqb]. cbv zeta.
  match goal with
  | |- match ?o with _ => _ end ≠ _ => destruct o eqn:E
  end; [discriminate | apply Hk | discriminate].
Qed.

Lemma plus_class_total input ic inv atoms e caps a :
  input !! e = Some a ->
  charSetMatches ic inv atoms a = true ->
  ∃ y, compile input ic (Seq (plus (CharSet inv atoms)) Empty) Forward Matched
         (mkState e caps) = Matched y.
Proof.
  intros Ha Hc.
  destruct (compile input ic (Seq (plus (CharSet inv atoms)) Empty) Forward Matched
              (mkState e caps)) as [y| |] eqn:E; [eauto | exfalso | exfalso].
  - revert E. unfold plus. cbn [compile groupsOf].
    change (1 + 1 + length input) with (S (S (length input))).
    rewrite repeatMatcher_unfold. rewrite bool_decide_eq_false_2 by discriminate.
    cbn [Nat.eqb clearCaptures foldr endIndex captures andb Nat.pred
           fmap option_fmap option_map].
    cbv zeta. rewrite Ha, Hc.
    replace (S e =? e) with false by (symmetry; apply Nat.eqb_neq; lia).
    apply repeatMatcher_min0_total. discriminate.
  - revert E. apply compile_fuel; [|discriminate].
    apply lookup_lt_Some in Ha. simpl. lia.
Qed.

Lemma startsWith_head_false name text a :
  head name = Some a ->
  (∀ b, head text = Some b -> sameLetter a b = false) ->
  startsWith name text = false.
Proof.
  destruct name as [|a' name]; [discriminate|]. intros [= ->] Hb.
  destruct text as [|b text]; [reflexivity|].
  simpl. rewrite (Hb b eq_refl). reflexivity.
Qed.

(** The optional scheme steps aside where the text does not begin with an
    [h]. *)
Lemma optional_scheme_skipped text r k e caps :
  (∀ b, text !! e = Some b -> sameLetter (ch "h") b = false) ->
  compile text true
    (Seq (opt (Group 1 (seqs [lit "http"; opt (one "s"); lit "://"]))) r)
    Forward k (mkState e caps)
  = compile text true r Forward k (mkState e caps).
Proof.
  intros Hh. unfold opt at 1. cbn [compile].
  change (1 + 0 + length text) with (S (length text)).
  rewrite repeatMatcher_unfold. rewrite bool_decide_eq_false_2 by discriminate.
  cbn [Nat.eqb]. cbv zeta.
  change (seqs [lit "http"; opt (one "s"); lit "://"])
    with (Seq (literal (js "http") Empty) (seqs [opt (one "s"); lit "://"])).
  cbn [compile]. unfold clearCaptures. cbn [endIndex captures].
  rewrite compile_literal.
  rewrite (startsWith_head_false (js "http") _ (ch "h")); [reflexivity..|].
  intros b Hb. apply Hh. rewrite head_lookup, lookup_drop, Nat.add_0_r in Hb.
  exact Hb.
Qed.

Lemma sameLetter_trans a b c :
  sameLetter a b = true -> sameLetter b c = true -> sameLetter a c = true.
Proof.
  unfold sameLetter. intros H1 H2. apply N.eqb_eq in H1, H2. apply N.eqb_eq. congruence.
Qed.

Lemma sameLetter_sym a b : sameLetter a b = sameLetter b a.
Proof. unfold sameLetter. apply N.eqb_sym. Qed.

Lemma group_literal_step text name g r k e caps :
  compile text true (Seq (Group g (literal name Empty)) r) Forward k (mkState e caps)
  = if startsWith name (drop e text)
    then compile text true r Forward k
           (setCapture g (e, e + length name) (mkState (e + length name) caps))
    else Failure.
Proof.
  cbn [compile]. rewrite compile_literal.
  destruct (startsWith name (drop e text)); reflexivity.
Qed.

Lemma group_disj_step input ic g r1 r2 r k x :
  compile input ic (Seq (Group g (Disj r1 r2)) r) Forward k x
  = match compile input ic (Seq (Group g r1) r) Forward k x with
    | Failure => compile input ic (Seq (Group g r2) r) Forward k x
    | z => z
    end.
Proof. reflexivity. Qed.





(** * Further properties of the handler and of the extractors *)

(** ** The handler as a whole *)

Lemma extractSalary_returns text w :
  ∃ salary, (extractSalary text w).1 = Return salary.
Proof.
  unfold extractSalary.
  destruct (regExpBuiltinExec salaryRegex (salaryLastIndex w) text) as [[m|] li];
    [|eauto].
  destruct (truthy _); eauto.
Qed.

Lemma extractLanguages_no_throw `{Runtime} text e : extractLanguages text ≠ Throw e.
Proof.
  unfold extractLanguages.
  destruct (filterLanguages text languages) as [[|l ls]|]; discriminate.
Qed.

Lemma extractFullName_cases `{Runtime} text :
  (people text = [] ∧ extractFullName text = Throw (TypeError splitMessage))
  ∨ (people text ≠ [] ∧ ∃ first last, extractFullName text = Return (first, last)).
Proof.
  unfold extractFullName. destruct (people text) as [|p ps].
  - left. split; reflexivity.
  - right. split; [discriminate|]. cbn [lookup list_lookup]. eauto.
Qed.

(** What [extractAll] can answer: the 200 envelope with its derived
    [fullName], the TypeError of [extractFullName], or nothing the model
    reads. *)
Lemma extractAll_cases `{Runtime} text w :
  (∃ first last found salary,
     extractFullName text = Return (first, last)
     ∧ extractLanguages text = Return found
     ∧ (extractSalary text w).1 = Return salary
     ∧ (extractAll text w).1
       = Return (mkEnvelope 200
                   (Some (mkInfo first last
                            (if truthy (Some first) && truthy last
                             then Some (first ++ js " " ++ default [] last) else None)
                            (extractEmail text) (extractPhoneNumber text)
                            (extractLinkedIn text) (extractCountry text) found
                            (extractWhatsApp text) (extractTelegram text) salary))
                   None None))
  ∨ (people text = [] ∧ (extractAll text w).1 = Throw (TypeError splitMessage))
  ∨ (people text ≠ [] ∧ filterLanguages text languages = None
     ∧ (extractAll text w).1 = OutsideModel).
Proof.
  unfold extractAll, liftResult, mbind, M_bind, mret, M_ret.
  destruct (extractFullName_cases text) as [[Hp ->] | (Hp & first & last & ->)].
  { right. left. split; [exact Hp | reflexivity]. }
  destruct (extractLanguages text) as [found| |] eqn:El.
  - left. destruct (extractSalary_returns text w) as (salary & Hs).
    destruct (extractSalary text w) as [r w'] eqn:Es. simpl in Hs. subst r.
    exists first, last, found, salary. repeat split; reflexivity.
  - exfalso. eapply extractLanguages_no_throw, El.
  - right. right. split; [exact Hp|]. split; [|reflexivity].
    unfold extractLanguages in El.
    destruct (filterLanguages text languages) as [[|l ls]|]; [discriminate.. | reflexivity].
Qed.

(** The world in which the extractors run after a decoder was called. *)
Lemma handler_pdf `{Runtime} event cv b w :
  uploadCv event = Some cv -> body cv = Some b ->
  declaredType cv event = Return (Some pdfType) ->
  handler event w
  = match pdfParse (bufferFromBase64 b) with
    | inl cause =>
        (Return (envelope500 (js "Failed to parse PDF: " ++ cause)),
         mkWorld (files w) (salaryLastIndex w)
           (CallPdfParse (bufferFromBase64 b) :: calls w))
    | inr text =>
        tryCatch (extractAll text)
          (fun error => mret (envelope500 (exnMessage error)))
          (mkWorld (files w) (salaryLastIndex w)
             (CallPdfParse (bufferFromBase64 b) :: calls w))
    end.
Proof.
  intros Hcv Hb Hty. run_handler. rewrite Hcv. simpl. rewrite Hb. simpl. rewrite Hty.
  rewrite bool_decide_eq_true_2 by reflexivity.
  destruct (pdfParse (bufferFromBase64 b)); reflexivity.
Qed.

Lemma handler_docx `{Runtime} event cv b w :
  uploadCv event = Some cv -> body cv = Some b ->
  declaredType cv event = Return (Some docxType) ->
  handler event w
  = match parseDocx (Some (bufferFromBase64 b)) with
    | inl cause =>
        (Return (envelope500 (js "Failed to parse DOCX: " ++ cause)),
         mkWorld (<[tempFilePath := bufferFromBase64 b]> (files w)) (salaryLastIndex w)
           (CallParseDocx tempFilePath :: calls w))
    | inr text =>
        tryCatch (extractAll text)
          (fun error => mret (envelope500 (exnMessage error)))
          (mkWorld (delete tempFilePath (<[tempFilePath := bufferFromBase64 b]> (files w)))
             (salaryLastIndex w) (CallParseDocx tempFilePath :: calls w))
    end.
Proof.
  intros Hcv Hb Hty. run_handler. rewrite Hcv. simpl. rewrite Hb. simpl. rewrite Hty.
  rewrite bool_decide_eq_false_2 by (vm_compute; discriminate).
  rewrite bool_decide_eq_true_2 by reflexivity.
  rewrite lookup_insert_eq.
  destruct (parseDocx (Some (bufferFromBase64 b))); reflexivity.
Qed.

Lemma handler_other `{Runtime} event cv b fileType w :
  uploadCv event = Some cv -> body cv = Some b ->
  declaredType cv event = Return fileType ->
  fileType ≠ Some pdfType -> fileType ≠ Some docxType ->
  handler event w = (Return envelope400, w).
Proof.
  intros Hcv Hb Hty Hpdf Hdocx.
  run_handler. rewrite Hcv. simpl. rewrite Hb. simpl. rewrite Hty.
  rewrite !bool_decide_eq_false_2 by assumption. reflexivity.
Qed.

Lemma caught_cases `{Runtime} text w :
  let r := tryCatch (extractAll text)
             (fun error => mret (envelope500 (exnMessage error))) w in
  (∃ envelope, r.1 = Return envelope ∧ wellShaped envelope
               ∧ (statusCode envelope = 200 <->
                  people text ≠ [] ∧ filterLanguages text languages ≠ None))
  ∨ (r.1 = OutsideModel ∧ people text ≠ [] ∧ filterLanguages text languages = None).
Proof.
  cbv zeta. unfold tryCatch.
  destruct (extractAll_cases text w)
    as [(first & last & found & salary & Hn & Hl & Hs & He) | [[Hp He] | (Hp & Hf & He)]];
    destruct (extractAll text w) as [r w'] eqn:Ea; simpl in He; subst r.
  - left. eexists. split; [reflexivity|]. split.
    + left. simpl. repeat split. eauto.
    + simpl. split; [|reflexivity]. intros _. split.
      * destruct (extractFullName_cases text) as [[_ Ht] | [Hp _]]; [congruence | exact Hp].
      * unfold extractLanguages in Hl.
        destruct (filterLanguages text languages); [discriminate | discriminate].
  - left. eexists. split; [reflexivity|]. split.
    + right. right. simpl. repeat split. eauto.
    + simpl. split; [discriminate|]. intros [Hne _]. contradiction.
  - right. repeat split; assumption.
Qed.

Lemma event_cases `{Runtime} event :
  (∃ e, ∀ w, handler event w = (Throw e, w))
  ∨ (∃ cv b fileType,
       uploadCv event = Some cv ∧ body cv = Some b
       ∧ declaredType cv event = Return fileType).
Proof.
  destruct (uploadCv event) as [cv|] eqn:Hcv.
  2:{ left. eexists. intros w. run_handler. rewrite Hcv. reflexivity. }
  destruct (body cv) as [b|] eqn:Hb.
  2:{ left. eexists. intros w. run_handler. rewrite Hcv. simpl. rewrite Hb. reflexivity. }
  destruct (declaredType cv event) as [fileType|e|] eqn:Hty.
  - right. eauto 10.
  - left. exists e. intros w. run_handler. rewrite Hcv. simpl. rewrite Hb. simpl.
    rewrite Hty. reflexivity.
  - unfold declaredType in Hty.
    destruct (format cv); [discriminate|]. destruct (headers event); discriminate.
Qed.

(** X1. Whatever the event, an envelope the handler returns has one of three
    shapes: status 200 with data and no message, status 400 with the message
    "Unsupported file type" alone, or status 500 with the message "Error
    parsing resume" and an error text, and no data. *)
Theorem handler_envelope_shape `{Runtime} (event : Event) (w w' : World)
    (envelope : Envelope) :
  handler event w = (Return envelope, w') ->
  wellShaped envelope.
Proof.
  intros Hh.
  destruct (event_cases event) as [(e & He) | (cv & b & fileType & Hcv & Hb & Hty)].
  { rewrite He in Hh. discriminate. }
  destruct (decide (fileType = Some pdfType)) as [-> | Hpdf].
  { rewrite (handler_pdf event cv b w Hcv Hb Hty) in Hh.
    destruct (pdfParse (bufferFromBase64 b)) as [cause|text].
    - injection Hh as <- _. right. right. simpl. repeat split. eauto.
    - match type of Hh with tryCatch _ _ ?w0 = _ =>
        destruct (caught_cases text w0) as [(env & Hr & Hshape & _) | (Hr & _)]
      end; rewrite Hh in Hr; simpl in Hr; [|discriminate].
      injection Hr as ->. exact Hshape. }
  destruct (decide (fileType = Some docxType)) as [-> | Hdocx].
  { rewrite (handler_docx event cv b w Hcv Hb Hty) in Hh.
    destruct (parseDocx (Some (bufferFromBase64 b))) as [cause|text].
    - injection Hh as <- _. right. right. simpl. repeat split. eauto.
    - match type of Hh with tryCatch _ _ ?w0 = _ =>
        destruct (caught_cases text w0) as [(env & Hr & Hshape & _) | (Hr & _)]
      end; rewrite Hh in Hr; simpl in Hr; [|discriminate].
      injection Hr as ->. exact Hshape. }
  rewrite (handler_other event cv b fileType w Hcv Hb Hty Hpdf Hdocx) in Hh.
  injection Hh as <- _. right. left. simpl. repeat split.
Qed.

Lemma handler_envelope_shape_witness :
  wellShaped (envelope500 (js "Failed to parse PDF: bad XRef entry")).
Proof.
  apply (@handler_envelope_shape (Demo.runtime (inl (js "bad XRef entry")) [] [])
           (Demo.event pdfType) Demo.world
           (mkWorld ∅ 0 [CallPdfParse []])).
  vm_compute. reflexivity.
Defined.

(** X2. Once the event has [uploadCv] with a [body], and a [format] or
    [headers], nothing escapes the handler's [try]: the handler never throws,
    whatever the decoders and the recognizer answer.  It returns an envelope,
    unless a language name is a pattern source outside what [parsePattern]
    reads. *)
Theorem handler_catches_all `{Runtime} (event : Event) (cv : UploadCv)
    (b : jsstring) (w : World) :
  uploadCv event = Some cv ->
  body cv = Some b ->
  is_Some (format cv) ∨ is_Some (headers event) ->
  (∃ envelope, (handler event w).1 = Return envelope)
  ∨ ((handler event w).1 = OutsideModel
     ∧ ∃ text, filterLanguages text languages = None).
Proof.
  intros Hcv Hb Hdeclared.
  assert (∃ fileType, declaredType cv event = Return fileType) as (fileType & Hty).
  { unfold declaredType. destruct (format cv) as [f|]; [eauto|].
    destruct Hdeclared as [[f Hf] | [h Hh']]; [discriminate|].
    rewrite Hh'. eauto. }
  destruct (decide (fileType = Some pdfType)) as [-> | Hpdf].
  { rewrite (handler_pdf event cv b w Hcv Hb Hty).
    destruct (pdfParse (bufferFromBase64 b)) as [cause|text]; [left; eauto|].
    match goal with |- context [tryCatch _ _ ?w0] =>
      destruct (caught_cases text w0) as [(env & Hr & _) | (Hr & _ & Hf)]
    end; [left | right]; eauto. }
  destruct (decide (fileType = Some docxType)) as [-> | Hdocx].
  { rewrite (handler_docx event cv b w Hcv Hb Hty).
    destruct (parseDocx (Some (bufferFromBase64 b))) as [cause|text]; [left; eauto|].
    match goal with |- context [tryCatch _ _ ?w0] =>
      destruct (caught_cases text w0) as [(env & Hr & _) | (Hr & _ & Hf)]
    end; [left | right]; eauto. }
  rewrite (handler_other event cv b fileType w Hcv Hb Hty Hpdf Hdocx).
  left. eauto.
Qed.

Lemma handler_catches_all_witness :
  (∃ envelope,
     (@handler (Demo.runtime (inr (js "no name here")) [] [])
        (Demo.event docxType) Demo.world).1 = Return envelope)
  ∨ ((@handler (Demo.runtime (inr (js "no name here")) [] [])
        (Demo.event docxType) Demo.world).1 = OutsideModel
     ∧ ∃ text, filterLanguages text
                 [mkLanguage (js "English"); mkLanguage (js "Spanish")] = None).
Proof.
  apply (@handler_catches_all (Demo.runtime (inr (js "no name here")) [] [])
           (Demo.event docxType) (mkUploadCv (Some (js "JVBERi0=")) (Some docxType))
           (js "JVBERi0=") Demo.world eq_refl eq_refl).
  left. eexists. reflexivity.
Defined.

Lemma caught_world `{Runtime} text w :
  (tryCatch (extractAll text) (fun error => mret (envelope500 (exnMessage error))) w).2
  = (extractAll text w).2.
Proof.
  unfold tryCatch. destruct (extractAll text w) as [[envelope|e|] w']; reflexivity.
Qed.

(** X3. With language names that are plain words, the handler answers status
    200 exactly when the declared type is one of the two supported ones, its
    decoder returned a text, and the recognizer found at least one person in
    it. *)
Theorem handler_200_iff `{Runtime} (event : Event) (cv : UploadCv)
    (b : jsstring) (fileType : option jsstring) (w : World) :
  uploadCv event = Some cv ->
  body cv = Some b ->
  declaredType cv event = Return fileType ->
  Forall (fun l => plainName (trim (languageName l)) = true) languages ->
  (∃ envelope, (handler event w).1 = Return envelope ∧ statusCode envelope = 200)
  <->
  ∃ text,
    ((fileType = Some pdfType ∧ pdfParse (bufferFromBase64 b) = inr text)
     ∨ (fileType = Some docxType ∧ parseDocx (Some (bufferFromBase64 b)) = inr text))
    ∧ people text ≠ [].
Proof.
  intros Hcv Hb Hty Hplain.
  assert (Hlang : ∀ text, filterLanguages text languages ≠ None).
  { intros text. rewrite (filterLanguages_spec text languages Hplain). discriminate. }
  assert (Hcaught : ∀ text w0,
            (∃ envelope,
               (tryCatch (extractAll text)
                  (fun error => mret (envelope500 (exnMessage error))) w0).1
               = Return envelope ∧ statusCode envelope = 200)
            <-> people text ≠ []).
  { intros text w0.
    destruct (caught_cases text w0) as [(env & Hr & _ & H200) | (_ & _ & Hf)];
      [|exfalso; eapply Hlang, Hf].
    split.
    - intros (env' & Hr' & Hs). rewrite Hr in Hr'. injection Hr' as <-.
      apply H200 in Hs as [Hp _]. exact Hp.
    - intros Hp. exists env. split; [exact Hr|]. apply H200. split; [exact Hp | apply Hlang]. }
  destruct (decide (fileType = Some pdfType)) as [-> | Hpdf].
  { rewrite (handler_pdf event cv b w Hcv Hb Hty).
    destruct (pdfParse (bufferFromBase64 b)) as [cause|text] eqn:Hdec.
    - split.
      + intros (env & [= <-] & Hs). discriminate.
      + intros (text & [[_ Hd] | [Hd _]] & _); discriminate.
    - rewrite Hcaught. split.
      + intros Hp. exists text. split; [left; split; reflexivity | exact Hp].
      + intros (text' & [[_ [= <-]] | [Hd _]] & Hp); [exact Hp | discriminate]. }
  destruct (decide (fileType = Some docxType)) as [-> | Hdocx].
  { rewrite (handler_docx event cv b w Hcv Hb Hty).
    destruct (parseDocx (Some (bufferFromBase64 b))) as [cause|text] eqn:Hdec.
    - split.
      + intros (env & [= <-] & Hs). discriminate.
      + intros (text & [[Hd _] | [_ Hd]] & _); discriminate.
    - rewrite Hcaught. split.
      + intros Hp. exists text. split; [right; split; reflexivity | exact Hp].
      + intros (text' & [[Hd _] | [_ [= <-]]] & Hp); [discriminate | exact Hp]. }
  rewrite (handler_other event cv b fileType w Hcv Hb Hty Hpdf Hdocx). split.
  - intros (env & [= <-] & Hs). discriminate.
  - intros (text & [[Hd _] | [Hd _]] & _); contradiction.
Qed.

Lemma handler_200_iff_witness :
  ∃ envelope,
    (@handler (Demo.runtime (inr (js "Jane Doe, jane@example.com")) [js "Jane Doe"] [])
       (Demo.event pdfType) Demo.world).1 = Return envelope
    ∧ statusCode envelope = 200.
Proof.
  apply (proj2 (@handler_200_iff
                  (Demo.runtime (inr (js "Jane Doe, jane@example.com")) [js "Jane Doe"] [])
                  (Demo.event pdfType)
                  (mkUploadCv (Some (js "JVBERi0=")) (Some pdfType))
                  (js "JVBERi0=") (Some pdfType) Demo.world
                  eq_refl eq_refl eq_refl ltac:(repeat constructor))).
  exists (js "Jane Doe, jane@example.com"). split.
  - left. split; reflexivity.
  - discriminate.
Defined.

(** X4. The handler touches one file only: a file at another path than
    [/tmp/resume.docx] is as it was, a request that is not DOCX leaves the whole
    file system as it was, and a run calls a decoder once at most. *)
Theorem handler_frame :
  (∀ (rt : Runtime) (event : Event) (w : World) (path : jsstring),
     path ≠ tempFilePath ->
     files (handler event w).2 !! path = files w !! path)
  ∧ (∀ (rt : Runtime) (event : Event) (w : World) (cv : UploadCv),
       uploadCv event = Some cv ->
       declaredType cv event ≠ Return (Some docxType) ->
       files (handler event w).2 = files w)
  ∧ (∀ (rt : Runtime) (event : Event) (w : World),
       calls (handler event w).2 = calls w
       ∨ ∃ call, calls (handler event w).2 = call :: calls w).
Proof.
  assert (Hall : ∀ (rt : Runtime) (event : Event) (w : World),
            (files (handler event w).2 = files w ∧ calls (handler event w).2 = calls w)
            ∨ (∃ cv b, uploadCv event = Some cv ∧ body cv = Some b
                       ∧ ((declaredType cv event = Return (Some pdfType)
                           ∧ files (handler event w).2 = files w)
                          ∨ (declaredType cv event = Return (Some docxType)
                             ∧ (files (handler event w).2
                                = <[tempFilePath := bufferFromBase64 b]> (files w)
                                ∨ files (handler event w).2
                                  = delete tempFilePath
                                      (<[tempFilePath := bufferFromBase64 b]> (files w)))))
                       ∧ ∃ call, calls (handler event w).2 = call :: calls w)).
  { intros rt event w.
    destruct (event_cases event) as [(e & He) | (cv & b & fileType & Hcv & Hb & Hty)].
    { left. rewrite He. split; reflexivity. }
    destruct (decide (fileType = Some pdfType)) as [-> | Hpdf].
    { right. exists cv, b. split; [exact Hcv|]. split; [exact Hb|].
      rewrite (handler_pdf event cv b w Hcv Hb Hty).
      destruct (pdfParse (bufferFromBase64 b)) as [cause|text].
      - split; [left; split; [exact Hty | reflexivity] | simpl; eauto].
      - rewrite caught_world.
        match goal with |- context [extractAll text ?w0] =>
          destruct (extractAll_frame text w0) as [-> ->]
        end. simpl. split; [left; split; [exact Hty | reflexivity] | eauto]. }
    destruct (decide (fileType = Some docxType)) as [-> | Hdocx].
    { right. exists cv, b. split; [exact Hcv|]. split; [exact Hb|].
      rewrite (handler_docx event cv b w Hcv Hb Hty).
      destruct (parseDocx (Some (bufferFromBase64 b))) as [cause|text].
      - split; [right; split; [exact Hty | left; reflexivity] | simpl; eauto].
      - rewrite caught_world.
        match goal with |- context [extractAll text ?w0] =>
          destruct (extractAll_frame text w0) as [-> ->]
        end. simpl. split; [right; split; [exact Hty | right; reflexivity] | eauto]. }
    left. rewrite (handler_other event cv b fileType w Hcv Hb Hty Hpdf Hdocx).
    split; reflexivity. }
  split; [|split].
  - intros rt event w path Hpath.
    destruct (Hall rt event w) as [[-> _] | (cv & b & _ & _ & [[_ ->] | [_ [-> | ->]]] & _)];
      try reflexivity.
    + rewrite lookup_insert_ne by congruence. reflexivity.
    + rewrite lookup_delete_ne by congruence.
      rewrite lookup_insert_ne by congruence. reflexivity.
  - intros rt event w cv Hcv Hty.
    destruct (Hall rt event w) as [[-> _] | (cv' & b & Hcv' & _ & [[_ ->] | [Hd _]] & _)];
      try reflexivity.
    rewrite Hcv in Hcv'. injection Hcv' as <-. contradiction.
  - intros rt event w.
    destruct (Hall rt event w) as [[_ ->] | (_ & _ & _ & _ & _ & Hc)]; eauto.
Qed.

(** The answer of [extractSalary], and the [lastIndex] it leaves, depend on
    the state through [lastIndex] only. *)
Lemma extractSalary_frame text w0 w :
  salaryLastIndex w0 = salaryLastIndex w ->
  (extractSalary text w0).1 = (extractSalary text w).1
  ∧ salaryLastIndex (extractSalary text w0).2 = salaryLastIndex (extractSalary text w).2.
Proof.
  intros Hw. unfold extractSalary. rewrite Hw.
  destruct (regExpBuiltinExec salaryRegex (salaryLastIndex w) text) as [[m|] li];
    [|split; reflexivity].
  destruct (truthy _); split; reflexivity.
Qed.

(** When the extractors return, the state is the one [extractSalary], the
    last of them, left. *)
Lemma extractAll_world `{Runtime} text w :
  ∀ envelope, (extractAll text w).1 = Return envelope ->
              (extractAll text w).2 = (extractSalary text w).2.
Proof.
  unfold extractAll, liftResult, mbind, M_bind, mret, M_ret.
  destruct (extractFullName text) as [[first last]| |]; [|discriminate..].
  destruct (extractLanguages text) as [found| |]; [|discriminate..].
  destruct (extractSalary text w) as [[salary| |] w1]; [|discriminate..].
  reflexivity.
Qed.

Lemma fullName_rule first last :
  ∀ full,
    (if truthy (Some first) && truthy last
     then Some (first ++ js " " ++ default [] last) else None) = Some full
    <-> first ≠ [] ∧ ∃ l, last = Some l ∧ l ≠ [] ∧ full = first ++ js " " ++ l.
Proof.
  intros full. destruct first as [|a first], last as [[|c l]|]; simpl; split;
    try discriminate;
    try (intros [Hf (l' & Hl & Hne & _)]; congruence).
  - intros [= <-]. split; [discriminate|]. exists (c :: l). repeat split. discriminate.
  - intros [_ (l' & [= <-] & _ & ->)]. reflexivity.
Qed.

(** X5. When the handler returns data, every field was computed from one and
    the same text, the one the decoder of the declared type returned:
    [firstName] and [lastName] are the pair of [extractFullName], the other
    fields are the extractors' answers, and [fullName] is there exactly when
    both names are non-empty, and is then the two joined by one space.
    [desiredSalary] is what [extractSalary] answers on that text from the
    [lastIndex] the pattern had when the handler was called, and the handler
    leaves [lastIndex] where that call left it. *)
Theorem handler_data_fields `{Runtime} (event : Event) (w w' : World)
    (envelope : Envelope) (info : ExtractedInfo) :
  handler event w = (Return envelope, w') ->
  data envelope = Some info ->
  ∃ cv b text,
    uploadCv event = Some cv ∧ body cv = Some b
    ∧ ((declaredType cv event = Return (Some pdfType)
        ∧ pdfParse (bufferFromBase64 b) = inr text)
       ∨ (declaredType cv event = Return (Some docxType)
          ∧ parseDocx (Some (bufferFromBase64 b)) = inr text))
    ∧ extractFullName text = Return (firstName info, lastName info)
    ∧ email info = extractEmail text
    ∧ phoneNumber info = extractPhoneNumber text
    ∧ linkedIn info = extractLinkedIn text
    ∧ country info = extractCountry text
    ∧ extractLanguages text = Return (languagesFound info)
    ∧ whatsApp info = extractWhatsApp text
    ∧ telegram info = extractTelegram text
    ∧ (∀ full, fullName info = Some full <->
               firstName info ≠ []
               ∧ ∃ last, lastName info = Some last ∧ last ≠ []
                         ∧ full = firstName info ++ js " " ++ last)
    ∧ (extractSalary text w).1 = Return (desiredSalary info)
    ∧ salaryLastIndex w' = salaryLastIndex (extractSalary text w).2.
Proof.
  intros Hh Hdata.
  assert (Hcaught : ∀ text w0,
            salaryLastIndex w0 = salaryLastIndex w ->
            tryCatch (extractAll text)
              (fun error => mret (envelope500 (exnMessage error))) w0
            = (Return envelope, w') ->
            extractFullName text = Return (firstName info, lastName info)
            ∧ email info = extractEmail text
            ∧ phoneNumber info = extractPhoneNumber text
            ∧ linkedIn info = extractLinkedIn text
            ∧ country info = extractCountry text
            ∧ extractLanguages text = Return (languagesFound info)
            ∧ whatsApp info = extractWhatsApp text
            ∧ telegram info = extractTelegram text
            ∧ (∀ full, fullName info = Some full <->
                       firstName info ≠ []
                       ∧ ∃ last, lastName info = Some last ∧ last ≠ []
                                 ∧ full = firstName info ++ js " " ++ last)
            ∧ (extractSalary text w).1 = Return (desiredSalary info)
            ∧ salaryLastIndex w' = salaryLastIndex (extractSalary text w).2).
  { intros text w0 Hw0 Ht. unfold tryCatch in Ht.
    destruct (extractSalary_frame text w0 w Hw0) as [Hsame Hleft].
    destruct (extractAll_cases text w0)
      as [(first & last & found & salary & Hn & Hl & Hs & He) | [[Hp He] | (Hp & Hf & He)]];
      pose proof (extractAll_world text w0) as Hworld;
      destruct (extractAll text w0) as [r w1]; simpl in He; subst r.
    - injection Ht as <- <-. cbn [data] in Hdata. injection Hdata as <-.
      cbn [firstName lastName fullName email phoneNumber linkedIn country
             languagesFound whatsApp telegram desiredSalary].
      split; [exact Hn|]. split; [reflexivity|]. split; [reflexivity|].
      split; [reflexivity|]. split; [reflexivity|]. split; [exact Hl|].
      split; [reflexivity|]. split; [reflexivity|]. split; [apply fullName_rule|].
      split; [rewrite <- Hsame; exact Hs|].
      rewrite <- Hleft. specialize (Hworld _ eq_refl). cbn [snd] in Hworld.
      rewrite <- Hworld. reflexivity.
    - simpl in Ht. injection Ht as <- _. discriminate.
    - discriminate. }
  destruct (event_cases event) as [(e & He) | (cv & b & fileType & Hcv & Hb & Hty)].
  { rewrite He in Hh. discriminate. }
  destruct (decide (fileType = Some pdfType)) as [-> | Hpdf].
  { rewrite (handler_pdf event cv b w Hcv Hb Hty) in Hh.
    destruct (pdfParse (bufferFromBase64 b)) as [cause|text] eqn:Hdec.
    - injection Hh as <- _. discriminate.
    - exists cv, b, text. split; [exact Hcv|]. split; [exact Hb|].
      split; [left; split; [exact Hty | exact Hdec]|].
      eapply Hcaught; [|exact Hh]. reflexivity. }
  destruct (decide (fileType = Some docxType)) as [-> | Hdocx].
  { rewrite (handler_docx event cv b w Hcv Hb Hty) in Hh.
    destruct (parseDocx (Some (bufferFromBase64 b))) as [cause|text] eqn:Hdec.
    - injection Hh as <- _. discriminate.
    - exists cv, b, text. split; [exact Hcv|]. split; [exact Hb|].
      split; [right; split; [exact Hty | exact Hdec]|].
      eapply Hcaught; [|exact Hh]. reflexivity. }
  rewrite (handler_other event cv b fileType w Hcv Hb Hty Hpdf Hdocx) in Hh.
  injection Hh as <- _. discriminate.
Qed.

Lemma handler_data_fields_witness :
  ∃ text,
    @extractFullName (Demo.runtime (inr (js "Jane Doe, jane@example.com")) [js "Jane Doe"] [])
      text = Return (js "Jane", Some (js "Doe"))
    ∧ Some (js "jane@example.com") = extractEmail text.
Proof.
  destruct (@handler_data_fields
              (Demo.runtime (inr (js "Jane Doe, jane@example.com")) [js "Jane Doe"] [])
              (Demo.event pdfType) Demo.world (mkWorld ∅ 0 [CallPdfParse []])
              (mkEnvelope 200
                 (Some (mkInfo (js "Jane") (Some (js "Doe")) (Some (js "Jane Doe"))
                          (Some (js "jane@example.com")) None None None None None None
                          None))
                 None None)
              (mkInfo (js "Jane") (Some (js "Doe")) (Some (js "Jane Doe"))
                 (Some (js "jane@example.com")) None None None None None None None))
    as (cv & b & text & _ & _ & _ & Hname & Hemail & _).
  - vm_compute. reflexivity.
  - reflexivity.
  - exists text. split; [exact Hname | exact Hemail].
Defined.

(** ** Captures a pattern does not touch

    A matcher leaves the captures of the groups outside its pattern as they
    are. *)

Section CaptureFacts.
Variable input : jsstring.
Variable ignoreCase : bool.

Lemma keeps_refl gs x : keeps gs x x.
Proof. intros j _. reflexivity. Qed.

Lemma keeps_trans gs x y z : keeps gs x y -> keeps gs y z -> keeps gs x z.
Proof. intros H1 H2 j Hj. rewrite (H2 j Hj). apply H1, Hj. Qed.

Lemma keeps_weaken gs gs' x y :
  (∀ g, g ∈ gs -> g ∈ gs') -> keeps gs x y -> keeps gs' x y.
Proof. intros Hsub Hk j Hj. apply Hk. intros g Hg. apply Hj, Hsub, Hg. Qed.

Lemma keeps_clear gs x : keeps gs x (clearCaptures gs x).
Proof.
  intros j Hj. unfold clearCaptures. cbn [captures].
  induction gs as [|g gs IH]; [reflexivity|]. cbn [foldr].
  rewrite list_lookup_insert_ne by (apply Hj; left).
  apply IH. intros g' Hg'. apply Hj. right. exact Hg'.
Qed.

Lemma keeps_set g gs range y : g ∈ gs -> keeps gs y (setCapture g range y).
Proof.
  intros Hg j Hj. unfold setCapture. cbn [captures].
  rewrite list_lookup_insert_ne by (apply Hj, Hg). reflexivity.
Qed.

Lemma repeatMatcher_keeping dir m gs :
  Keeping input dir gs m ->
  ∀ fuel min max (Q : Outcome -> Prop) (k : Cont) (x : MatchState),
    Q Failure ->
    endIndex x ≤ length input ->
    min + distance input dir x < fuel ->
    (∀ x', reach input dir x x' -> keeps gs x x' -> Q (k x')) ->
    Q (repeatMatcher m gs fuel min max k x).
Proof.
  intros Hm fuel. induction fuel as [|fuel IH]; intros min max Q k x HF Hx Hfuel Hk.
  - lia.
  - simpl. case_bool_decide as Hmax.
    { apply Hk; [apply reach_refl, Hx | apply keeps_refl]. }
    assert (Hd : ∀ y, reach input dir (clearCaptures gs x) y ->
              keeps gs (clearCaptures gs x) y ->
              Q (if (min =? 0) && (endIndex y =? endIndex x) then Failure
                 else repeatMatcher m gs fuel (pred min) (pred <$> max) k y)).
    { intros y Hy Hky.
      assert (Hxy : reach input dir x y) by (destruct dir; exact Hy).
      assert (Hkxy : keeps gs x y).
      { eapply keeps_trans; [apply keeps_clear | exact Hky]. }
      destruct ((min =? 0) && (endIndex y =? endIndex x)) eqn:E; [exact HF|].
      apply IH; [exact HF | eapply reach_bound; eauto | |].
      - destruct min as [|min'].
        + simpl in E. apply Nat.eqb_neq in E.
          pose proof (reach_distance input dir x y Hxy E). simpl. lia.
        + pose proof (reach_distance_le input dir x y Hxy). simpl. lia.
      - intros x' Hx' Hkx'. apply Hk.
        + eapply reach_trans; eauto.
        + eapply keeps_trans; eauto. }
    destruct (min =? 0).
    + assert (HQ := Hm Q _ (clearCaptures gs x) HF Hx Hd).
      destruct (m _ (clearCaptures gs x)); try exact HQ.
      apply Hk; [apply reach_refl, Hx | apply keeps_refl].
    + apply (Hm Q _ (clearCaptures gs x) HF Hx Hd).
Qed.

Lemma compile_keeping r dir :
  Keeping input dir (groupsOf r) (compile input ignoreCase r dir).
Proof.
  revert dir.
  induction r as [|inv atoms|r1 IH1 r2 IH2|r1 IH1 r2 IH2|min max r IH|g r IH| |r IH|r IH];
    intros dir Q k x HF Hx Hk; cbn [compile groupsOf] in *.
  - apply Hk; [apply reach_refl, Hx | apply keeps_refl].
  - destruct dir.
    + destruct (input !! endIndex x) as [a|] eqn:E; [|exact HF].
      destruct (charSetMatches _ _ _ _); [|exact HF].
      apply Hk; [|intros j _; reflexivity]. simpl. apply lookup_lt_Some in E. lia.
    + destruct (endIndex x) as [|e] eqn:Ee; [exact HF|].
      destruct (input !! e) as [a|] eqn:E; [|exact HF].
      destruct (charSetMatches _ _ _ _); [|exact HF].
      apply Hk; [|intros j _; reflexivity]. simpl. lia.
  - assert (Hseq : ∀ ra rb,
              Keeping input dir (groupsOf ra) (compile input ignoreCase ra dir) ->
              Keeping input dir (groupsOf rb) (compile input ignoreCase rb dir) ->
              (∀ g, g ∈ groupsOf ra ++ groupsOf rb -> g ∈ groupsOf r1 ++ groupsOf r2) ->
              Q (compile input ignoreCase ra dir (compile input ignoreCase rb dir k) x)).
    { intros ra rb Ha Hb Hsub.
      apply Ha; [exact HF | exact Hx |]. intros y Hy Hky.
      apply Hb; [exact HF | eapply reach_bound; eauto |].
      intros z Hz Hkz. apply Hk; [eapply reach_trans; eauto|].
      eapply keeps_trans.
      - eapply keeps_weaken; [|exact Hky].
        intros g Hg. apply Hsub, elem_of_app. left. exact Hg.
      - eapply keeps_weaken; [|exact Hkz].
        intros g Hg. apply Hsub, elem_of_app. right. exact Hg. }
    destruct dir.
    + apply Hseq; [apply IH1 | apply IH2 | auto].
    + apply Hseq; [apply IH2 | apply IH1 |].
      intros g Hg. apply elem_of_app in Hg. apply elem_of_app. tauto.
  - assert (H1 : Q (compile input ignoreCase r1 dir k x)).
    { apply IH1; [exact HF | exact Hx |]. intros x' Hx' Hkx'. apply Hk; [exact Hx'|].
      eapply keeps_weaken; [|exact Hkx']. intros g Hg. apply elem_of_app. left. exact Hg. }
    assert (H2 : Q (compile input ignoreCase r2 dir k x)).
    { apply IH2; [exact HF | exact Hx |]. intros x' Hx' Hkx'. apply Hk; [exact Hx'|].
      eapply keeps_weaken; [|exact Hkx']. intros g Hg. apply elem_of_app. right. exact Hg. }
    destruct (compile input ignoreCase r1 dir k x); assumption.
  - apply (repeatMatcher_keeping dir); [apply IH | exact HF | exact Hx | | exact Hk].
    pose proof (reach_distance_le input dir x x (reach_refl input dir x Hx)).
    destruct dir; simpl; lia.
  - apply IH; [exact HF | exact Hx |]. intros y Hy Hky. apply Hk.
    + destruct dir; exact Hy.
    + eapply keeps_trans.
      * eapply keeps_weaken; [|exact Hky]. intros g' Hg'. right. exact Hg'.
      * apply keeps_set. left.
  - destruct (isWordBoundary input (endIndex x)); [|exact HF].
    apply Hk; [apply reach_refl, Hx | apply keeps_refl].
  - unfold runLookaround.
    pose proof (compile_fuel input ignoreCase r Forward Matched x Hx
                  ltac:(discriminate)) as H1.
    destruct (compile input ignoreCase r Forward Matched x);
      [exact HF | apply Hk; [apply reach_refl, Hx | apply keeps_refl] | congruence].
  - unfold runLookaround.
    pose proof (compile_fuel input ignoreCase r Backward Matched x Hx
                  ltac:(discriminate)) as H1.
    destruct (compile input ignoreCase r Backward Matched x);
      [exact HF | apply Hk; [apply reach_refl, Hx | apply keeps_refl] | congruence].
Qed.

(** Skipping the first part of a sequence, with the captures it leaves
    alone. *)
Lemma seq_skip_keeping r1 r2 k x y (P : Prop) :
  endIndex x ≤ length input ->
  (∀ x', endIndex x ≤ endIndex x' ≤ length input ->
         keeps (groupsOf r1) x x' ->
         compile input ignoreCase r2 Forward k x' = Matched y -> P) ->
  compile input ignoreCase (Seq r1 r2) Forward k x = Matched y -> P.
Proof.
  intros Hx Hrest. cbn [compile].
  apply (compile_keeping r1 Forward (fun o => o = Matched y -> P));
    [discriminate | exact Hx | exact Hrest].
Qed.
End CaptureFacts.

(** ** What the salary extractor returns *)

Lemma digit_matches ic a : charSetMatches ic false [CDigit] a = isDigit a.
Proof.
  unfold charSetMatches, classHas, asciiUpper, asciiLower. cbn [existsb atomHas].
  destruct (inRange 97 122 a) eqn:E1; destruct (inRange 65 90 a) eqn:E2;
    revert E1 E2; destruct ic; n_cases.
Qed.

Lemma group_class_inv input ic g inv atoms r k x y :
  compile input ic (Seq (Group g (CharSet inv atoms)) r) Forward k x = Matched y ->
  ∃ a, input !! endIndex x = Some a
       ∧ charSetMatches ic inv atoms a = true
       ∧ compile input ic r Forward k
           (setCapture g (endIndex x, S (endIndex x))
              (mkState (S (endIndex x)) (captures x))) = Matched y.
Proof.
  cbn [compile]. destruct (input !! endIndex x) as [a|]; [|discriminate].
  destruct (charSetMatches ic inv atoms a) eqn:Ec; [|discriminate]. eauto.
Qed.

Lemma empty_step input ic k x : compile input ic Empty Forward k x = k x.
Proof. reflexivity. Qed.

Lemma group_step input ic g R r k x :
  compile input ic (Seq (Group g R) r) Forward k x
  = compile input ic R Forward
      (fun y0 => compile input ic r Forward k (setCapture g (endIndex x, endIndex y0) y0)) x.
Proof. reflexivity. Qed.

Ltac outside_groups Hj :=
  let g := fresh "g" in
  let Hg := fresh "Hg" in
  intros g Hg; simpl in Hg;
  repeat (apply elem_of_cons in Hg as [-> | Hg];
          [destruct Hj as [-> | ->]; simpl; lia|]);
  inversion Hg.

(** A match of the salary pattern: it begins at a currency symbol, which is
    capture 1, and capture 2, the amount, begins with a digit. *)
Lemma salary_match_captures text i y :
  i ≤ length text ->
  matchAt salaryRegex text i = Matched y ->
  ∃ sym a b d,
    text !! i = Some sym ∧ isCurrencySymbol sym = true
    ∧ i < endIndex y ≤ length text
    ∧ captures y !! 0 = Some (Some (i, S i))
    ∧ captures y !! 1 = Some (Some (a, b))
    ∧ a < b ≤ length text
    ∧ text !! a = Some d ∧ isDigit d = true.
Proof.
  intros Hi. unfold matchAt.
  cbn [pattern salaryRegex nGroups ignoreCaseFlag seqs foldr].
  intros E. apply group_class_inv in E as (sym & Hsym & Hc & E).
  cbn [endIndex captures] in *. rewrite currencyClass_matches in Hc.
  assert (Hlt : i < length text) by (apply lookup_lt_Some in Hsym; exact Hsym).
  revert E. apply seq_skip_keeping; [cbn [setCapture endIndex]; lia|].
  intros x2 H2 K2. cbn [setCapture endIndex captures Nat.pred] in H2, K2.
  rewrite group_step. intros E.
  apply plus_class_inv in E as (n & Hn & Hdigits & E).
  destruct (Hdigits 0 ltac:(lia)) as (d & Hd & Hdm).
  rewrite Nat.add_0_r in Hd. rewrite digit_matches in Hdm.
  assert (Ha : endIndex x2 < length text) by (apply lookup_lt_Some in Hd; exact Hd).
  revert E. apply seq_skip_keeping; [cbn [endIndex]; destruct (Hdigits (n - 1) ltac:(lia))
    as (d' & Hd' & _); apply lookup_lt_Some in Hd'; lia|].
  intros x3 H3 K3. cbn [endIndex captures] in H3, K3.
  apply seq_skip_keeping; [lia|]. intros x4 H4 K4.
  rewrite empty_step. cbv beta.
  apply seq_skip_keeping; [cbn [setCapture endIndex]; lia|]. intros x5 H5 K5.
  apply seq_skip_keeping; [lia|]. intros x6 H6 K6.
  apply seq_skip_keeping; [lia|]. intros x7 H7 K7.
  apply seq_skip_keeping; [lia|]. intros x8 H8 K8.
  apply seq_skip_keeping; [lia|]. intros x9 H9 K9.
  rewrite empty_step. intros [= <-].
  cbn [setCapture endIndex captures Nat.pred] in *.
  cbn [setCapture endIndex captures Nat.pred groupsOf seqs foldr app opt star plus
         currencyClass digit one chr lit] in *.
  assert (Hkeep : ∀ j, j = 0 ∨ j = 1 ->
            captures x9 !! j = (<[1 := Some (endIndex x2, endIndex x4)]> (captures x4)) !! j).
  { intros j Hj.
    transitivity (captures x8 !! j); [apply K9; outside_groups Hj|].
    transitivity (captures x7 !! j); [apply K8; outside_groups Hj|].
    transitivity (captures x6 !! j); [apply K7; outside_groups Hj|].
    transitivity (captures x5 !! j); [apply K6; outside_groups Hj|].
    apply (K5 j); outside_groups Hj. }
  assert (Hbase : ∀ j, j = 0 ∨ j = 1 ->
            captures x4 !! j = (<[0 := Some (i, S i)]> (replicate 4 None)) !! j).
  { intros j Hj.
    transitivity (captures x3 !! j); [apply K4; outside_groups Hj|].
    transitivity (captures x2 !! j); [apply (K3 j); outside_groups Hj|].
    apply (K2 j); outside_groups Hj. }
  exists sym, (endIndex x2), (endIndex x4), d.
  split; [exact Hsym|]. split; [exact Hc|]. split; [lia|]. split; [|split; [|split; [lia|]]].
  - rewrite (Hkeep 0) by tauto. rewrite list_lookup_insert_ne by lia.
    rewrite (Hbase 0) by tauto. reflexivity.
  - rewrite (Hkeep 1) by tauto. apply list_lookup_insert_eq.
    eapply lookup_lt_is_Some. rewrite (Hbase 1) by tauto. eexists. reflexivity.
  - split; [exact Hd | exact Hdm].
Qed.

(** What [exec] answered, read backwards. *)
Lemma exec_Some R str lastIndex m lastIndex' :
  regExpBuiltinExec R lastIndex str = (Some m, lastIndex') ->
  ∃ i y,
    (if global R then lastIndex else 0) ≤ i ≤ length str
    ∧ matchAt R str i = Matched y
    ∧ (∀ k, (if global R then lastIndex else 0) ≤ k < i ->
            ∀ z, matchAt R str k ≠ Matched z)
    ∧ m = toResult str i y
    ∧ lastIndex' = (if global R then endIndex y else lastIndex).
Proof.
  unfold regExpBuiltinExec.
  set (start := if global R then lastIndex else 0).
  destruct (length str <? start) eqn:E; [discriminate|].
  apply Nat.ltb_ge in E.
  destruct (scanFrom R str (length str - start) start) as [[i y]|] eqn:Es; [|discriminate].
  intros [= <- <-]. apply scanFrom_Some in Es as (Hi & Hm & Hleft).
  exists i, y. repeat split; try assumption; lia.
Qed.

Lemma exec_None R str lastIndex lastIndex' :
  regExpBuiltinExec R lastIndex str = (None, lastIndex') ->
  lastIndex' = (if global R then 0 else lastIndex).
Proof.
  unfold regExpBuiltinExec.
  destruct (length str <? _); [intros [= <-]; reflexivity|].
  destruct (scanFrom R str _ _) as [[i y]|]; [discriminate|].
  intros [= <-]. reflexivity.
Qed.

Lemma substring_cons str a b d :
  a < b -> str !! a = Some d -> ∃ rest, substring str a b = d :: rest.
Proof.
  intros Hab Hd. unfold substring. rewrite (drop_S _ _ _ Hd).
  destruct (b - a) as [|n] eqn:E; [lia|]. simpl. eauto.
Qed.

Lemma namedGroup_amount m :
  namedGroup salaryRegex m "amount" = mjoin (groupValues m !! 1).
Proof. reflexivity. Qed.

Lemma namedGroup_currencySymbol m :
  namedGroup salaryRegex m "currencySymbol" = mjoin (groupValues m !! 0).
Proof. reflexivity. Qed.

(** The named groups of a match of the salary pattern. *)
Lemma salary_match_groups text i y :
  i ≤ length text ->
  matchAt salaryRegex text i = Matched y ->
  ∃ sym d rest,
    text !! i = Some sym ∧ isCurrencySymbol sym = true
    ∧ i < endIndex y ≤ length text
    ∧ namedGroup salaryRegex (toResult text i y) "currencySymbol" = Some [sym]
    ∧ namedGroup salaryRegex (toResult text i y) "amount" = Some (d :: rest)
    ∧ isDigit d = true.
Proof.
  intros Hi Hm.
  destruct (salary_match_captures text i y Hi Hm)
    as (sym & a & b & d & Hsym & Hc & Hend & H1 & H2 & Hab & Hd & Hdigit).
  destruct (substring_cons text a b d ltac:(lia) Hd) as (rest & Hr).
  exists sym, d, rest. split; [exact Hsym|]. split; [exact Hc|]. split; [exact Hend|].
  split; [|split; [|exact Hdigit]].
  - rewrite namedGroup_currencySymbol. unfold toResult.
    cbn [groupValues]. rewrite list_lookup_fmap, H1. simpl.
    unfold substring. replace (S i - i) with 1 by lia.
    rewrite (drop_S _ _ _ Hsym). reflexivity.
  - rewrite namedGroup_amount. unfold toResult.
    cbn [groupValues]. rewrite list_lookup_fmap, H2. simpl. rewrite Hr. reflexivity.
Qed.

(** X7. [extractSalary] changes nothing of the world but
    [salaryRegex.lastIndex]: a call that answers [null] leaves it at 0, and a
    call that answers a salary leaves it further on than it was, at the end of
    the match, within the text.  So the next call on the same text cannot see
    that match again. *)
Theorem extractSalary_lastIndex (text : jsstring) (w : World) :
  files (extractSalary text w).2 = files w
  ∧ calls (extractSalary text w).2 = calls w
  ∧ ((extractSalary text w).1 = Return None
     ∧ salaryLastIndex (extractSalary text w).2 = 0
     ∨ (∃ salary, (extractSalary text w).1 = Return (Some salary))
       ∧ salaryLastIndex w < salaryLastIndex (extractSalary text w).2 ≤ length text).
Proof.
  unfold extractSalary.
  destruct (regExpBuiltinExec salaryRegex (salaryLastIndex w) text) as [[m|] li] eqn:E.
  - apply exec_Some in E as (i & y & Hi & Hm & _ & -> & ->).
    change (global salaryRegex) with true in *. cbn iota in *.
    destruct (salary_match_groups text i y ltac:(lia) Hm)
      as (sym & d & rest & Hsym & Hc & Hend & Hsymbol & Hamount & Hdigit).
    rewrite Hamount. cbn [truthy fst snd files calls salaryLastIndex].
    split; [reflexivity|]. split; [reflexivity|]. right. split; [eauto | lia].
  - apply exec_None in E as ->. cbn [fst snd files calls salaryLastIndex].
    split; [reflexivity|]. split; [reflexivity|]. left. split; reflexivity.
Qed.

(** ** The pattern extractors: what a result looks like *)

Lemma firstMatch_exec R text :
  firstMatch (stringMatch text R 0).1 = matched <$> (regExpBuiltinExec R 0 text).1.
Proof.
  destruct (global R) eqn:Hg.
  - apply (stringMatch_global R text 0 Hg).
  - rewrite (stringMatch_nonglobal R text 0 Hg). cbn [fst].
    destruct (regExpBuiltinExec R 0 text).1; reflexivity.
Qed.

(** A result of a pattern extractor is the piece of the text that the
    leftmost match covers. *)
Lemma firstMatch_Some R text e :
  firstMatch (stringMatch text R 0).1 = Some e ->
  ∃ i y, i ≤ length text
         ∧ matchAt R text i = Matched y
         ∧ i ≤ endIndex y ≤ length text
         ∧ e = substring text i (endIndex y).
Proof.
  rewrite firstMatch_exec.
  destruct (regExpBuiltinExec R 0 text) as [[m|] li] eqn:E; [|discriminate].
  intros [= <-]. apply (exec_Some R text 0) in E as (i & y & Hi & Hm & _ & -> & _).
  exists i, y. split; [lia|]. split; [exact Hm|]. split; [|reflexivity].
  apply (matchAt_range R text i y); [lia | exact Hm].
Qed.

Lemma firstMatch_None R text :
  (∀ k, k ≤ length text -> ∀ z, matchAt R text k ≠ Matched z) ->
  firstMatch (stringMatch text R 0).1 = None.
Proof.
  intros Hno. rewrite firstMatch_exec, (exec_no_match R text 0 Hno). reflexivity.
Qed.

Lemma class_plain inv atoms a :
  charSetMatches false inv atoms a = xorb inv (classHas atoms a).
Proof. unfold charSetMatches. rewrite andb_false_l, orb_false_r. reflexivity. Qed.

(** A bounded or unbounded run of characters of a class. *)
Lemma repeat_class_inv_max input ic inv atoms (m : Cont -> MatchState -> Outcome) :
  (∀ c x, m c x = compile input ic (CharSet inv atoms) Forward c x) ->
  ∀ fuel min max k e caps y,
    (∀ mx, max = Some mx -> min ≤ mx) ->
    repeatMatcher m [] fuel min max k (mkState e caps) = Matched y ->
    ∃ n, min ≤ n
         ∧ (∀ mx, max = Some mx -> n ≤ mx)
         ∧ (∀ j, j < n -> ∃ a, input !! (e + j) = Some a
                              ∧ charSetMatches ic inv atoms a = true)
         ∧ k (mkState (e + n) caps) = Matched y.
Proof.
  intros Hm fuel. induction fuel as [|fuel IH]; intros min max k e caps y Hvalid;
    [discriminate|].
  rewrite repeatMatcher_unfold. cbv zeta.
  assert (Hzero : min = 0 -> k (mkState e caps) = Matched y ->
            ∃ n, min ≤ n
                 ∧ (∀ mx, max = Some mx -> n ≤ mx)
                 ∧ (∀ j, j < n -> ∃ a, input !! (e + j) = Some a
                                      ∧ charSetMatches ic inv atoms a = true)
                 ∧ k (mkState (e + n) caps) = Matched y).
  { intros -> E. exists 0. split; [lia|]. split; [intros; lia|]. split; [intros; lia|].
    rewrite Nat.add_0_r. exact E. }
  case_bool_decide as Hmax.
  { apply Hzero. specialize (Hvalid 0 Hmax). lia. }
  rewrite Hm.
  cbn [compile clearCaptures foldr endIndex captures].
  replace (S e =? e) with false by (symmetry; apply Nat.eqb_neq; lia).
  rewrite andb_false_r.
  assert (Hstep : ∀ a,
            input !! e = Some a -> charSetMatches ic inv atoms a = true ->
            repeatMatcher m [] fuel (pred min) (pred <$> max) k (mkState (S e) caps)
            = Matched y ->
            ∃ n, min ≤ n
                 ∧ (∀ mx, max = Some mx -> n ≤ mx)
                 ∧ (∀ j, j < n -> ∃ a, input !! (e + j) = Some a
                                      ∧ charSetMatches ic inv atoms a = true)
                 ∧ k (mkState (e + n) caps) = Matched y).
  { intros a Ha Hc E.
    apply IH in E as (n & Hn & Hmx & Hall & Hk).
    2:{ intros mx' Hmx'. destruct max as [mx|]; [|discriminate].
        injection Hmx' as <-. specialize (Hvalid mx eq_refl). lia. }
    exists (S n). split; [lia|]. split; [|split].
    - intros mx ->. specialize (Hmx (pred mx) eq_refl).
      assert (mx ≠ 0) by congruence. lia.
    - intros [|j] Hj.
      + rewrite Nat.add_0_r. eauto.
      + rewrite Nat.add_succ_r. apply Hall. lia.
    - rewrite Nat.add_succ_r. exact Hk. }
  destruct (input !! e) as [a|] eqn:Ea.
  2:{ destruct min; [apply Hzero; reflexivity | discriminate]. }
  destruct (charSetMatches ic inv atoms a) eqn:Ec.
  2:{ destruct min; [apply Hzero; reflexivity | discriminate]. }
  destruct min as [|min']; cbn [Nat.eqb].
  - destruct (repeatMatcher m [] fuel (pred 0) (pred <$> max) k (mkState (S e) caps))
      as [z| |] eqn:Eo.
    + intros E. apply (Hstep a eq_refl Ec E).
    + apply Hzero. reflexivity.
    + discriminate.
  - intros E. apply (Hstep a eq_refl Ec E).
Qed.

Lemma quant_class_inv input ic min max inv atoms r k x y :
  (∀ mx, max = Some mx -> min ≤ mx) ->
  compile input ic (Seq (Quant min max (CharSet inv atoms)) r) Forward k x = Matched y ->
  ∃ n, min ≤ n
       ∧ (∀ mx, max = Some mx -> n ≤ mx)
       ∧ (∀ j, j < n -> ∃ a, input !! (endIndex x + j) = Some a
                            ∧ charSetMatches ic inv atoms a = true)
       ∧ compile input ic r Forward k (mkState (endIndex x + n) (captures x)) = Matched y.
Proof.
  intros Hvalid. destruct x as [e caps]. cbn [compile groupsOf endIndex captures].
  apply (repeat_class_inv_max input ic inv atoms); [reflexivity | exact Hvalid].
Qed.

Lemma substring_lookup str i j k :
  j ≤ length str -> k < j - i -> substring str i j !! k = str !! (i + k).
Proof.
  intros Hj Hk. unfold substring. rewrite lookup_take_lt by lia.
  apply lookup_drop.
Qed.

Lemma substring_length str i j : j ≤ length str -> length (substring str i j) = j - i.
Proof. intros Hj. unfold substring. rewrite length_take, length_drop. lia. Qed.

Lemma substring_elem str i j a :
  j ≤ length str -> a ∈ substring str i j ->
  ∃ k, i ≤ k < j ∧ str !! k = Some a.
Proof.
  intros Hj Ha. apply list_elem_of_lookup in Ha as (k & Hk).
  assert (k < j - i).
  { apply lookup_lt_Some in Hk. rewrite substring_length in Hk by exact Hj. exact Hk. }
  rewrite substring_lookup in Hk by assumption. exists (i + k). split; [lia | exact Hk].
Qed.

Ltac eval_chars :=
  repeat match goal with
         | |- context [ch ?c] =>
             let v := eval vm_compute in (ch c) in change (ch c) with v
         end;
  repeat match goal with
         | |- context [js ?s] =>
             let v := eval vm_compute in (js s) in change (js s) with v
         end.

Ltac class_cases :=
  rewrite ?class_plain;
  unfold classHas, isLetter, anyOf, lower, upper, digit09, cc;
  eval_chars; cbn [existsb atomHas]; n_cases.

Lemma substring_step (str : jsstring) e j a :
  str !! e = Some a -> e < j -> substring str e j = a :: substring str (S e) j.
Proof.
  intros Ha Hj. unfold substring. rewrite (drop_S _ _ _ Ha).
  replace (j - e) with (S (j - S e)) by lia. reflexivity.
Qed.

Lemma substring_empty (str : jsstring) e : substring str e e = [].
Proof. unfold substring. rewrite Nat.sub_diag. reflexivity. Qed.

(** A run of [n] characters of a set, as a piece of the text. *)
Lemma run_substring (str : jsstring) (P : N -> bool) n :
  ∀ e m,
    (∀ j, j < n -> ∃ a, str !! (e + j) = Some a ∧ P a = true) ->
    ∃ s, length s = n
         ∧ Forall (fun a => P a = true) s
         ∧ substring str e (e + n + m) = s ++ substring str (e + n) (e + n + m).
Proof.
  induction n as [|n IH]; intros e m Hrun.
  - exists []. rewrite Nat.add_0_r. auto.
  - destruct (Hrun 0 ltac:(lia)) as (a & Ha & Pa). rewrite Nat.add_0_r in Ha.
    destruct (IH (S e) m) as (s & Hlen & Hall & Hs).
    { intros j Hj. destruct (Hrun (S j) ltac:(lia)) as (b & Hb & Pb).
      rewrite Nat.add_succ_r in Hb. eauto. }
    exists (a :: s). split; [simpl; lia|]. split; [constructor; assumption|].
    rewrite (substring_step str e _ a Ha) by lia.
    replace (e + S n) with (S e + n) by lia. rewrite Hs. reflexivity.
Qed.

Ltac end_is t :=
  match goal with
  | |- substring _ _ ?J = _ => replace J with t by lia
  end.

(** *** The e-mail address *)

Lemma email_first_class a :
  charSetMatches false false
    [lower; upper; cc "."; cc "_"; cc "%"; cc "+"; cc "-"] a
  = isLetter a || anyOf "._%+-" a.
Proof. class_cases. Qed.

Lemma email_local_class a :
  charSetMatches false false
    [lower; upper; digit09; cc "."; cc "_"; cc "%"; cc "+"; cc "-"] a
  = isLetter a || isDigit a || anyOf "._%+-" a.
Proof. class_cases. Qed.

Lemma email_domain_class a :
  charSetMatches false false [lower; upper; digit09; cc "."; cc "-"] a
  = isLetter a || isDigit a || anyOf ".-" a.
Proof. class_cases. Qed.

Lemma letter_class a : charSetMatches false false [lower; upper] a = isLetter a.
Proof. class_cases. Qed.

Lemma char_class c a : charSetMatches false false [CChar c] a = true -> a = c.
Proof.
  rewrite class_plain. unfold classHas. cbn [existsb atomHas xorb orb].
  rewrite orb_false_r. intros E. apply N.eqb_eq in E. congruence.
Qed.

Lemma email_match text i y :
  matchAt emailRegex text i = Matched y ->
  ∃ c loc dom tld,
    substring text i (endIndex y) = c :: loc ++ ch "@" :: dom ++ ch "." :: tld
    ∧ isLetter c || anyOf "._%+-" c = true
    ∧ Forall (fun a => isLetter a || isDigit a || anyOf "._%+-" a = true) loc
    ∧ 1 ≤ length dom
    ∧ Forall (fun a => isLetter a || isDigit a || anyOf ".-" a = true) dom
    ∧ 2 ≤ length tld
    ∧ Forall (fun a => isLetter a = true) tld.
Proof.
  unfold matchAt, emailRegex. cbn [pattern ignoreCaseFlag nGroups seqs foldr].
  intros E.
  apply class_inv in E as (c & Hc & Pc & E). cbn [endIndex captures] in *.
  rewrite email_first_class in Pc.
  unfold star in E. apply quant_class_inv in E as (n1 & _ & _ & Hloc & E);
    [|discriminate]. cbn [endIndex captures] in *.
  apply class_inv in E as (at' & Hat & Pat & E). cbn [endIndex captures] in *.
  apply char_class in Pat as ->.
  unfold plus in E. apply quant_class_inv in E as (n2 & Hn2 & _ & Hdom & E);
    [|discriminate]. cbn [endIndex captures] in *.
  apply class_inv in E as (dot & Hdot & Pdot & E). cbn [endIndex captures] in *.
  apply char_class in Pdot as ->.
  apply quant_class_inv in E as (n3 & Hn3 & _ & Htld & E); [|discriminate].
  cbn [compile endIndex captures] in *. injection E as <-. cbn [endIndex].
  destruct (run_substring text _ n1 (S i) (1 + n2 + 1 + n3) Hloc)
    as (loc & Lloc & Floc & Sloc).
  destruct (run_substring text _ n2 (S (S i + n1)) (1 + n3) Hdom)
    as (dom & Ldom & Fdom & Sdom).
  destruct (run_substring text _ n3 (S (S (S i + n1) + n2)) 0 Htld)
    as (tld & Ltld & Ftld & Stld).
  rewrite Nat.add_0_r, substring_empty, app_nil_r in Stld.
  exists c, loc, dom, tld.
  split.
  { rewrite (substring_step text i _ c Hc) by lia. f_equal.
    end_is (S i + n1 + (1 + n2 + 1 + n3)). rewrite Sloc. f_equal.
    rewrite (substring_step text (S i + n1) _ (ch "@") Hat) by lia. f_equal.
    end_is (S (S i + n1) + n2 + (1 + n3)). rewrite Sdom. f_equal.
    rewrite (substring_step text (S (S i + n1) + n2) _ (ch ".") Hdot) by lia. f_equal.
    end_is (S (S (S i + n1) + n2) + n3). exact Stld. }
  split; [exact Pc|].
  split; [eapply Forall_impl; [exact Floc|]; intros a Ha; rewrite <- email_local_class; exact Ha|].
  split; [lia|].
  split; [eapply Forall_impl; [exact Fdom|]; intros a Ha; rewrite <- email_domain_class; exact Ha|].
  split; [lia|].
  eapply Forall_impl; [exact Ftld|]. intros a Ha. rewrite <- letter_class. exact Ha.
Qed.

(** *** Links: scheme, host and path *)

Lemma seq_step input ic r1 r2 k x :
  compile input ic (Seq r1 r2) Forward k x
  = compile input ic r1 Forward (compile input ic r2 Forward k) x.
Proof. reflexivity. Qed.

Lemma quant_step input ic min max r k x :
  compile input ic (Quant min max r) Forward k x
  = repeatMatcher (compile input ic r Forward) (groupsOf r)
      (1 + min + length input) min max k x.
Proof. reflexivity. Qed.

Lemma group_alone_step input ic g r k x :
  compile input ic (Group g r) Forward k x
  = compile input ic r Forward
      (fun y => k (setCapture g (endIndex x, endIndex y) y)) x.
Proof. reflexivity. Qed.

Lemma startsWith_app (a b text : jsstring) :
  startsWith (a ++ b) text = startsWith a text && startsWith b (drop (length a) text).
Proof.
  revert text. induction a as [|c a IH]; intros text; [reflexivity|].
  destruct text as [|d text]; [reflexivity|].
  cbn [app startsWith length drop]. rewrite IH, andb_assoc. reflexivity.
Qed.

Lemma startsWith_length (a text : jsstring) :
  startsWith a text = true -> length a ≤ length text.
Proof.
  revert text. induction a as [|c a IH]; intros text Hs; [simpl; lia|].
  destruct text as [|d text]; [discriminate|].
  simpl in Hs. apply andb_true_iff in Hs as [_ Hs]. apply IH in Hs. simpl. lia.
Qed.

Lemma startsWith_take (a text : jsstring) n :
  length a ≤ n -> startsWith a (take n text) = startsWith a text.
Proof.
  revert text n. induction a as [|c a IH]; intros text n Hn; [reflexivity|].
  destruct n as [|n]; [simpl in Hn; lia|].
  destruct text as [|d text]; [reflexivity|].
  cbn [take startsWith]. rewrite IH by (simpl in Hn; lia). reflexivity.
Qed.

Lemma startsWith_single (text : jsstring) p a b :
  text !! p = Some b -> sameLetter a b = true -> startsWith [a] (drop p text) = true.
Proof.
  intros Hb Hab. rewrite (drop_S _ _ _ Hb). cbn [startsWith]. rewrite Hab. reflexivity.
Qed.

(** A piece of the text is a name up to case when the text reads the name
    where the piece begins. *)
Lemma sameText_substring (name text : jsstring) i :
  startsWith name (drop i text) = true ->
  sameText name (substring text i (i + length name)) = true.
Proof.
  intros Hs. unfold sameText, substring.
  replace (i + length name - i) with (length name) by lia.
  rewrite startsWith_take, Hs by lia.
  apply startsWith_length in Hs.
  rewrite length_take, Nat.min_l by exact Hs.
  rewrite Nat.eqb_refl. reflexivity.
Qed.

Lemma substring_app (str : jsstring) i m j :
  i ≤ m ≤ j -> substring str i j = substring str i m ++ substring str m j.
Proof.
  intros Hm. unfold substring.
  replace (j - i) with ((m - i) + (j - m)) by lia.
  rewrite <- take_take_drop, drop_drop.
  replace (i + (m - i)) with m by lia. reflexivity.
Qed.

(** The optional scheme of a link: nothing, or [http://] or [https://] in any
    case. *)
Lemma scheme_inv text g r k e caps y :
  compile text true
    (Seq (opt (Group g (seqs [lit "http"; opt (one "s"); lit "://"]))) r)
    Forward k (mkState e caps) = Matched y ->
  ∃ scheme caps',
    (scheme = [] ∨ scheme = js "http://" ∨ scheme = js "https://")
    ∧ startsWith scheme (drop e text) = true
    ∧ compile text true r Forward k (mkState (e + length scheme) caps') = Matched y.
Proof.
  unfold opt at 1. rewrite seq_step, quant_step.
  change (1 + 0 + length text) with (S (length text)).
  rewrite repeatMatcher_unfold, bool_decide_eq_false_2 by discriminate.
  cbn [Nat.eqb andb]. cbv zeta.
  change (seqs [lit "http"; opt (one "s"); lit "://"])
    with (Seq (literal (js "http") Empty)
            (Seq (Quant 0 (Some 1) (CharSet false [CChar (ch "s")]))
               (Seq (literal (js "://") Empty) Empty))).
  unfold clearCaptures. cbn [endIndex captures foldr groupsOf app].
  match goal with
  | |- match ?o with _ => _ end = _ -> _ => destruct o as [z| |] eqn:Eo
  end.
  2:{ intros E. exists [], caps. split; [left; reflexivity|]. split; [reflexivity|].
      rewrite Nat.add_0_r. exact E. }
  2:{ discriminate. }
  intros [= ->].
  rewrite group_alone_step, seq_step, compile_literal in Eo.
  destruct (startsWith (js "http") (drop e text)) eqn:Hhttp; [|discriminate].
  rewrite empty_step in Eo.
  apply quant_class_inv in Eo as (n & _ & Hn & Hs & Eo);
    [|intros mx [= <-]; lia].
  specialize (Hn 1 eq_refl). cbn [endIndex captures] in Eo, Hs.
  rewrite seq_step, compile_literal in Eo.
  destruct (startsWith (js "://") (drop (e + length (js "http") + n) text)) eqn:Hsep;
    [|discriminate].
  rewrite !empty_step in Eo. cbn [setCapture endIndex captures] in Eo.
  assert (Hmove : (e + length (js "http") + n + length (js "://") =? e) = false)
    by (apply Nat.eqb_neq; simpl; lia).
  rewrite Hmove in Eo.
  destruct (length text) as [|fuel]; [discriminate|].
  cbn [pred fmap option_fmap option_map] in Eo.
  rewrite repeatMatcher_unfold, bool_decide_eq_true_2 in Eo by reflexivity.
  destruct n as [|[|n]]; [| |lia].
  - eexists (js "http://"), _.
    split; [right; left; reflexivity|]. split.
    + change (js "http://") with (js "http" ++ js "://").
      rewrite startsWith_app, Hhttp. rewrite Nat.add_0_r in Hsep.
      rewrite drop_drop. exact Hsep.
    + replace (e + length (js "http://")) with (e + length (js "http") + 0 + length (js "://"))
        by (simpl; lia).
      exact Eo.
  - eexists (js "https://"), _.
    split; [right; right; reflexivity|]. split.
    + change (js "https://") with (js "http" ++ [ch "s"] ++ js "://").
      rewrite !startsWith_app, Hhttp, !drop_drop.
      destruct (Hs 0 ltac:(lia)) as (b & Hb & Pb).
      rewrite Nat.add_0_r in Hb. rewrite literal_matches in Pb.
      rewrite (startsWith_single text _ _ b Hb Pb).
      cbn [length] in *. replace (e + 4 + 1) with (e + (4 + 1)) in Hsep by lia.
      exact Hsep.
    + replace (e + length (js "https://")) with (e + length (js "http") + 1 + length (js "://"))
        by (simpl; lia).
      exact Eo.
Qed.

(** An optional literal in a group: nothing, or the literal in any case. *)
Lemma opt_literal_inv text g name r k e caps y :
  compile text true (Seq (opt (Group g (literal name Empty))) r) Forward k
    (mkState e caps) = Matched y ->
  ∃ w caps',
    (w = [] ∨ w = name)
    ∧ startsWith w (drop e text) = true
    ∧ compile text true r Forward k (mkState (e + length w) caps') = Matched y.
Proof.
  unfold opt at 1. rewrite seq_step, quant_step.
  change (1 + 0 + length text) with (S (length text)).
  rewrite repeatMatcher_unfold, bool_decide_eq_false_2 by discriminate.
  cbn [Nat.eqb andb]. cbv zeta.
  unfold clearCaptures. cbn [endIndex captures foldr groupsOf app].
  match goal with
  | |- match ?o with _ => _ end = _ -> _ => destruct o as [z| |] eqn:Eo
  end.
  2:{ intros E. exists [], caps. split; [left; reflexivity|]. split; [reflexivity|].
      rewrite Nat.add_0_r. exact E. }
  2:{ discriminate. }
  intros [= ->].
  rewrite group_alone_step, compile_literal in Eo.
  destruct (startsWith name (drop e text)) eqn:Hname; [|discriminate].
  rewrite empty_step in Eo. cbn [setCapture endIndex captures] in Eo.
  destruct (e + length name =? e); [discriminate|].
  destruct (length text) as [|fuel]; [discriminate|].
  cbn [pred fmap option_fmap option_map] in Eo.
  rewrite repeatMatcher_unfold, bool_decide_eq_true_2 in Eo by reflexivity.
  eexists name, _. split; [right; reflexivity|]. split; [exact Hname | exact Eo].
Qed.

(** A quantifier that may stop fails only when what follows it fails. *)
Lemma quant_min0_failure input ic max r1 r2 k x :
  compile input ic (Seq (Quant 0 max r1) r2) Forward k x = Failure ->
  compile input ic r2 Forward k x = Failure.
Proof.
  rewrite seq_step, quant_step.
  change (1 + 0 + length input) with (S (length input)).
  rewrite repeatMatcher_unfold. case_bool_decide; [auto|].
  cbn [Nat.eqb]. cbv zeta.
  match goal with
  | |- match ?o with _ => _ end = _ -> _ => destruct o
  end; [discriminate | auto | discriminate].
Qed.

(** A greedy run with nothing after it stops only where the text ends or the
    next character is not of the class. *)
Lemma repeat_class_greedy input ic inv atoms (m : Cont -> MatchState -> Outcome) :
  (∀ c x, m c x = compile input ic (CharSet inv atoms) Forward c x) ->
  ∀ fuel min e caps y,
    repeatMatcher m [] fuel min None Matched (mkState e caps) = Matched y ->
    ∀ b, input !! endIndex y = Some b -> charSetMatches ic inv atoms b = false.
Proof.
  intros Hm fuel. induction fuel as [|fuel IH]; intros min e caps y; [discriminate|].
  rewrite repeatMatcher_unfold, bool_decide_eq_false_2 by discriminate.
  cbv zeta. rewrite Hm.
  cbn [compile clearCaptures foldr endIndex captures].
  replace (S e =? e) with false by (symmetry; apply Nat.eqb_neq; lia).
  rewrite andb_false_r.
  destruct (input !! e) as [a|] eqn:Ea.
  2:{ destruct min; [|discriminate]. cbn [Nat.eqb]. intros [= <-] b Hb.
      cbn [endIndex] in Hb. congruence. }
  destruct (charSetMatches ic inv atoms a) eqn:Ec.
  2:{ destruct min; [|discriminate]. cbn [Nat.eqb]. intros [= <-] b Hb.
      cbn [endIndex] in Hb. congruence. }
  destruct min as [|min]; cbn [Nat.eqb pred fmap option_fmap option_map].
  - destruct (repeatMatcher m [] fuel 0 None Matched (mkState (S e) caps))
      as [z| |] eqn:Eo.
    + intros [= <-]. apply (IH _ _ _ _ Eo).
    + exfalso. destruct fuel as [|fuel]; [discriminate|].
      revert Eo. apply repeatMatcher_min0_total. discriminate.
    + discriminate.
  - apply IH.
Qed.

Lemma plus_class_greedy input ic inv atoms x y :
  compile input ic (Seq (plus (CharSet inv atoms)) Empty) Forward Matched x = Matched y ->
  ∀ b, input !! endIndex y = Some b -> charSetMatches ic inv atoms b = false.
Proof.
  destruct x as [e caps]. unfold plus. cbn [compile groupsOf].
  apply (repeat_class_greedy input ic inv atoms). reflexivity.
Qed.

(** X8. The e-mail address returned, when there is one, is a piece of the text
    of the form [local@domain.tld]: the local part begins with a letter or one
    of [._%+-] (never with a digit) and goes on with letters, digits and
    [._%+-]; the domain is one or more letters, digits, dots and hyphens; and
    after the last dot stand two or more letters and nothing else. *)
Theorem extractEmail_shape (text e : jsstring) :
  extractEmail text = Some e ->
  ∃ c loc dom tld,
    e = c :: loc ++ ch "@" :: dom ++ ch "." :: tld
    ∧ isLetter c || anyOf "._%+-" c = true
    ∧ Forall (fun a => isLetter a || isDigit a || anyOf "._%+-" a = true) loc
    ∧ 1 ≤ length dom
    ∧ Forall (fun a => isLetter a || isDigit a || anyOf ".-" a = true) dom
    ∧ 2 ≤ length tld
    ∧ Forall (fun a => isLetter a = true) tld
    ∧ ∃ i, i + length e ≤ length text ∧ e = substring text i (i + length e).
Proof.
  unfold extractEmail. intros E.
  apply firstMatch_Some in E as (i & y & Hi & Hm & Hr & ->).
  assert (Hocc : ∃ i0, i0 + length (substring text i (endIndex y)) ≤ length text
                       ∧ substring text i (endIndex y)
                         = substring text i0 (i0 + length (substring text i (endIndex y)))).
  { exists i. rewrite substring_length by lia.
    replace (i + (endIndex y - i)) with (endIndex y) by lia. split; [lia | reflexivity]. }
  destruct (email_match text i y Hm) as (c & loc & dom & tld & He & H1 & H2 & H3 & H4 & H5 & H6).
  exists c, loc, dom, tld. rewrite <- He. auto 10.
Qed.

Lemma extractEmail_shape_witness :
  extractEmail (js "Mail: 7j.doe@mail.example.org, tel. 555") = Some (js "j.doe@mail.example.org")
  ∧ ∃ c loc dom tld,
      js "j.doe@mail.example.org" = c :: loc ++ ch "@" :: dom ++ ch "." :: tld
      ∧ isLetter c || anyOf "._%+-" c = true
      ∧ Forall (fun a => isLetter a || isDigit a || anyOf "._%+-" a = true) loc
      ∧ 1 ≤ length dom
      ∧ Forall (fun a => isLetter a || isDigit a || anyOf ".-" a = true) dom
      ∧ 2 ≤ length tld
      ∧ Forall (fun a => isLetter a = true) tld
      ∧ ∃ i, i + length (js "j.doe@mail.example.org")
             ≤ length (js "Mail: 7j.doe@mail.example.org, tel. 555")
             ∧ js "j.doe@mail.example.org"
               = substring (js "Mail: 7j.doe@mail.example.org, tel. 555") i
                   (i + length (js "j.doe@mail.example.org")).
Proof.
  split; [vm_compute; reflexivity|].
  apply (extractEmail_shape (js "Mail: 7j.doe@mail.example.org, tel. 555")).
  vm_compute. reflexivity.
Defined.

(** *** The phone number *)

Lemma phone_rest_class a :
  charSetMatches false false [digit09; cc "-"; cc "("; cc ")"; cc " "] a
  = isDigit a || anyOf "-() " a.
Proof. class_cases. Qed.

Lemma phone_match_runs text i y :
  matchAt phoneRegex text i = Matched y ->
  ∃ n0 n1 n2,
    n0 ≤ 1 ∧ 1 ≤ n1 ≤ 3 ∧ 10 ≤ n2 ≤ 20
    ∧ (∀ j, j < n0 -> ∃ a, text !! (i + j) = Some a
                          ∧ charSetMatches false false [CChar (ch "+")] a = true)
    ∧ (∀ j, j < n1 -> ∃ a, text !! (i + n0 + j) = Some a
                          ∧ charSetMatches false false [CDigit] a = true)
    ∧ (∀ j, j < n2 ->
         ∃ a, text !! (i + n0 + n1 + j) = Some a
              ∧ charSetMatches false false
                  [digit09; cc "-"; cc "("; cc ")"; cc " "] a = true)
    ∧ endIndex y = i + n0 + n1 + n2.
Proof.
  unfold matchAt, phoneRegex. cbn [pattern ignoreCaseFlag nGroups seqs foldr].
  unfold opt, one, chr, digit. intros E.
  apply quant_class_inv in E as (n0 & _ & Hn0 & Hsign & E); [|intros mx [= <-]; lia].
  specialize (Hn0 1 eq_refl). cbn [endIndex captures] in *.
  apply quant_class_inv in E as (n1 & Hn1 & Hn1' & Hcode & E); [|intros mx [= <-]; lia].
  specialize (Hn1' 3 eq_refl). cbn [endIndex captures] in *.
  apply quant_class_inv in E as (n2 & Hn2 & Hn2' & Hrest & E); [|intros mx [= <-]; lia].
  specialize (Hn2' 20 eq_refl). cbn [compile endIndex captures] in *.
  injection E as <-. cbn [endIndex].
  exists n0, n1, n2. auto 10.
Qed.

Lemma phone_match text i y :
  matchAt phoneRegex text i = Matched y ->
  ∃ sign code rest,
    substring text i (endIndex y) = sign ++ code ++ rest
    ∧ (sign = [] ∨ sign = [ch "+"])
    ∧ 1 ≤ length code ≤ 3
    ∧ Forall (fun a => isDigit a = true) code
    ∧ 10 ≤ length rest ≤ 20
    ∧ Forall (fun a => isDigit a || anyOf "-() " a = true) rest.
Proof.
  intros E.
  apply phone_match_runs in E
    as (n0 & n1 & n2 & Hn0 & Hn1 & Hn2 & Hsign & Hcode & Hrest & ->).
  destruct (run_substring text _ n0 i (n1 + n2) Hsign) as (sign & Lsign & Fsign & Ssign).
  destruct (run_substring text _ n1 (i + n0) n2 Hcode) as (code & Lcode & Fcode & Scode).
  destruct (run_substring text _ n2 (i + n0 + n1) 0 Hrest) as (rest & Lrest & Frest & Srest).
  rewrite Nat.add_0_r, substring_empty, app_nil_r in Srest.
  exists sign, code, rest. split.
  { end_is (i + n0 + (n1 + n2)). rewrite Ssign. f_equal.
    end_is (i + n0 + n1 + n2). rewrite Scode. f_equal. exact Srest. }
  split.
  { destruct sign as [|a [|b sign]]; [left; reflexivity | right | simpl in Lsign; lia].
    apply Forall_inv in Fsign. apply char_class in Fsign as ->. reflexivity. }
  split; [lia|].
  split; [eapply Forall_impl; [exact Fcode|]; intros a Ha; rewrite <- (digit_matches false); exact Ha|].
  split; [lia|].
  eapply Forall_impl; [exact Frest|]. intros a Ha. rewrite <- phone_rest_class. exact Ha.
Qed.

(** X9. The phone number returned, when there is one, is a piece of the text
    of 11 to 24 characters: an optional [+], one to three digits, and then ten
    to twenty characters that are digits, hyphens, parentheses or spaces. *)
Theorem extractPhoneNumber_shape (text p : jsstring) :
  extractPhoneNumber text = Some p ->
  ∃ sign code rest,
    p = sign ++ code ++ rest
    ∧ (sign = [] ∨ sign = [ch "+"])
    ∧ 1 ≤ length code ≤ 3
    ∧ Forall (fun a => isDigit a = true) code
    ∧ 10 ≤ length rest ≤ 20
    ∧ Forall (fun a => isDigit a || anyOf "-() " a = true) rest
    ∧ 11 ≤ length p ≤ 24
    ∧ ∃ i, i + length p ≤ length text ∧ p = substring text i (i + length p).
Proof.
  unfold extractPhoneNumber. intros E.
  apply firstMatch_Some in E as (i & y & Hi & Hm & Hr & ->).
  assert (Hocc : ∃ i0, i0 + length (substring text i (endIndex y)) ≤ length text
                       ∧ substring text i (endIndex y)
                         = substring text i0 (i0 + length (substring text i (endIndex y)))).
  { exists i. rewrite substring_length by lia.
    replace (i + (endIndex y - i)) with (endIndex y) by lia. split; [lia | reflexivity]. }
  destruct (phone_match text i y Hm) as (sign & code & rest & He & H1 & H2 & H3 & H4 & H5).
  exists sign, code, rest.
  assert (Hlen : 11 ≤ length (substring text i (endIndex y)) ≤ 24).
  { rewrite He, !length_app. destruct H1 as [-> | ->]; simpl; lia. }
  rewrite <- He. auto 10.
Qed.

Lemma extractPhoneNumber_shape_witness :
  extractPhoneNumber (js "Tel.: +44 (20) 7946-0958 ext") = Some (js "+44 (20) 7946-0958 ")
  ∧ ∃ sign code rest,
      js "+44 (20) 7946-0958 " = sign ++ code ++ rest
      ∧ (sign = [] ∨ sign = [ch "+"])
      ∧ 1 ≤ length code ≤ 3
      ∧ Forall (fun a => isDigit a = true) code
      ∧ 10 ≤ length rest ≤ 20
      ∧ Forall (fun a => isDigit a || anyOf "-() " a = true) rest
      ∧ 11 ≤ length (js "+44 (20) 7946-0958 ") ≤ 24
      ∧ ∃ i, i + length (js "+44 (20) 7946-0958 ")
             ≤ length (js "Tel.: +44 (20) 7946-0958 ext")
             ∧ js "+44 (20) 7946-0958 "
               = substring (js "Tel.: +44 (20) 7946-0958 ext") i
                   (i + length (js "+44 (20) 7946-0958 ")).
Proof.
  split; [vm_compute; reflexivity|].
  apply (extractPhoneNumber_shape (js "Tel.: +44 (20) 7946-0958 ext")).
  vm_compute. reflexivity.
Defined.

(** *** The WhatsApp link *)

Lemma whatsapp_match text i y :
  matchAt whatsAppRegex text i = Matched y ->
  ∃ scheme host n,
    (scheme = [] ∨ scheme = js "http://" ∨ scheme = js "https://")
    ∧ (host = js "wa.me" ∨ host = js "api.whatsapp.com")
    ∧ startsWith scheme (drop i text) = true
    ∧ startsWith host (drop (i + length scheme) text) = true
    ∧ text !! (i + length scheme + length host) = Some (ch "/")
    ∧ 1 ≤ n
    ∧ (∀ j, j < n ->
         ∃ a, text !! (S (i + length scheme + length host) + j) = Some a
              ∧ negb (isWhiteSpace a) = true)
    ∧ endIndex y = S (i + length scheme + length host) + n
    ∧ (∀ b, text !! endIndex y = Some b -> isWhiteSpace b = true).
Proof.
  unfold matchAt. cbn [pattern whatsAppRegex nGroups ignoreCaseFlag seqs foldr].
  intros E. apply scheme_inv in E as (scheme & caps & Hscheme & Hs & E).
  assert (Hpath : ∀ host,
            compile text true
              (Seq (Group 2 (literal host Empty))
                 (Seq (one "/") (Seq (plus (CharSet true [CSpace])) Empty)))
              Forward Matched (mkState (i + length scheme) caps) = Matched y ->
            startsWith host (drop (i + length scheme) text) = true
            ∧ text !! (i + length scheme + length host) = Some (ch "/")
            ∧ ∃ n, 1 ≤ n
                   ∧ (∀ j, j < n ->
                        ∃ a, text !! (S (i + length scheme + length host) + j) = Some a
                             ∧ negb (isWhiteSpace a) = true)
                   ∧ endIndex y = S (i + length scheme + length host) + n
                   ∧ (∀ b, text !! endIndex y = Some b -> isWhiteSpace b = true)).
  { intros host E'. apply group_literal_inv in E' as (Hhost & E').
    split; [exact Hhost|].
    apply class_inv in E' as (a & Ha & Hslash & E').
    rewrite symbol_matches in Hslash by reflexivity. apply N.eqb_eq in Hslash as ->.
    cbn [setCapture endIndex captures] in *.
    split; [exact Ha|].
    pose proof (plus_class_greedy _ _ _ _ _ _ E') as Hgreedy.
    apply plus_class_inv in E' as (n & Hn & Hrun & E').
    cbn [compile endIndex captures] in *. injection E' as <-.
    cbn [endIndex] in *. exists n. split; [exact Hn|]. split; [|split; [reflexivity|]].
    - intros j Hj. destruct (Hrun j Hj) as (b & Hb & Hc).
      rewrite not_space_matches in Hc. eauto.
    - intros b Hb. specialize (Hgreedy b Hb). rewrite not_space_matches in Hgreedy.
      apply negb_false_iff in Hgreedy. exact Hgreedy. }
  change (Disj (lit "wa.me") (lit "api.whatsapp.com"))
    with (Disj (literal (js "wa.me") Empty) (literal (js "api.whatsapp.com") Empty)) in E.
  apply group_disj_inv in E as [E | E];
    apply Hpath in E as (Hhost & Hslash & n & Hn & Hrun & Hend & Hstop).
  - exists scheme, (js "wa.me"), n. auto 10.
  - exists scheme, (js "api.whatsapp.com"), n. auto 10.
Qed.

(** Where a WhatsApp host, a slash and a character that is not a blank stand,
    the pattern matches. *)
Lemma whatsapp_match_complete text h host a :
  host = js "wa.me" ∨ host = js "api.whatsapp.com" ->
  startsWith host (drop h text) = true ->
  text !! (h + length host) = Some (ch "/") ->
  text !! (h + length host + 1) = Some a ->
  isWhiteSpace a = false ->
  ∃ y, matchAt whatsAppRegex text h = Matched y.
Proof.
  intros Hhost Hstarts Hslash Ha Hspace. unfold matchAt.
  cbn [pattern whatsAppRegex nGroups ignoreCaseFlag seqs foldr].
  assert (Hfirst : ∃ c b, head host = Some c ∧ (c = ch "w" ∨ c = ch "a")
                          ∧ text !! h = Some b ∧ sameLetter c b = true).
  { destruct Hhost as [-> | ->].
    - destruct (startsWith_lookup _ (drop h text) 0 (ch "w") Hstarts eq_refl)
        as (b & Hb & Hs).
      rewrite lookup_drop, Nat.add_0_r in Hb. exists (ch "w"), b. auto.
    - destruct (startsWith_lookup _ (drop h text) 0 (ch "a") Hstarts eq_refl)
        as (b & Hb & Hs).
      rewrite lookup_drop, Nat.add_0_r in Hb. exists (ch "a"), b. auto. }
  destruct Hfirst as (c & b & Hc & Hwa & Hb & Hcb).
  rewrite optional_scheme_skipped.
  2:{ intros b' Hb'. rewrite Hb in Hb'. injection Hb' as <-.
      destruct (sameLetter (ch "h") b) eqn:E; [|reflexivity].
      rewrite sameLetter_sym in E.
      pose proof (sameLetter_trans _ _ _ Hcb E) as Hcontra.
      destruct Hwa as [-> | ->]; vm_compute in Hcontra; discriminate. }
  assert (Hpath : ∀ st, endIndex st = h + length host ->
            ∃ y, compile text true
                   (Seq (one "/") (Seq (plus (CharSet true [CSpace])) Empty))
                   Forward Matched st = Matched y).
  { intros [e caps] He. cbn [endIndex] in He. subst e.
    cbn [compile one chr endIndex captures].
    rewrite Hslash, symbol_matches, N.eqb_refl by reflexivity.
    replace (S (h + length host)) with (h + length host + 1) by lia.
    apply (plus_class_total text true true [CSpace] _ _ a Ha).
    rewrite not_space_matches, Hspace. reflexivity. }
  change (Disj (lit "wa.me") (lit "api.whatsapp.com"))
    with (Disj (literal (js "wa.me") Empty) (literal (js "api.whatsapp.com") Empty)).
  rewrite group_disj_step, !group_literal_step.
  destruct Hhost as [-> | ->].
  - rewrite Hstarts.
    destruct (Hpath (setCapture 2 (h, h + length (js "wa.me"))
                       (mkState (h + length (js "wa.me")) (replicate 2 None))) eq_refl)
      as (y & ->).
    eauto.
  - assert (startsWith (js "wa.me") (drop h text) = false) as ->.
    { apply (startsWith_head_false _ _ (ch "w")); [reflexivity|].
      intros b' Hb'. rewrite head_lookup, lookup_drop, Nat.add_0_r, Hb in Hb'.
      injection Hb' as <-. injection Hc as <-.
      destruct (sameLetter (ch "w") b) eqn:E; [|reflexivity].
      rewrite sameLetter_sym in E.
      pose proof (sameLetter_trans _ _ _ Hcb E) as Hcontra.
      vm_compute in Hcontra. discriminate. }
    rewrite Hstarts.
    destruct (Hpath (setCapture 2 (h, h + length (js "api.whatsapp.com"))
                       (mkState (h + length (js "api.whatsapp.com")) (replicate 2 None)))
                eq_refl) as (y & ->).
    eauto.
Qed.

(** X10. The WhatsApp link returned, when there is one, is a piece of the
    text made of: nothing or the scheme [http://] or [https://], the host
    [wa.me] or [api.whatsapp.com], a slash (all in any case), and a path of one
    or more characters that are not blanks.  The path is never cut short: the
    piece ends where the text ends or a blank follows, so punctuation after a
    link is part of the result. *)
Theorem extractWhatsApp_shape (text u : jsstring) :
  extractWhatsApp text = Some u ->
  ∃ scheme host pre path,
    (scheme = [] ∨ scheme = js "http://" ∨ scheme = js "https://")
    ∧ (host = js "wa.me" ∨ host = js "api.whatsapp.com")
    ∧ u = pre ++ path
    ∧ sameText (scheme ++ host ++ js "/") pre = true
    ∧ 1 ≤ length path
    ∧ Forall (fun a => isWhiteSpace a = false) path
    ∧ ∃ i, i + length u ≤ length text
           ∧ u = substring text i (i + length u)
           ∧ ∀ b, text !! (i + length u) = Some b -> isWhiteSpace b = true.
Proof.
  unfold extractWhatsApp. intros E.
  apply firstMatch_Some in E as (i & y & Hi & Hm & Hr & ->).
  destruct (whatsapp_match text i y Hm)
    as (scheme & host & n & Hscheme & Hhost & Hs & Hh & Hslash & Hn & Hrun & Hend & Hstop).
  destruct (run_substring text _ n _ 0 Hrun) as (path & Lpath & Fpath & Spath).
  rewrite Nat.add_0_r, substring_empty, app_nil_r in Spath.
  exists scheme, host, (substring text i (i + length (scheme ++ host ++ js "/"))), path.
  split; [exact Hscheme|]. split; [exact Hhost|].
  assert (Hpre : length (scheme ++ host ++ js "/") = length scheme + length host + 1)
    by (rewrite !length_app; simpl; lia).
  split.
  { rewrite <- Spath, Hend, Hpre.
    replace (i + (length scheme + length host + 1))
      with (S (i + length scheme + length host)) by lia.
    apply substring_app. lia. }
  split.
  { apply sameText_substring.
    change (js "/") with [ch "/"].
    rewrite !startsWith_app, Hs, !drop_drop, Hh.
    rewrite (startsWith_single text _ (ch "/") (ch "/") Hslash eq_refl). reflexivity. }
  split; [lia|].
  split.
  { eapply Forall_impl; [exact Fpath|]. intros a Ha. apply negb_true_iff in Ha. exact Ha. }
  exists i. rewrite substring_length by lia.
  replace (i + (endIndex y - i)) with (endIndex y) by lia.
  split; [lia|]. split; [reflexivity | exact Hstop].
Qed.

Lemma extractWhatsApp_shape_witness :
  extractWhatsApp (js "Chat: HTTPS://Wa.Me/15551234567). Or mail") = Some (js "HTTPS://Wa.Me/15551234567).")
  ∧ ∃ scheme host pre path,
      (scheme = [] ∨ scheme = js "http://" ∨ scheme = js "https://")
      ∧ (host = js "wa.me" ∨ host = js "api.whatsapp.com")
      ∧ js "HTTPS://Wa.Me/15551234567)." = pre ++ path
      ∧ sameText (scheme ++ host ++ js "/") pre = true
      ∧ 1 ≤ length path
      ∧ Forall (fun a => isWhiteSpace a = false) path
      ∧ ∃ i, i + length (js "HTTPS://Wa.Me/15551234567).")
             ≤ length (js "Chat: HTTPS://Wa.Me/15551234567). Or mail")
             ∧ js "HTTPS://Wa.Me/15551234567)."
               = substring (js "Chat: HTTPS://Wa.Me/15551234567). Or mail") i
                   (i + length (js "HTTPS://Wa.Me/15551234567)."))
             ∧ ∀ b, js "Chat: HTTPS://Wa.Me/15551234567). Or mail"
                      !! (i + length (js "HTTPS://Wa.Me/15551234567).")) = Some b ->
                    isWhiteSpace b = true.
Proof.
  split; [vm_compute; reflexivity|].
  apply (extractWhatsApp_shape (js "Chat: HTTPS://Wa.Me/15551234567). Or mail")).
  vm_compute. reflexivity.
Defined.

(** X11. The WhatsApp extractor answers a link exactly when the text holds,
    somewhere, one of the two hosts in any case, a slash right after it, and
    then a character that is not a blank. *)
Theorem extractWhatsApp_iff (text : jsstring) :
  is_Some (extractWhatsApp text)
  ↔ ∃ h host a,
      (host = js "wa.me" ∨ host = js "api.whatsapp.com")
      ∧ startsWith host (drop h text) = true
      ∧ text !! (h + length host) = Some (ch "/")
      ∧ text !! (h + length host + 1) = Some a
      ∧ isWhiteSpace a = false.
Proof.
  unfold extractWhatsApp. split.
  - intros [u E]. apply firstMatch_Some in E as (i & y & Hi & Hm & Hr & ->).
    destruct (whatsapp_match text i y Hm)
      as (scheme & host & n & Hscheme & Hhost & Hs & Hh & Hslash & Hn & Hrun & Hend & Hstop).
    destruct (Hrun 0 ltac:(lia)) as (a & Ha & Hspace).
    exists (i + length scheme), host, a.
    split; [exact Hhost|]. split; [exact Hh|]. split; [exact Hslash|]. split.
    + rewrite <- Ha. f_equal. lia.
    + apply negb_true_iff in Hspace. exact Hspace.
  - intros (h & host & a & Hhost & Hstarts & Hslash & Ha & Hspace).
    destruct (whatsapp_match_complete text h host a Hhost Hstarts Hslash Ha Hspace)
      as (y0 & Hy0).
    assert (Hh : h ≤ length text) by (apply lookup_lt_Some in Ha; lia).
    destruct (leftmost_match whatsAppRegex text h y0 Hh Hy0)
      as (i & y & Hi & Hy & Hleft).
    rewrite firstMatch_exec.
    rewrite (exec_first_match whatsAppRegex text i y ltac:(lia) Hy Hleft).
    eexists. reflexivity.
Qed.

(** *** The LinkedIn link *)

Lemma handle_class a :
  charSetMatches true false [CRange (ch "A") (ch "z"); digit09; cc "_"; cc "-"] a
  = isHandleChar a.
Proof.
  unfold charSetMatches, classHas, isHandleChar, anyOf, digit09, cc, asciiUpper, asciiLower.
  eval_chars. cbn [existsb atomHas].
  destruct (inRange 97 122 a) eqn:E1; destruct (inRange 65 90 a) eqn:E2;
    revert E1 E2; n_cases.
Qed.

(** What may stand before the host: a scheme, [www.], both or nothing. *)
Lemma linkedin_prefix_inv text r k e caps y :
  compile text true
    (Seq (opt (Group 1 (seqs [ opt (Group 2 (seqs [lit "http"; opt (one "s"); lit "://"]));
                               opt (Group 3 (lit "www.")) ]))) r)
    Forward k (mkState e caps) = Matched y ->
  ∃ scheme www caps',
    (scheme = [] ∨ scheme = js "http://" ∨ scheme = js "https://")
    ∧ (www = [] ∨ www = js "www.")
    ∧ startsWith (scheme ++ www) (drop e text) = true
    ∧ compile text true r Forward k (mkState (e + length (scheme ++ www)) caps')
      = Matched y.
Proof.
  unfold opt at 1. rewrite seq_step, quant_step.
  change (1 + 0 + length text) with (S (length text)).
  rewrite repeatMatcher_unfold, bool_decide_eq_false_2 by discriminate.
  cbn [Nat.eqb andb]. cbv zeta.
  unfold clearCaptures. cbn [endIndex captures].
  match goal with
  | |- match ?o with _ => _ end = _ -> _ => destruct o as [z| |] eqn:Eo
  end.
  2:{ intros E. exists [], [], caps. split; [left; reflexivity|].
      split; [left; reflexivity|]. split; [reflexivity|].
      rewrite Nat.add_0_r. exact E. }
  2:{ discriminate. }
  intros [= ->].
  rewrite group_alone_step in Eo.
  change (seqs [ opt (Group 2 (seqs [lit "http"; opt (one "s"); lit "://"]));
                 opt (Group 3 (lit "www.")) ])
    with (Seq (opt (Group 2 (seqs [lit "http"; opt (one "s"); lit "://"])))
            (Seq (opt (Group 3 (literal (js "www.") Empty))) Empty)) in Eo.
  apply scheme_inv in Eo as (scheme & caps1 & Hscheme & Hs & Eo).
  apply opt_literal_inv in Eo as (www & caps2 & Hwww & Hw & Eo).
  rewrite empty_step in Eo. cbn [setCapture endIndex captures] in Eo.
  destruct (e + length scheme + length www =? e); [discriminate|].
  destruct (length text) as [|fuel]; [discriminate|].
  cbn [pred fmap option_fmap option_map] in Eo.
  rewrite repeatMatcher_unfold, bool_decide_eq_true_2 in Eo by reflexivity.
  eexists scheme, www, _. split; [exact Hscheme|]. split; [exact Hwww|]. split.
  - rewrite startsWith_app, Hs, drop_drop, Hw. reflexivity.
  - rewrite length_app, Nat.add_assoc. exact Eo.
Qed.

Lemma linkedin_match text i y :
  matchAt linkedInRegex text i = Matched y ->
  ∃ scheme www inn n,
    (scheme = [] ∨ scheme = js "http://" ∨ scheme = js "https://")
    ∧ (www = [] ∨ www = js "www.")
    ∧ (inn = [] ∨ inn = js "in/")
    ∧ startsWith (scheme ++ www ++ js "linkedin.com/" ++ inn) (drop i text) = true
    ∧ 1 ≤ n
    ∧ (∀ j, j < n ->
         ∃ a, text !! (i + length (scheme ++ www ++ js "linkedin.com/" ++ inn) + j) = Some a
              ∧ isHandleChar a = true)
    ∧ endIndex y = i + length (scheme ++ www ++ js "linkedin.com/" ++ inn) + n
    ∧ (∀ b, text !! endIndex y = Some b -> isHandleChar b = false).
Proof.
  unfold matchAt. cbn [pattern linkedInRegex nGroups ignoreCaseFlag].
  change (seqs [ opt (Group 1 (seqs [ opt (Group 2 (seqs [lit "http"; opt (one "s"); lit "://"]));
                                      opt (Group 3 (lit "www.")) ]));
                 lit "linkedin.com/";
                 opt (Group 4 (lit "in/"));
                 plus (CharSet false [CRange (ch "A") (ch "z"); digit09; cc "_"; cc "-"]) ])
    with (Seq (opt (Group 1 (seqs [ opt (Group 2 (seqs [lit "http"; opt (one "s"); lit "://"]));
                                    opt (Group 3 (lit "www.")) ])))
            (Seq (literal (js "linkedin.com/") Empty)
               (Seq (opt (Group 4 (literal (js "in/") Empty)))
                  (Seq (plus (CharSet false [CRange (ch "A") (ch "z"); digit09; cc "_"; cc "-"]))
                     Empty)))).
  intros E.
  apply linkedin_prefix_inv in E as (scheme & www & caps1 & Hscheme & Hwww & Hp & E).
  rewrite seq_step, compile_literal in E.
  destruct (startsWith (js "linkedin.com/") (drop (i + length (scheme ++ www)) text))
    eqn:Hhost; [|discriminate].
  rewrite empty_step in E.
  apply opt_literal_inv in E as (inn & caps2 & Hinn & Hi & E).
  pose proof (plus_class_greedy _ _ _ _ _ _ E) as Hgreedy.
  apply plus_class_inv in E as (n & Hn & Hrun & E).
  cbn [compile endIndex captures] in *. injection E as <-. cbn [endIndex] in *.
  assert (Hlen : length (scheme ++ www ++ js "linkedin.com/" ++ inn)
                 = length (scheme ++ www) + length (js "linkedin.com/") + length inn)
    by (rewrite !length_app; lia).
  exists scheme, www, inn, n.
  split; [exact Hscheme|]. split; [exact Hwww|]. split; [exact Hinn|]. split.
  { rewrite (app_assoc scheme www), (app_assoc (scheme ++ www)).
    do 2 rewrite startsWith_app. rewrite Hp, !drop_drop, Hhost.
    rewrite (length_app (scheme ++ www)), Nat.add_assoc, Hi. reflexivity. }
  split; [exact Hn|]. rewrite Hlen.
  change (length (js "linkedin.com/")) with 13 in *.
  split; [|split].
  - intros j Hj. destruct (Hrun j Hj) as (a & Ha & Hc). rewrite handle_class in Hc.
    exists a. split; [|exact Hc]. rewrite <- Ha. f_equal. lia.
  - lia.
  - intros b Hb. rewrite <- handle_class. apply Hgreedy. rewrite <- Hb. f_equal.
Qed.

(** Where the host, a slash and a handle character stand, the pattern matches. *)
Lemma linkedin_match_complete text h a :
  startsWith (js "linkedin.com/") (drop h text) = true ->
  text !! (h + length (js "linkedin.com/")) = Some a ->
  isHandleChar a = true ->
  ∃ y, matchAt linkedInRegex text h = Matched y.
Proof.
  intros Hstarts Ha Hc.
  assert (Hh : h ≤ length text) by (apply lookup_lt_Some in Ha; lia).
  destruct (matchAt linkedInRegex text h) as [y| |] eqn:E; [eauto | exfalso | exfalso].
  - revert E. unfold matchAt. cbn [pattern linkedInRegex nGroups ignoreCaseFlag].
    change (seqs [ opt (Group 1 (seqs [ opt (Group 2 (seqs [lit "http"; opt (one "s"); lit "://"]));
                                        opt (Group 3 (lit "www.")) ]));
                   lit "linkedin.com/";
                   opt (Group 4 (lit "in/"));
                   plus (CharSet false [CRange (ch "A") (ch "z"); digit09; cc "_"; cc "-"]) ])
      with (Seq (opt (Group 1 (seqs [ opt (Group 2 (seqs [lit "http"; opt (one "s"); lit "://"]));
                                      opt (Group 3 (lit "www.")) ])))
              (Seq (literal (js "linkedin.com/") Empty)
                 (Seq (opt (Group 4 (literal (js "in/") Empty)))
                    (Seq (plus (CharSet false [CRange (ch "A") (ch "z"); digit09; cc "_"; cc "-"]))
                       Empty)))).
    intros E. unfold opt at 1 in E. apply quant_min0_failure in E.
    rewrite seq_step, compile_literal, Hstarts, empty_step in E.
    unfold opt in E. apply quant_min0_failure in E.
    destruct (plus_class_total text true false
                [CRange (ch "A") (ch "z"); digit09; cc "_"; cc "-"]
                (h + length (js "linkedin.com/")) (replicate 4 None) a Ha) as (y & Hy).
    { rewrite handle_class. exact Hc. }
    congruence.
  - revert E. apply matchAt_fuel. exact Hh.
Qed.

(** X12. The LinkedIn link returned, when there is one, is a piece of the text
    made of: nothing or a scheme, nothing or [www.], the host and slash
    [linkedin.com/], nothing or [in/] (all in any case), and a handle of one or
    more characters of [[A-z0-9_-]], that is letters, digits, [_], [-] and the
    bracket, backslash, caret and backquote that lie between [Z] and [a].  The
    handle is never cut short: it ends where the text ends or a character
    outside that set follows. *)
Theorem extractLinkedIn_shape (text u : jsstring) :
  extractLinkedIn text = Some u ->
  ∃ scheme www inn pre handle,
    (scheme = [] ∨ scheme = js "http://" ∨ scheme = js "https://")
    ∧ (www = [] ∨ www = js "www.")
    ∧ (inn = [] ∨ inn = js "in/")
    ∧ u = pre ++ handle
    ∧ sameText (scheme ++ www ++ js "linkedin.com/" ++ inn) pre = true
    ∧ 1 ≤ length handle
    ∧ Forall (fun a => isHandleChar a = true) handle
    ∧ ∃ i, i + length u ≤ length text
           ∧ u = substring text i (i + length u)
           ∧ ∀ b, text !! (i + length u) = Some b -> isHandleChar b = false.
Proof.
  unfold extractLinkedIn. intros E.
  apply firstMatch_Some in E as (i & y & Hi & Hm & Hr & ->).
  destruct (linkedin_match text i y Hm)
    as (scheme & www & inn & n & Hscheme & Hwww & Hinn & Hp & Hn & Hrun & Hend & Hstop).
  destruct (run_substring text _ n _ 0 Hrun) as (handle & Lh & Fh & Sh).
  rewrite Nat.add_0_r, substring_empty, app_nil_r in Sh.
  exists scheme, www, inn,
    (substring text i (i + length (scheme ++ www ++ js "linkedin.com/" ++ inn))), handle.
  split; [exact Hscheme|]. split; [exact Hwww|]. split; [exact Hinn|].
  split; [rewrite <- Sh, Hend; apply substring_app; lia|].
  split; [apply sameText_substring; exact Hp|].
  split; [lia|]. split; [exact Fh|].
  exists i. rewrite substring_length by lia.
  replace (i + (endIndex y - i)) with (endIndex y) by lia.
  split; [lia|]. split; [reflexivity | exact Hstop].
Qed.

Lemma extractLinkedIn_shape_witness :
  extractLinkedIn (js "See www.LinkedIn.com/in/j_doe^[x].") = Some (js "www.LinkedIn.com/in/j_doe^[x]")
  ∧ ∃ scheme www inn pre handle,
      (scheme = [] ∨ scheme = js "http://" ∨ scheme = js "https://")
      ∧ (www = [] ∨ www = js "www.")
      ∧ (inn = [] ∨ inn = js "in/")
      ∧ js "www.LinkedIn.com/in/j_doe^[x]" = pre ++ handle
      ∧ sameText (scheme ++ www ++ js "linkedin.com/" ++ inn) pre = true
      ∧ 1 ≤ length handle
      ∧ Forall (fun a => isHandleChar a = true) handle
      ∧ ∃ i, i + length (js "www.LinkedIn.com/in/j_doe^[x]")
             ≤ length (js "See www.LinkedIn.com/in/j_doe^[x].")
             ∧ js "www.LinkedIn.com/in/j_doe^[x]"
               = substring (js "See www.LinkedIn.com/in/j_doe^[x].") i
                   (i + length (js "www.LinkedIn.com/in/j_doe^[x]"))
             ∧ ∀ b, js "See www.LinkedIn.com/in/j_doe^[x]."
                      !! (i + length (js "www.LinkedIn.com/in/j_doe^[x]")) = Some b ->
                    isHandleChar b = false.
Proof.
  split; [vm_compute; reflexivity|].
  apply (extractLinkedIn_shape (js "See www.LinkedIn.com/in/j_doe^[x].")).
  vm_compute. reflexivity.
Defined.

(** X13. The LinkedIn extractor answers a link exactly when the text holds,
    somewhere, [linkedin.com/] in any case with a character of [[A-z0-9_-]]
    right after it. *)
Theorem extractLinkedIn_iff (text : jsstring) :
  is_Some (extractLinkedIn text)
  ↔ ∃ h a,
      startsWith (js "linkedin.com/") (drop h text) = true
      ∧ text !! (h + length (js "linkedin.com/")) = Some a
      ∧ isHandleChar a = true.
Proof.
  unfold extractLinkedIn. split.
  - intros [u E]. apply firstMatch_Some in E as (i & y & Hi & Hm & Hr & ->).
    destruct (linkedin_match text i y Hm)
      as (scheme & www & inn & n & Hscheme & Hwww & Hinn & Hp & Hn & Hrun & Hend & Hstop).
    rewrite (app_assoc scheme www), (app_assoc (scheme ++ www)) in Hp, Hrun.
    rewrite startsWith_app in Hp. apply andb_true_iff in Hp as [Hp Hi'].
    rewrite startsWith_app in Hp. apply andb_true_iff in Hp as [Hp Hhost].
    rewrite !drop_drop in *.
    destruct Hinn as [-> | ->].
    + destruct (Hrun 0 ltac:(lia)) as (a & Ha & Hc).
      exists (i + length (scheme ++ www)), a. split; [exact Hhost|]. split; [|exact Hc].
      rewrite <- Ha. f_equal. rewrite !length_app. simpl. lia.
    + destruct (startsWith_lookup _ _ 0 (ch "i") Hi' eq_refl) as (a & Ha & Hia).
      rewrite lookup_drop in Ha.
      exists (i + length (scheme ++ www)), a. split; [exact Hhost|]. split.
      * rewrite <- Ha. f_equal. rewrite !length_app. simpl. lia.
      * revert Hia. unfold sameLetter, asciiUpper, isHandleChar, anyOf.
        eval_chars. cbn [existsb].
        destruct (inRange 97 122 a) eqn:E1; revert E1; n_cases.
  - intros (h & a & Hstarts & Ha & Hc).
    destruct (linkedin_match_complete text h a Hstarts Ha Hc) as (y0 & Hy0).
    assert (Hh : h ≤ length text) by (apply lookup_lt_Some in Ha; lia).
    destruct (leftmost_match linkedInRegex text h y0 Hh Hy0)
      as (i & y & Hi & Hy & Hleft).
    rewrite firstMatch_exec.
    rewrite (exec_first_match linkedInRegex text i y ltac:(lia) Hy Hleft).
    eexists. reflexivity.
Qed.

(** *** The name *)

Lemma split_cons sep (s : jsstring) :
  ∃ p ps, split sep s = p :: ps
          ∧ (sep ∉ p)
          ∧ ((ps = [] ∧ s = p) ∨ (∃ tail, s = p ++ sep :: tail ∧ ps = split sep tail)).
Proof.
  induction s as [|a s IH].
  - exists [], []. split; [reflexivity|]. split; [apply not_elem_of_nil|]. left. auto.
  - cbn [split]. destruct (N.eqb_spec a sep) as [-> | Hne].
    + exists [], (split sep s). split; [reflexivity|]. split; [apply not_elem_of_nil|].
      right. exists s. auto.
    + destruct IH as (p & ps & -> & Hp & Hcase).
      exists (a :: p), ps. split; [reflexivity|]. split.
      * rewrite not_elem_of_cons. split; [congruence | exact Hp].
      * destruct Hcase as [[-> ->] | (tail & -> & ->)]; [left; auto|].
        right. exists tail. auto.
Qed.

Lemma split_single sep (q : jsstring) : length (split sep q) = 1 ↔ sep ∉ q.
Proof.
  destruct (split_cons sep q) as (p & ps & E & Hp & [[-> ->] | (tail & -> & ->)]).
  - rewrite E. split; [intros _; exact Hp | reflexivity].
  - rewrite E. destruct (split_cons sep tail) as (p' & ps' & E' & _). rewrite E'.
    split; [discriminate|]. intros Hno. exfalso. apply Hno.
    apply elem_of_app. right. apply elem_of_cons. left. reflexivity.
Qed.

(** X14. What the name extractor answers when the recognizer finds a person:
    the first name is the first person up to its first space.  When a space
    follows, the last name is what stands between that space and the next one
    (of "Ana Maria Silva" it is "Maria"; the rest of the name is dropped);
    when that is empty, or the first person is a single word, the last name is
    the second person, provided there is one and it has no space.  Neither name
    holds a space. *)
Theorem extractFullName_names `{Runtime} (text fullName : jsstring)
    (others : list jsstring) :
  people text = fullName :: others ->
  ∃ first tail last,
    extractFullName text = Return (first, last)
    ∧ fullName = first ++ tail
    ∧ (ch " " ∉ first)
    ∧ (∀ l, last = Some l -> ch " " ∉ l)
    ∧ match tail with
      | [] =>
          last = match others with
                 | q :: _ => if bool_decide (ch " " ∈ q) then None else Some q
                 | [] => None
                 end
      | _ =>
          ∃ second tail',
            tail = ch " " :: second ++ tail'
            ∧ (ch " " ∉ second)
            ∧ (tail' = [] ∨ head tail' = Some (ch " "))
            ∧ last = match second, others with
                     | [], q :: _ => if bool_decide (ch " " ∈ q) then Some [] else Some q
                     | _, _ => Some second
                     end
      end.
Proof.
  intros Hpeople. unfold extractFullName. rewrite Hpeople. cbn [lookup list_lookup].
  assert (Hsecond : ∀ q, bool_decide ((fun p => length (split (ch " ") p)) <$> Some q = Some 1)
                         = negb (bool_decide (ch " " ∈ q))).
  { intros q. cbn [fmap option_fmap option_map].
    destruct (bool_decide_reflect (ch " " ∈ q)) as [Hin | Hno]; cbn [negb].
    - apply bool_decide_eq_false_2. intros [= E]. apply split_single in E. auto.
    - apply bool_decide_eq_true_2. f_equal. apply split_single. exact Hno. }
  destruct (split_cons (ch " ") fullName)
    as (first & ps & -> & Hfirst & [[-> ->] | (tail & -> & ->)]).
  - exists first, [], (match others with
                       | q :: _ => if bool_decide (ch " " ∈ q) then None else Some q
                       | [] => None
                       end).
    cbn [lookup list_lookup default truthy negb andb]. unfold id.
    split.
    { destruct others as [|q others]; cbn [lookup list_lookup head].
      - reflexivity.
      - rewrite Hsecond. destruct (bool_decide (ch " " ∈ q)); reflexivity. }
    split; [rewrite app_nil_r; reflexivity|]. split; [exact Hfirst|].
    split; [|reflexivity].
    intros l. destruct others as [|q others]; [discriminate|].
    destruct (bool_decide_reflect (ch " " ∈ q)); [discriminate|]. intros [= <-]. assumption.
  - destruct (split_cons (ch " ") tail)
      as (second & ps' & -> & Hsec & Hcase).
    assert (Htail : ∃ tail', tail = second ++ tail'
                             ∧ (tail' = [] ∨ head tail' = Some (ch " "))).
    { destruct Hcase as [[_ ->] | (tail' & -> & _)].
      - exists []. rewrite app_nil_r. auto.
      - exists (ch " " :: tail'). auto. }
    destruct Htail as (tail' & -> & Htail').
    exists first, (ch " " :: second ++ tail'),
      (match second, others with
       | [], q :: _ => if bool_decide (ch " " ∈ q) then Some [] else Some q
       | _, _ => Some second
       end).
    cbn [lookup list_lookup default]. unfold id.
    split.
    { destruct second as [|c second]; cbn [truthy negb andb]; [|reflexivity].
      destruct others as [|q others]; cbn [lookup list_lookup].
      - reflexivity.
      - rewrite Hsecond. destruct (bool_decide (ch " " ∈ q)); reflexivity. }
    split; [reflexivity|]. split; [exact Hfirst|].
    split.
    { intros l. destruct second as [|c second].
      - destruct others as [|q others]; [intros [= <-]; apply not_elem_of_nil|].
        destruct (bool_decide_reflect (ch " " ∈ q)); intros [= <-];
          [apply not_elem_of_nil | assumption].
      - intros [= <-]. exact Hsec. }
    exists second, tail'. auto.
Qed.

Lemma extractFullName_names_witness :
  ∃ first tail last,
    @extractFullName (Demo.runtime (inr (js "cv")) [js "Ana Maria Silva"; js "Bo"] [])
      (js "cv") = Return (first, last)
    ∧ js "Ana Maria Silva" = first ++ tail
    ∧ (ch " " ∉ first)
    ∧ (∀ l, last = Some l -> ch " " ∉ l)
    ∧ match tail with
      | [] =>
          last = match [js "Bo"] with
                 | q :: _ => if bool_decide (ch " " ∈ q) then None else Some q
                 | [] => None
                 end
      | _ =>
          ∃ second tail',
            tail = ch " " :: second ++ tail'
            ∧ (ch " " ∉ second)
            ∧ (tail' = [] ∨ head tail' = Some (ch " "))
            ∧ last = match second, [js "Bo"] with
                     | [], q :: _ => if bool_decide (ch " " ∈ q) then Some [] else Some q
                     | _, _ => Some second
                     end
      end.
Proof.
  apply (@extractFullName_names
           (Demo.runtime (inr (js "cv")) [js "Ana Maria Silva"; js "Bo"] [])
           (js "cv") (js "Ana Maria Silva") [js "Bo"]).
  reflexivity.
Defined.

(** *** Where the phone pattern matches *)

Lemma repeat_min0_failure m gs fuel max k x :
  repeatMatcher m gs (S fuel) 0 max k x = Failure -> k x = Failure.
Proof.
  rewrite repeatMatcher_unfold. case_bool_decide; [auto|].
  cbn [Nat.eqb]. cbv zeta.
  match goal with
  | |- match ?o with _ => _ end = _ -> _ => destruct o
  end; [discriminate | auto | discriminate].
Qed.

Lemma class_step input ic inv atoms k x :
  compile input ic (CharSet inv atoms) Forward k x
  = match input !! endIndex x with
    | Some a =>
        if charSetMatches ic inv atoms a
        then k (mkState (S (endIndex x)) (captures x))
        else Failure
    | None => Failure
    end.
Proof. reflexivity. Qed.

(** A run of a class with enough characters of the class ahead does not
    fail when what follows does not. *)
Lemma repeat_class_available input ic inv atoms (m : Cont -> MatchState -> Outcome) k :
  (∀ c x, m c x = compile input ic (CharSet inv atoms) Forward c x) ->
  (∀ x, k x ≠ Failure) ->
  ∀ min fuel max e caps,
    min < fuel ->
    (∀ mx, max = Some mx -> min ≤ mx) ->
    (∀ j, j < min -> ∃ a, input !! (e + j) = Some a
                          ∧ charSetMatches ic inv atoms a = true) ->
    repeatMatcher m [] fuel min max k (mkState e caps) ≠ Failure.
Proof.
  intros Hm Hk min. induction min as [|min IH]; intros fuel max e caps Hfuel Hmax Hrun.
  - destruct fuel as [|fuel]; [lia|]. apply repeatMatcher_min0_total. exact Hk.
  - destruct fuel as [|fuel]; [lia|].
    rewrite repeatMatcher_unfold.
    rewrite bool_decide_eq_false_2 by (intros E; specialize (Hmax 0 E); lia).
    cbn [Nat.eqb andb]. cbv zeta. rewrite Hm, class_step.
    unfold clearCaptures. cbn [endIndex captures foldr].
    destruct (Hrun 0 ltac:(lia)) as (a & Ha & Hc). rewrite Nat.add_0_r in Ha.
    rewrite Ha, Hc. cbn [pred]. apply IH; [lia | |].
    + intros mx Hmx. destruct max as [mx'|]; [|discriminate].
      injection Hmx as <-. specialize (Hmax mx' eq_refl). lia.
    + intros j Hj. destruct (Hrun (S j) ltac:(lia)) as (b & Hb & Hcb).
      rewrite Nat.add_succ_r in Hb. eauto.
Qed.

Lemma phone_match_complete text h d :
  text !! h = Some d ->
  isDigit d = true ->
  (∀ j, 1 ≤ j ≤ 10 -> ∃ a, text !! (h + j) = Some a
                           ∧ isDigit a || anyOf "-() " a = true) ->
  ∃ y, matchAt phoneRegex text h = Matched y.
Proof.
  intros Hd Pd Hrun.
  assert (Hh : h ≤ length text) by (apply lookup_lt_Some in Hd; lia).
  destruct (matchAt phoneRegex text h) as [y| |] eqn:E; [eauto | exfalso | exfalso].
  - revert E. unfold matchAt, phoneRegex. cbn [pattern ignoreCaseFlag nGroups seqs foldr].
    unfold opt at 1. intros E. apply quant_min0_failure in E.
    rewrite seq_step, quant_step in E.
    change (1 + 1 + length text) with (S (S (length text))) in E.
    rewrite repeatMatcher_unfold, bool_decide_eq_false_2 in E by discriminate.
    cbn [Nat.eqb andb] in E. cbv zeta in E. unfold digit in E.
    rewrite class_step in E. unfold clearCaptures in E.
    cbn [endIndex captures foldr groupsOf] in E.
    rewrite Hd, digit_matches, Pd in E.
    cbn [pred fmap option_fmap option_map] in E.
    apply repeat_min0_failure in E.
    rewrite seq_step, quant_step in E. revert E.
    apply (repeat_class_available text false false
             [digit09; cc "-"; cc "("; cc ")"; cc " "]).
    + reflexivity.
    + discriminate.
    + lia.
    + intros mx [= <-]. lia.
    + intros j Hj. destruct (Hrun (S j) ltac:(lia)) as (a & Ha & Hc).
      exists a. rewrite phone_rest_class. split; [|exact Hc].
      rewrite <- Ha. f_equal. cbn [endIndex]. lia.
  - revert E. apply matchAt_fuel. exact Hh.
Qed.

(** X15. The phone extractor answers a number exactly when the text holds,
    somewhere, a digit followed by ten characters that are digits, hyphens,
    parentheses or spaces: a range of years such as "2019 - 2021" is taken
    for a phone number. *)
Theorem extractPhoneNumber_iff :
  (∀ text : jsstring,
     is_Some (extractPhoneNumber text)
     ↔ ∃ h d,
         text !! h = Some d
         ∧ isDigit d = true
         ∧ ∀ j, 1 ≤ j ≤ 10 -> ∃ a, text !! (h + j) = Some a
                                   ∧ isDigit a || anyOf "-() " a = true)
  ∧ extractPhoneNumber (js "Acme Ltd, 2019 - 2021") = Some (js "2019 - 2021").
Proof.
  split; [|vm_compute; reflexivity].
  intros text. unfold extractPhoneNumber. split.
  - intros [p E]. apply firstMatch_Some in E as (i & y & Hi & Hm & Hr & ->).
    apply phone_match_runs in Hm
      as (n0 & n1 & n2 & Hn0 & Hn1 & Hn2 & Hsign & Hcode & Hrest & Hend).
    destruct (Hcode 0 ltac:(lia)) as (d & Hd & Pd).
    rewrite Nat.add_0_r in Hd. rewrite digit_matches in Pd.
    exists (i + n0), d. split; [exact Hd|]. split; [exact Pd|].
    intros j Hj. destruct (le_lt_dec n1 j) as [Hge | Hlt].
    + destruct (Hrest (j - n1) ltac:(lia)) as (a & Ha & Pa).
      exists a. rewrite <- phone_rest_class. split; [|exact Pa].
      rewrite <- Ha. f_equal. lia.
    + destruct (Hcode j Hlt) as (a & Ha & Pa). rewrite digit_matches in Pa.
      exists a. rewrite Pa. split; [exact Ha | reflexivity].
  - intros (h & d & Hd & Pd & Hrun).
    destruct (phone_match_complete text h d Hd Pd Hrun) as (y0 & Hy0).
    assert (Hh : h ≤ length text) by (apply lookup_lt_Some in Hd; lia).
    destruct (leftmost_match phoneRegex text h y0 Hh Hy0)
      as (i & y & Hi & Hy & Hleft).
    rewrite firstMatch_exec.
    rewrite (exec_first_match phoneRegex text i y ltac:(lia) Hy Hleft).
    eexists. reflexivity.
Qed.

(** *** Where the e-mail pattern matches *)

(** A run of a class reaches every point of a stretch of characters of the
    class, so it fails only when what follows fails at each of them. *)
Lemma repeat_class_reaches input ic inv atoms (m : Cont -> MatchState -> Outcome) k :
  (∀ c x, m c x = compile input ic (CharSet inv atoms) Forward c x) ->
  ∀ n fuel min e caps,
    n < fuel ->
    min ≤ n ->
    (∀ j, j < n -> ∃ a, input !! (e + j) = Some a
                        ∧ charSetMatches ic inv atoms a = true) ->
    k (mkState (e + n) caps) ≠ Failure ->
    repeatMatcher m [] fuel min None k (mkState e caps) ≠ Failure.
Proof.
  intros Hm n. induction n as [|n IH]; intros fuel min e caps Hfuel Hmin Hrun Hk;
    (destruct fuel as [|fuel]; [lia|]);
    rewrite repeatMatcher_unfold, bool_decide_eq_false_2 by discriminate; cbv zeta.
  - replace min with 0 by lia. cbn [Nat.eqb]. rewrite Nat.add_0_r in Hk.
    unfold clearCaptures. cbn [endIndex captures foldr].
    match goal with
    | |- match ?o with _ => _ end ≠ _ => destruct o
    end; [discriminate | exact Hk | discriminate].
  - rewrite Hm, class_step. unfold clearCaptures. cbn [endIndex captures foldr].
    destruct (Hrun 0 ltac:(lia)) as (a & Ha & Hc). rewrite Nat.add_0_r in Ha.
    rewrite Ha, Hc.
    replace (S e =? e) with false by (symmetry; apply Nat.eqb_neq; lia).
    rewrite andb_false_r. cbn [fmap option_fmap option_map].
    assert (Hnext : repeatMatcher m [] fuel (pred min) None k (mkState (S e) caps)
                    ≠ Failure).
    { apply (IH fuel (pred min) (S e) caps); [lia | lia | |].
      - intros j Hj. destruct (Hrun (S j) ltac:(lia)) as (b & Hb & Hcb).
        rewrite Nat.add_succ_r in Hb. eauto.
      - rewrite Nat.add_succ_r in Hk. exact Hk. }
    destruct (min =? 0); [|exact Hnext].
    destruct (repeatMatcher m [] fuel (pred min) None k (mkState (S e) caps));
      [discriminate | contradiction | discriminate].
Qed.

Lemma quant_class_reaches input ic min inv atoms r k x n :
  min ≤ n ->
  (∀ j, j < n -> ∃ a, input !! (endIndex x + j) = Some a
                      ∧ charSetMatches ic inv atoms a = true) ->
  compile input ic r Forward k (mkState (endIndex x + n) (captures x)) ≠ Failure ->
  compile input ic (Seq (Quant min None (CharSet inv atoms)) r) Forward k x ≠ Failure.
Proof.
  intros Hmin Hrun Hk. destruct x as [e caps]. cbn [endIndex captures] in *.
  rewrite seq_step, quant_step.
  apply (repeat_class_reaches input ic inv atoms) with (n := n);
    [reflexivity | | exact Hmin | exact Hrun | exact Hk].
  destruct n as [|n]; [lia|].
  destruct (Hrun n ltac:(lia)) as (a & Ha & _). apply lookup_lt_Some in Ha. lia.
Qed.

Lemma class_reaches input ic inv atoms r k x a :
  input !! endIndex x = Some a ->
  charSetMatches ic inv atoms a = true ->
  compile input ic r Forward k (mkState (S (endIndex x)) (captures x)) ≠ Failure ->
  compile input ic (Seq (CharSet inv atoms) r) Forward k x ≠ Failure.
Proof. intros Ha Hc Hk. rewrite seq_step, class_step, Ha, Hc. exact Hk. Qed.

Lemma app_run (pre s post : jsstring) (P : N -> bool) :
  Forall (fun a => P a = true) s ->
  ∀ j, j < length s -> ∃ a, (pre ++ s ++ post) !! (length pre + j) = Some a ∧ P a = true.
Proof.
  intros Hall j Hj. destruct (lookup_lt_is_Some_2 s j Hj) as [a Ha].
  exists a. split; [|apply (Forall_lookup_1 _ _ _ _ Hall Ha)].
  rewrite lookup_app_r by lia. replace (length pre + j - length pre) with j by lia.
  rewrite lookup_app_l by exact Hj. exact Ha.
Qed.

Lemma substring_middle (str : jsstring) i j :
  i ≤ j ≤ length str -> str = take i str ++ substring str i j ++ drop j str.
Proof.
  intros Hij. unfold substring.
  rewrite <- (take_drop i str) at 1. f_equal.
  rewrite <- (take_drop (j - i) (drop i str)) at 1. f_equal.
  rewrite drop_drop. f_equal. lia.
Qed.

Ltac list_norm :=
  repeat first [rewrite <- app_assoc | progress (cbn [app])]; reflexivity.

Lemma email_match_complete (pre loc dom tld post : jsstring) c :
  isLetter c || anyOf "._%+-" c = true ->
  Forall (fun a => isLetter a || isDigit a || anyOf "._%+-" a = true) loc ->
  1 ≤ length dom ->
  Forall (fun a => isLetter a || isDigit a || anyOf ".-" a = true) dom ->
  2 ≤ length tld ->
  Forall (fun a => isLetter a = true) tld ->
  ∃ y, matchAt emailRegex (pre ++ (c :: loc ++ ch "@" :: dom ++ ch "." :: tld) ++ post)
         (length pre) = Matched y.
Proof.
  intros Hc Hloc Ldom Hdom Ltld Htld.
  set (text := pre ++ (c :: loc ++ ch "@" :: dom ++ ch "." :: tld) ++ post).
  assert (Tc : text = pre ++ c :: (loc ++ ch "@" :: dom ++ ch "." :: tld) ++ post)
    by (unfold text; list_norm).
  assert (Tloc : text = (pre ++ [c]) ++ loc ++ (ch "@" :: dom ++ ch "." :: tld) ++ post).
  { unfold text. list_norm. }
  assert (Tat : text = (pre ++ c :: loc) ++ ch "@" :: (dom ++ ch "." :: tld) ++ post).
  { unfold text. list_norm. }
  assert (Tdom : text = (pre ++ c :: loc ++ [ch "@"]) ++ dom ++ (ch "." :: tld) ++ post).
  { unfold text. list_norm. }
  assert (Tdot : text = (pre ++ c :: loc ++ ch "@" :: dom) ++ ch "." :: tld ++ post).
  { unfold text. list_norm. }
  assert (Ttld : text = (pre ++ c :: loc ++ ch "@" :: dom ++ [ch "."]) ++ tld ++ post).
  { unfold text. list_norm. }
  assert (Hh : length pre ≤ length text) by (unfold text; rewrite length_app; lia).
  destruct (matchAt emailRegex text (length pre)) as [y| |] eqn:E;
    [eauto | exfalso | exfalso].
  - revert E. unfold matchAt, emailRegex. cbn [pattern ignoreCaseFlag nGroups seqs foldr].
    apply (class_reaches text false false _ _ _ _ c).
    { cbn [endIndex]. rewrite Tc. apply list_lookup_middle. reflexivity. }
    { rewrite email_first_class. exact Hc. }
    cbn [endIndex captures]. unfold star.
    apply (quant_class_reaches text false 0 false _ _ _ _ (length loc)); [lia | |].
    { cbn [endIndex]. intros j Hj.
      destruct (app_run (pre ++ [c]) loc ((ch "@" :: dom ++ ch "." :: tld) ++ post) _
                  Hloc j Hj) as (a & Ha & Pa).
      exists a. rewrite email_local_class. split; [|exact Pa].
      rewrite Tloc, <- Ha. f_equal. rewrite length_app. simpl. lia. }
    cbn [endIndex captures].
    apply (class_reaches text false false _ _ _ _ (ch "@")).
    { cbn [endIndex]. rewrite Tat. apply list_lookup_middle. simpl.
      rewrite length_app. simpl. lia. }
    { reflexivity. }
    cbn [endIndex captures]. unfold plus.
    apply (quant_class_reaches text false 1 false _ _ _ _ (length dom)); [lia | |].
    { cbn [endIndex]. intros j Hj.
      destruct (app_run (pre ++ c :: loc ++ [ch "@"]) dom ((ch "." :: tld) ++ post) _
                  Hdom j Hj) as (a & Ha & Pa).
      exists a. rewrite email_domain_class. split; [|exact Pa].
      rewrite Tdom, <- Ha. f_equal. rewrite !length_app. simpl. rewrite length_app. simpl. lia. }
    cbn [endIndex captures].
    apply (class_reaches text false false _ _ _ _ (ch ".")).
    { cbn [endIndex]. rewrite Tdot. apply list_lookup_middle.
      rewrite !length_app. simpl. rewrite length_app. simpl. lia. }
    { reflexivity. }
    cbn [endIndex captures].
    apply (quant_class_reaches text false 2 false _ _ _ _ (length tld)); [lia | |].
    { cbn [endIndex]. intros j Hj.
      destruct (app_run (pre ++ c :: loc ++ ch "@" :: dom ++ [ch "."]) tld post _
                  Htld j Hj) as (a & Ha & Pa).
      exists a. rewrite letter_class. split; [|exact Pa].
      rewrite Ttld, <- Ha. f_equal. rewrite !length_app. simpl. rewrite length_app. simpl.
      rewrite length_app. simpl. lia. }
    discriminate.
  - revert E. apply matchAt_fuel. exact Hh.
Qed.

(** X16. The e-mail extractor answers an address exactly when the text holds,
    somewhere, a stretch [local@domain.tld] of this shape: a first
    character that is a letter or one of [._%+-], any letters, digits and
    [._%+-], an [@], one or more letters, digits, dots and hyphens, a dot, and
    two or more letters. *)
Theorem extractEmail_iff (text : jsstring) :
  is_Some (extractEmail text)
  ↔ ∃ pre c loc dom tld post,
      text = pre ++ (c :: loc ++ ch "@" :: dom ++ ch "." :: tld) ++ post
      ∧ isLetter c || anyOf "._%+-" c = true
      ∧ Forall (fun a => isLetter a || isDigit a || anyOf "._%+-" a = true) loc
      ∧ 1 ≤ length dom
      ∧ Forall (fun a => isLetter a || isDigit a || anyOf ".-" a = true) dom
      ∧ 2 ≤ length tld
      ∧ Forall (fun a => isLetter a = true) tld.
Proof.
  unfold extractEmail. split.
  - intros [e E]. apply firstMatch_Some in E as (i & y & Hi & Hm & Hr & ->).
    destruct (email_match text i y Hm)
      as (c & loc & dom & tld & He & H1 & H2 & H3 & H4 & H5 & H6).
    exists (take i text), c, loc, dom, tld, (drop (endIndex y) text).
    rewrite <- He. split; [apply substring_middle; lia | auto 10].
  - intros (pre & c & loc & dom & tld & post & -> & H1 & H2 & H3 & H4 & H5 & H6).
    destruct (email_match_complete pre loc dom tld post c H1 H2 H3 H4 H5 H6) as (y0 & Hy0).
    set (text := pre ++ (c :: loc ++ ch "@" :: dom ++ ch "." :: tld) ++ post) in *.
    assert (Hh : length pre ≤ length text) by (unfold text; rewrite length_app; lia).
    destruct (leftmost_match emailRegex text (length pre) y0 Hh Hy0)
      as (i & y & Hi & Hy & Hleft).
    rewrite firstMatch_exec.
    rewrite (exec_first_match emailRegex text i y ltac:(lia) Hy Hleft).
    eexists. reflexivity.
Qed.

(** *** The country *)

Lemma split_no_sep sep (s p : jsstring) : p ∈ split sep s -> sep ∉ p.
Proof.
  revert p. induction s as [|a s IH]; intros p; cbn [split].
  - intros Hp. apply list_elem_of_singleton in Hp as ->. apply not_elem_of_nil.
  - destruct (N.eqb_spec a sep) as [-> | Hne].
    + intros Hp. apply elem_of_cons in Hp as [-> | Hp];
        [apply not_elem_of_nil | apply IH; exact Hp].
    + destruct (split sep s) as [|q qs].
      * intros Hp. apply list_elem_of_singleton in Hp as ->.
        rewrite not_elem_of_cons. split; [congruence | apply not_elem_of_nil].
      * intros Hp. apply elem_of_cons in Hp as [-> | Hp].
        -- rewrite not_elem_of_cons. split; [congruence|]. apply IH. left.
        -- apply IH. right. exact Hp.
Qed.

Lemma trimStart_elem (s : jsstring) a : a ∈ trimStart s -> a ∈ s.
Proof.
  induction s as [|b s IH]; cbn [trimStart]; [auto|].
  destruct (isWhiteSpace b); [|auto]. intros Ha. right. apply IH. exact Ha.
Qed.

Lemma trimStart_head (s : jsstring) a :
  head (trimStart s) = Some a -> isWhiteSpace a = false.
Proof.
  induction s as [|b s IH]; cbn [trimStart]; [discriminate|].
  destruct (isWhiteSpace b) eqn:E; [exact IH|]. intros [= <-]. exact E.
Qed.

Lemma trimStart_last (s : jsstring) a :
  last (trimStart s) = Some a -> last s = Some a.
Proof.
  induction s as [|b s IH]; cbn [trimStart]; [discriminate|].
  destruct (isWhiteSpace b); [|auto]. intros Ha. apply IH in Ha.
  rewrite last_cons, Ha. reflexivity.
Qed.

Lemma trim_elem (s : jsstring) a : a ∈ trim s -> a ∈ s.
Proof.
  unfold trim. rewrite elem_of_reverse. intros Ha.
  apply trimStart_elem in Ha. rewrite elem_of_reverse in Ha.
  apply trimStart_elem. exact Ha.
Qed.

Lemma trim_ends (s : jsstring) a :
  head (trim s) = Some a ∨ last (trim s) = Some a -> isWhiteSpace a = false.
Proof.
  unfold trim. rewrite head_reverse, last_reverse. intros [Ha | Ha].
  - apply trimStart_last in Ha. rewrite last_reverse in Ha.
    apply trimStart_head in Ha. exact Ha.
  - apply trimStart_head in Ha. exact Ha.
Qed.

(** X17. The country returned, when there is one, is the name of an entry of
    the reference list that holds no comma and neither begins nor ends with a
    blank: the places are cut at commas and trimmed before they are compared,
    so an entry such as "Korea, Republic of" is never returned. *)
Theorem extractCountry_no_comma `{Runtime} (text name : jsstring) :
  extractCountry text = Some name ->
  (∃ country, country ∈ iso31661 ∧ countryName country = name)
  ∧ (ch "," ∉ name)
  ∧ (∀ a, head name = Some a -> isWhiteSpace a = false)
  ∧ (∀ a, last name = Some a -> isWhiteSpace a = false).
Proof.
  unfold extractCountry. cbn zeta.
  destruct (filter _ iso31661) as [|country rest] eqn:E; [discriminate|].
  intros [= <-].
  assert (Hin : country ∈ filter (fun country => countryName country ∈ locationsOf text)
                          iso31661) by (rewrite E; left).
  apply list_elem_of_filter in Hin as [Hloc Hiso].
  unfold locationsOf in Hloc. rewrite list_elem_of_In, in_flat_map in Hloc.
  destruct Hloc as (place & _ & Hpiece). apply list_elem_of_In in Hpiece.
  apply list_elem_of_fmap in Hpiece as (part & Hname & Hpart).
  split; [exists country; split; [exact Hiso | reflexivity]|].
  rewrite Hname. split; [|split].
  - intros Hcomma. apply trim_elem in Hcomma.
    apply (split_no_sep _ _ _ Hpart). exact Hcomma.
  - intros a Ha. apply (trim_ends part). left. exact Ha.
  - intros a Ha. apply (trim_ends part). right. exact Ha.
Qed.

Lemma extractCountry_no_comma_witness :
  @extractCountry (Demo.runtime (inr []) [] [js "Born in Paris ,  Germany "]) []
  = Some (js "Germany")
  ∧ (∃ country,
       country ∈ @iso31661 (Demo.runtime (inr []) [] [js "Born in Paris ,  Germany "])
       ∧ countryName country = js "Germany")
  ∧ (ch "," ∉ js "Germany")
  ∧ (∀ a, head (js "Germany") = Some a -> isWhiteSpace a = false)
  ∧ (∀ a, last (js "Germany") = Some a -> isWhiteSpace a = false).
Proof.
  split; [vm_compute; reflexivity|].
  apply (@extractCountry_no_comma
           (Demo.runtime (inr []) [] [js "Born in Paris ,  Germany "]) []).
  vm_compute. reflexivity.
Defined.

(** ** Splitting and trimming, in terms of the text *)

Lemma split_first sep (p after : jsstring) :
  sep ∉ p -> after = [] ∨ head after = Some sep ->
  ∃ ps, split sep (p ++ after) = p :: ps.
Proof.
  intros Hp Hafter. induction p as [|c p IH]; cbn [app].
  - destruct after as [|a after]; [exists []; reflexivity|].
    destruct Hafter as [? | [= ->]]; [discriminate|].
    cbn [split]. rewrite N.eqb_refl. eauto.
  - apply not_elem_of_cons in Hp as [Hc Hp]. destruct (IH Hp) as (ps & E).
    cbn [split]. rewrite E.
    destruct (N.eqb_spec c sep) as [-> | _]; [contradiction|]. eauto.
Qed.

Lemma first_separator sep (p0 tail b rest : jsstring) :
  sep ∉ p0 ->
  p0 ++ sep :: tail = b ++ sep :: rest ->
  (b = p0 ∧ tail = rest) ∨ ∃ c, b = p0 ++ sep :: c ∧ tail = c ++ sep :: rest.
Proof.
  revert b. induction p0 as [|x p0 IH]; intros b Hp E; cbn [app] in E.
  - destruct b as [|y b]; cbn [app] in E.
    + injection E as ->. left. auto.
    + injection E as <- ->. right. exists b. auto.
  - apply not_elem_of_cons in Hp as [Hx Hp].
    destruct b as [|y b]; cbn [app] in E.
    + injection E as -> _. contradiction.
    + injection E as <- E. destruct (IH b Hp E) as [[-> ->] | (c & -> & ->)].
      * left. auto.
      * right. exists c. auto.
Qed.

(** The parts [split] answers are the stretches between two separators. *)
Lemma split_spec sep (s p : jsstring) :
  p ∈ split sep s
  ↔ ∃ before after,
      s = before ++ p ++ after
      ∧ (sep ∉ p)
      ∧ (before = [] ∨ last before = Some sep)
      ∧ (after = [] ∨ head after = Some sep).
Proof.
  remember (length s) as n eqn:Hn. revert s p Hn.
  induction n as [n IH] using lt_wf_ind. intros s p Hn.
  destruct (split_cons sep s) as (p0 & ps & E & Hp0 & Hcase).
  rewrite E. split.
  - intros Hp. apply elem_of_cons in Hp as [-> | Hp].
    + exists []. destruct Hcase as [[-> ->] | (tail & -> & ->)].
      * exists []. rewrite app_nil_r. auto.
      * exists (sep :: tail). auto 6.
    + destruct Hcase as [[-> ->] | (tail & -> & ->)]; [inversion Hp|].
      apply (IH (length tail)) in Hp as (b & af & -> & Hp & Hb & Haf);
        [|subst n; rewrite length_app; simpl; lia | reflexivity].
      exists (p0 ++ sep :: b), af. split; [list_norm|]. split; [exact Hp|].
      split; [right | exact Haf].
      destruct Hb as [-> | Hb].
      * rewrite last_snoc. reflexivity.
      * change (p0 ++ sep :: b) with (p0 ++ [sep] ++ b).
        rewrite app_assoc, last_app, Hb. reflexivity.
  - intros (before & after & Hs & Hp & Hb & Haf).
    destruct Hb as [-> | Hlast].
    + cbn [app] in Hs. destruct (split_first sep p after Hp Haf) as (ps' & E').
      rewrite <- Hs, E in E'. injection E' as -> ->. left.
    + destruct before as [|b0 before] using rev_ind; [discriminate|].
      clear IHbefore. rewrite last_snoc in Hlast. injection Hlast as ->.
      rewrite <- app_assoc in Hs. cbn [app] in Hs.
      destruct Hcase as [[-> ->] | (tail & Htail & ->)].
      { exfalso. apply Hp0. rewrite Hs. apply elem_of_app. right. left. }
      rewrite Htail in Hs.
      right. apply (IH (length tail)); [subst n s; rewrite length_app; simpl; lia | reflexivity|].
      destruct (first_separator sep p0 tail before (p ++ after) Hp0 Hs)
        as [[-> ->] | (c & -> & ->)].
      * exists [], after. auto.
      * exists (c ++ [sep]), after. split; [list_norm|]. split; [exact Hp|].
        split; [right; apply last_snoc | exact Haf].
Qed.

Lemma trimStart_blank (s : jsstring) :
  Forall (fun a => isWhiteSpace a = true) s -> trimStart s = [].
Proof.
  induction 1 as [|a s Ha _ IH]; [reflexivity|]. cbn [trimStart]. rewrite Ha. exact IH.
Qed.

(** [trimStart] takes the blanks off the front. *)
Lemma trimStart_spec (s t : jsstring) :
  trimStart s = t
  ↔ ∃ l, s = l ++ t
         ∧ Forall (fun a => isWhiteSpace a = true) l
         ∧ (∀ a, head t = Some a -> isWhiteSpace a = false).
Proof.
  split.
  - intros <-. induction s as [|a s IH]; cbn [trimStart].
    + exists []. split; [reflexivity|]. split; [constructor | discriminate].
    + destruct (isWhiteSpace a) eqn:Ea.
      * destruct IH as (l & Hs & Hl & Hh). exists (a :: l).
        split; [cbn [app]; f_equal; exact Hs|]. split; [constructor; assumption | exact Hh].
      * exists []. split; [reflexivity|]. split; [constructor|].
        intros b [= <-]. exact Ea.
  - intros (l & -> & Hl & Hh). induction Hl as [|a l Ha _ IH]; cbn [app].
    + destruct t as [|b t]; [reflexivity|]. cbn [trimStart].
      rewrite (Hh b eq_refl). reflexivity.
    + cbn [trimStart]. rewrite Ha. exact IH.
Qed.

(** [trim] takes the blanks off both ends. *)
Lemma trim_spec (s t : jsstring) :
  trim s = t
  ↔ ∃ l r, s = l ++ t ++ r
           ∧ Forall (fun a => isWhiteSpace a = true) l
           ∧ Forall (fun a => isWhiteSpace a = true) r
           ∧ (∀ a, head t = Some a -> isWhiteSpace a = false)
           ∧ (∀ a, last t = Some a -> isWhiteSpace a = false).
Proof.
  unfold trim. split.
  - intros <-.
    destruct (proj1 (trimStart_spec s _) eq_refl) as (l & Hs & Hl & Hu).
    destruct (proj1 (trimStart_spec (reverse (trimStart s)) _) eq_refl)
      as (r' & Hr & Hr' & Hv).
    set (v := trimStart (reverse (trimStart s))) in *.
    assert (Hu' : trimStart s = reverse v ++ reverse r').
    { rewrite <- reverse_app, <- Hr, reverse_involutive. reflexivity. }
    exists l, (reverse r'). split; [rewrite <- Hu'; exact Hs|]. split; [exact Hl|].
    split; [apply Forall_reverse; exact Hr'|]. split.
    + intros a Ha. apply Hu. rewrite Hu'.
      destruct (reverse v) as [|b t]; [discriminate|]. exact Ha.
    + intros a Ha. rewrite last_reverse in Ha. apply Hv. exact Ha.
  - intros (l & r & -> & Hl & Hr & Hh & Hla).
    destruct t as [|b t].
    + cbn [app]. rewrite (trimStart_blank (l ++ r)) by (apply Forall_app; auto).
      reflexivity.
    + assert (trimStart (l ++ (b :: t) ++ r) = (b :: t) ++ r) as ->.
      { apply trimStart_spec. exists l. split; [reflexivity|]. split; [exact Hl|].
        intros a [= <-]. apply Hh. reflexivity. }
      assert (trimStart (reverse ((b :: t) ++ r)) = reverse (b :: t)) as ->.
      { apply trimStart_spec. exists (reverse r). split; [apply reverse_app|].
        split; [apply Forall_reverse; exact Hr|].
        intros a Ha. rewrite head_reverse in Ha. apply Hla. exact Ha. }
      apply reverse_involutive.
Qed.

(** The pieces the extractor compares with the country names. *)
Lemma locationsOf_spec `{Runtime} (text piece : jsstring) :
  piece ∈ locationsOf text ↔ ∃ place, place ∈ places text ∧ pieceOf piece place.
Proof.
  unfold locationsOf. rewrite list_elem_of_In, in_flat_map. split.
  - intros (place & Hplace & Hpiece). apply list_elem_of_In in Hplace, Hpiece.
    apply list_elem_of_fmap in Hpiece as (part & Hpiece & Hpart).
    symmetry in Hpiece. apply trim_spec in Hpiece as (l & r & -> & Hl & Hr & Hh & Hla).
    apply split_spec in Hpart as (before & after & -> & Hcomma & Hb & Haf).
    eexists. split; [exact Hplace|].
    exists before, l, r, after. auto 10.
  - intros (place & Hplace & before & l & r & after & -> & Hb & Haf & Hcomma & Hl & Hr & Hh & Hla).
    exists (before ++ (l ++ piece ++ r) ++ after).
    rewrite <- !list_elem_of_In. split; [exact Hplace|].
    apply list_elem_of_fmap. exists (l ++ piece ++ r). split.
    + symmetry. apply trim_spec. exists l, r. auto.
    + apply split_spec. exists before, after. auto.
Qed.

(** C8. A piece of a place is what stands between two commas of the place,
    or an end of it, without the blanks at its two ends.  The country returned
    is the name of the first entry of the reference list, in the order of the
    list and not of the text, whose name is a piece of a recognized place;
    [null] exactly when no entry's name is one.  With the list France,
    Germany: the place "Berlin, Germany" gives Germany (cut at the comma and
    trimmed), the places "Berlin, Germany" then "France" give France, and a
    city alone gives [null]. *)
Theorem extractCountry_first_listed :
  (∀ (rt : Runtime) (text name : jsstring),
     extractCountry text = Some name <->
     ∃ before country after,
       iso31661 = before ++ country :: after
       ∧ countryName country = name
       ∧ (∃ place, place ∈ places text ∧ pieceOf name place)
       ∧ ∀ earlier, earlier ∈ before ->
                    ¬ ∃ place, place ∈ places text ∧ pieceOf (countryName earlier) place)
  ∧ (∀ (rt : Runtime) (text : jsstring),
       extractCountry text = None <->
       ∀ country, country ∈ iso31661 ->
                  ¬ ∃ place, place ∈ places text ∧ pieceOf (countryName country) place)
  ∧ @extractCountry (Demo.runtime (inr []) [] [js "Berlin, Germany"]) []
    = Some (js "Germany")
  ∧ @extractCountry (Demo.runtime (inr []) [] [js "Berlin, Germany"; js "France"]) []
    = Some (js "France")
  ∧ @extractCountry (Demo.runtime (inr []) [] [js "Paris"]) [] = None
  ∧ @extractCountry (Demo.runtime (inr []) [] [js "Germany and France"]) [] = None.
Proof.
  split; [|split; [|split; [|split; [|split]]]].
  - intros rt text name. unfold extractCountry. cbn zeta.
    set (P := fun country : Country => countryName country ∈ locationsOf text).
    split.
    + destruct (filter P iso31661) as [|country rest] eqn:E; [discriminate|].
      intros [= <-].
      destruct (proj1 (filter_head P iso31661 country)) as (before & after & E' & Hc & Hb);
        [eauto|].
      exists before, country, after. split; [exact E'|]. split; [reflexivity|].
      split; [apply locationsOf_spec; exact Hc|].
      intros earlier He Hpiece. apply (Hb earlier He). apply locationsOf_spec. exact Hpiece.
    + intros (before & country & after & E & <- & Hin & Hb).
      destruct (proj2 (filter_head P iso31661 country)) as (rest & ->); [|reflexivity].
      exists before, after. split; [exact E|]. split; [apply locationsOf_spec; exact Hin|].
      intros earlier He Hp. apply (Hb earlier He). apply locationsOf_spec. exact Hp.
  - intros rt text. unfold extractCountry. cbn zeta.
    set (P := fun country : Country => countryName country ∈ locationsOf text).
    pose proof (filter_none P iso31661) as Hnone.
    destruct (filter P iso31661) as [|country rest] eqn:E.
    + split; [|reflexivity]. intros _ country Hc Hpiece.
      apply (proj1 Hnone eq_refl country Hc). apply locationsOf_spec. exact Hpiece.
    + split; [discriminate|]. intros Hno. exfalso.
      assert (Hin : country ∈ filter P iso31661) by (rewrite E; left).
      apply list_elem_of_filter in Hin as [Hp Hc].
      apply (Hno country Hc). apply locationsOf_spec. exact Hp.
  - vm_compute. reflexivity.
  - vm_compute. reflexivity.
  - vm_compute. reflexivity.
  - vm_compute. reflexivity.
Qed.

(** ** The salary pattern, part by part *)

Lemma space_matches a : charSetMatches true false [CSpace] a = isWhiteSpace a.
Proof.
  pose proof (not_space_matches a) as E. unfold charSetMatches in *.
  cbn [xorb] in *. apply (f_equal negb) in E. rewrite !negb_involutive in E.
  destruct (classHas [CSpace] a || true && (classHas [CSpace] (asciiUpper a)
              || classHas [CSpace] (asciiLower a))); exact E.
Qed.

(** What the text reads from a position on, as a list. *)
Lemma run_drop (str : jsstring) (P : N -> bool) n :
  ∀ e,
    (∀ j, j < n -> ∃ a, str !! (e + j) = Some a ∧ P a = true) ->
    ∃ s, length s = n
         ∧ Forall (fun a => P a = true) s
         ∧ drop e str = s ++ drop (e + n) str.
Proof.
  induction n as [|n IH]; intros e Hrun.
  - exists []. rewrite Nat.add_0_r. auto.
  - destruct (Hrun 0 ltac:(lia)) as (a & Ha & Pa). rewrite Nat.add_0_r in Ha.
    destruct (IH (S e)) as (s & Hlen & Hall & Hs).
    { intros j Hj. destruct (Hrun (S j) ltac:(lia)) as (b & Hb & Pb).
      rewrite Nat.add_succ_r in Hb. eauto. }
    exists (a :: s). split; [simpl; lia|]. split; [constructor; assumption|].
    rewrite (drop_S _ _ _ Ha), Hs. replace (e + S n) with (S e + n) by lia.
    reflexivity.
Qed.

Lemma drop_run (str s rest : jsstring) (P : N -> bool) e :
  drop e str = s ++ rest ->
  Forall (fun a => P a = true) s ->
  ∀ j, j < length s -> ∃ a, str !! (e + j) = Some a ∧ P a = true.
Proof.
  intros Hd Hall j Hj. destruct (lookup_lt_is_Some_2 s j Hj) as [a Ha].
  exists a. split; [|apply (Forall_lookup_1 _ _ _ _ Hall Ha)].
  rewrite <- lookup_drop, Hd, lookup_app_l by exact Hj. exact Ha.
Qed.

Lemma drop_app_length (str s rest : jsstring) e :
  drop e str = s ++ rest -> drop (e + length s) str = rest.
Proof.
  intros Hd. rewrite <- drop_drop, Hd, drop_app_length. reflexivity.
Qed.

Lemma drop_lookup_head (str rest : jsstring) e a :
  drop e str = a :: rest -> str !! e = Some a.
Proof.
  intros Hd. rewrite <- (Nat.add_0_r e), <- lookup_drop, Hd. reflexivity.
Qed.

(** A run of a class before a pattern that cannot fail is as long as it can
    be. *)
Lemma repeat_class_inv_greedy input ic inv atoms (m : Cont -> MatchState -> Outcome) k :
  (∀ c x, m c x = compile input ic (CharSet inv atoms) Forward c x) ->
  (∀ x, k x ≠ Failure) ->
  ∀ fuel min max e caps y,
    (∀ mx, max = Some mx -> min ≤ mx) ->
    repeatMatcher m [] fuel min max k (mkState e caps) = Matched y ->
    ∃ n, min ≤ n
         ∧ (∀ mx, max = Some mx -> n ≤ mx)
         ∧ (∀ j, j < n -> ∃ a, input !! (e + j) = Some a
                              ∧ charSetMatches ic inv atoms a = true)
         ∧ k (mkState (e + n) caps) = Matched y
         ∧ (max = Some n
            ∨ ∀ b, input !! (e + n) = Some b -> charSetMatches ic inv atoms b = false).
Proof.
  intros Hm Hk fuel. induction fuel as [|fuel IH]; intros min max e caps y Hvalid;
    [discriminate|].
  rewrite repeatMatcher_unfold. cbv zeta.
  case_bool_decide as Hmax.
  { intros E. exists 0. rewrite Nat.add_0_r.
    split; [specialize (Hvalid 0 Hmax); lia|]. split; [intros; lia|].
    split; [intros; lia|]. split; [exact E | left; exact Hmax]. }
  rewrite Hm, class_step.
  unfold clearCaptures. cbn [foldr endIndex captures].
  replace (S e =? e) with false by (symmetry; apply Nat.eqb_neq; lia).
  rewrite andb_false_r.
  assert (Hstop : (∀ b, input !! e = Some b -> charSetMatches ic inv atoms b = false) ->
            min = 0 -> k (mkState e caps) = Matched y ->
            ∃ n, min ≤ n
                 ∧ (∀ mx, max = Some mx -> n ≤ mx)
                 ∧ (∀ j, j < n -> ∃ a, input !! (e + j) = Some a
                                      ∧ charSetMatches ic inv atoms a = true)
                 ∧ k (mkState (e + n) caps) = Matched y
                 ∧ (max = Some n
                    ∨ ∀ b, input !! (e + n) = Some b
                           -> charSetMatches ic inv atoms b = false)).
  { intros Hno -> E. exists 0. rewrite Nat.add_0_r. split; [lia|].
    split; [intros; lia|]. split; [intros; lia|]. split; [exact E | right; exact Hno]. }
  destruct (input !! e) as [a|] eqn:Ea.
  2:{ destruct min; [|discriminate]. cbn [Nat.eqb]. apply Hstop; [discriminate | reflexivity]. }
  destruct (charSetMatches ic inv atoms a) eqn:Ec.
  2:{ destruct min; [|discriminate]. cbn [Nat.eqb].
      apply Hstop; [intros b [= <-]; exact Ec | reflexivity]. }
  assert (Hgo : repeatMatcher m [] fuel (pred min) (pred <$> max) k (mkState (S e) caps)
                = Matched y ->
            ∃ n, min ≤ n
                 ∧ (∀ mx, max = Some mx -> n ≤ mx)
                 ∧ (∀ j, j < n -> ∃ a, input !! (e + j) = Some a
                                      ∧ charSetMatches ic inv atoms a = true)
                 ∧ k (mkState (e + n) caps) = Matched y
                 ∧ (max = Some n
                    ∨ ∀ b, input !! (e + n) = Some b
                           -> charSetMatches ic inv atoms b = false)).
  { intros E. apply IH in E as (n & Hn & Hmx & Hall & E & Hstopn).
    2:{ intros mx' Hmx'. destruct max as [mx|]; [|discriminate].
        injection Hmx' as <-. specialize (Hvalid mx eq_refl). lia. }
    exists (S n). split; [lia|]. split; [|split; [|split]].
    - intros mx ->. specialize (Hmx (pred mx) eq_refl).
      assert (mx ≠ 0) by congruence. lia.
    - intros [|j] Hj.
      + rewrite Nat.add_0_r. eauto.
      + rewrite Nat.add_succ_r. apply Hall. lia.
    - rewrite Nat.add_succ_r. exact E.
    - rewrite Nat.add_succ_r. destruct Hstopn as [Hmaxn | Hno]; [left | right; exact Hno].
      destruct max as [mx|]; [|discriminate]. cbn in Hmaxn. injection Hmaxn as <-.
      assert (mx ≠ 0) by congruence. f_equal. lia. }
  destruct min as [|min']; cbn [Nat.eqb]; [|exact Hgo].
  destruct (repeatMatcher m [] fuel (pred 0) (pred <$> max) k (mkState (S e) caps))
    as [z| |] eqn:Eo.
  - intros E. apply Hgo. exact E.
  - exfalso. destruct fuel as [|fuel]; [discriminate|].
    revert Eo. apply repeatMatcher_min0_total. exact Hk.
  - discriminate.
Qed.

Lemma quant_class_inv_greedy input ic min max inv atoms r k x y :
  (∀ mx, max = Some mx -> min ≤ mx) ->
  (∀ x', compile input ic r Forward k x' ≠ Failure) ->
  compile input ic (Seq (Quant min max (CharSet inv atoms)) r) Forward k x = Matched y ->
  ∃ n, min ≤ n
       ∧ (∀ mx, max = Some mx -> n ≤ mx)
       ∧ (∀ j, j < n -> ∃ a, input !! (endIndex x + j) = Some a
                            ∧ charSetMatches ic inv atoms a = true)
       ∧ compile input ic r Forward k (mkState (endIndex x + n) (captures x)) = Matched y
       ∧ (max = Some n
          ∨ ∀ b, input !! (endIndex x + n) = Some b
                 -> charSetMatches ic inv atoms b = false).
Proof.
  intros Hvalid Hk. destruct x as [e caps]. rewrite seq_step, quant_step.
  cbn [groupsOf endIndex captures].
  apply (repeat_class_inv_greedy input ic inv atoms); [reflexivity | exact Hk | exact Hvalid].
Qed.

Lemma quant_alone_inv_greedy input ic min max inv atoms k x y :
  (∀ mx, max = Some mx -> min ≤ mx) ->
  (∀ x', k x' ≠ Failure) ->
  compile input ic (Quant min max (CharSet inv atoms)) Forward k x = Matched y ->
  ∃ n, min ≤ n
       ∧ (∀ mx, max = Some mx -> n ≤ mx)
       ∧ (∀ j, j < n -> ∃ a, input !! (endIndex x + j) = Some a
                            ∧ charSetMatches ic inv atoms a = true)
       ∧ k (mkState (endIndex x + n) (captures x)) = Matched y
       ∧ (max = Some n
          ∨ ∀ b, input !! (endIndex x + n) = Some b
                 -> charSetMatches ic inv atoms b = false).
Proof.
  intros Hvalid Hk. destruct x as [e caps]. rewrite quant_step.
  cbn [groupsOf endIndex captures].
  apply (repeat_class_inv_greedy input ic inv atoms); [reflexivity | exact Hk | exact Hvalid].
Qed.

(** A pattern made of optional parts cannot fail. *)
Lemma optional_total input ic max r1 r2 k :
  (∀ x, compile input ic r2 Forward k x ≠ Failure) ->
  ∀ x, compile input ic (Seq (Quant 0 max r1) r2) Forward k x ≠ Failure.
Proof. intros Hk x E. apply quant_min0_failure in E. exact (Hk x E). Qed.

(** The groups of three digits of an amount. *)
Lemma star_groups_inv text k fuel :
  ∀ e caps y,
    repeatMatcher
      (compile text true (Seq (opt (one ",")) (Seq (Quant 3 (Some 3) digit) Empty)) Forward)
      [] fuel 0 None k (mkState e caps) = Matched y ->
    ∃ groups,
      Forall groupShape groups
      ∧ drop e text = concat groups ++ drop (e + length (concat groups)) text
      ∧ k (mkState (e + length (concat groups)) caps) = Matched y.
Proof.
  induction fuel as [|fuel IH]; intros e caps y; [discriminate|].
  rewrite repeatMatcher_unfold, bool_decide_eq_false_2 by discriminate.
  cbn [Nat.eqb andb]. cbv zeta. unfold clearCaptures. cbn [foldr endIndex captures].
  match goal with
  | |- match ?o with _ => _ end = _ -> _ => destruct o as [z| |] eqn:Eo
  end.
  2:{ intros E. exists []. cbn [concat length]. rewrite Nat.add_0_r.
      split; [constructor|]. split; [reflexivity | exact E]. }
  2:{ discriminate. }
  intros [= ->]. unfold opt, one, chr, digit in Eo.
  apply quant_class_inv in Eo as (n0 & _ & Hn0 & Hcomma & Eo); [|intros mx [= <-]; lia].
  specialize (Hn0 1 eq_refl). cbn [endIndex captures] in *.
  apply quant_class_inv in Eo as (n & Hn & Hn' & Hdigits & Eo); [|intros mx [= <-]; lia].
  specialize (Hn' 3 eq_refl). cbn [endIndex captures] in *.
  rewrite empty_step in Eo. cbn [endIndex] in Eo.
  replace (e + n0 + n =? e) with false in Eo by (symmetry; apply Nat.eqb_neq; lia).
  cbn [pred fmap option_fmap option_map] in Eo.
  apply IH in Eo as (groups & Hgroups & Hread & Ek).
  destruct (run_drop text _ n0 e Hcomma) as (c & Lc & Fc & Dc).
  destruct (run_drop text _ n (e + n0) Hdigits) as (ds & Lds & Fds & Dds).
  exists ((c ++ ds) :: groups).
  assert (Hlen : e + length (concat ((c ++ ds) :: groups))
                 = e + n0 + n + length (concat groups)).
  { cbn [concat]. rewrite !length_app. lia. }
  split; [|split].
  - constructor; [|exact Hgroups]. exists c, ds. split; [reflexivity|]. split; [|split].
    + destruct c as [|a [|b c]]; [left; reflexivity | right | simpl in Lc; lia].
      apply Forall_inv in Fc. rewrite symbol_matches in Fc by reflexivity.
      apply N.eqb_eq in Fc as ->. reflexivity.
    + lia.
    + eapply Forall_impl; [exact Fds|]. intros a Ha. rewrite <- (digit_matches true). exact Ha.
  - rewrite Hlen. cbn [concat]. rewrite <- !app_assoc. rewrite Dc. f_equal.
    rewrite Dds. f_equal. exact Hread.
  - rewrite Hlen. exact Ek.
Qed.

(** The optional fraction of an amount. *)
Lemma fraction_inv text r k e caps y :
  compile text true
    (Seq (opt (Seq (one ".") (Seq (Quant 1 (Some 2) digit) Empty))) r)
    Forward k (mkState e caps) = Matched y ->
  ∃ frac,
    fractionShape frac
    ∧ drop e text = frac ++ drop (e + length frac) text
    ∧ compile text true r Forward k (mkState (e + length frac) caps) = Matched y.
Proof.
  unfold opt at 1. rewrite seq_step, quant_step.
  change (1 + 0 + length text) with (S (length text)).
  rewrite repeatMatcher_unfold, bool_decide_eq_false_2 by discriminate.
  cbn [Nat.eqb andb]. cbv zeta.
  unfold clearCaptures. cbn [endIndex captures foldr groupsOf app].
  match goal with
  | |- match ?o with _ => _ end = _ -> _ => destruct o as [z| |] eqn:Eo
  end.
  2:{ intros E. exists []. cbn [length app]. rewrite Nat.add_0_r.
      split; [left; reflexivity|]. split; [reflexivity | exact E]. }
  2:{ discriminate. }
  intros [= ->]. unfold one, chr, digit in Eo.
  apply class_inv in Eo as (dot & Hdot & Pdot & Eo). cbn [endIndex captures] in *.
  rewrite symbol_matches in Pdot by reflexivity. apply N.eqb_eq in Pdot as ->.
  apply quant_class_inv in Eo as (n & Hn & Hn' & Hdigits & Eo); [|intros mx [= <-]; lia].
  specialize (Hn' 2 eq_refl). cbn [endIndex captures] in *.
  rewrite empty_step in Eo. cbn [endIndex] in Eo.
  replace (S e + n =? e) with false in Eo by (symmetry; apply Nat.eqb_neq; lia).
  destruct (length text) as [|fuel]; [discriminate|].
  cbn [pred fmap option_fmap option_map] in Eo.
  rewrite repeatMatcher_unfold, bool_decide_eq_true_2 in Eo by reflexivity.
  destruct (run_drop text _ n (S e) Hdigits) as (ds & Lds & Fds & Dds).
  exists (ch "." :: ds). cbn [length].
  replace (e + S (length ds)) with (S e + n) by lia.
  split; [|split; [|exact Eo]].
  - right. exists ds. split; [reflexivity|]. split; [lia|].
    eapply Forall_impl; [exact Fds|]. intros a Ha. rewrite <- (digit_matches true). exact Ha.
  - rewrite (drop_S _ _ _ Hdot), Dds. reflexivity.
Qed.

(** The optional second symbol, before a pattern that cannot fail: it is taken
    when a symbol is there. *)
Lemma opt_symbol_inv text r k e caps y :
  (∀ x, compile text true r Forward k x ≠ Failure) ->
  compile text true (Seq (opt (Group 4 currencyClass)) r) Forward k (mkState e caps)
  = Matched y ->
  ∃ sym2 caps',
    ((sym2 = [] ∧ ∀ b, text !! e = Some b -> isCurrencySymbol b = false)
     ∨ ∃ c, sym2 = [c] ∧ isCurrencySymbol c = true)
    ∧ drop e text = sym2 ++ drop (e + length sym2) text
    ∧ (∀ j, j ≠ 3 -> caps' !! j = caps !! j)
    ∧ compile text true r Forward k (mkState (e + length sym2) caps') = Matched y.
Proof.
  intros Hk. unfold opt at 1. rewrite seq_step, quant_step.
  change (1 + 0 + length text) with (S (length text)).
  rewrite repeatMatcher_unfold, bool_decide_eq_false_2 by discriminate.
  cbn [Nat.eqb andb]. cbv zeta.
  unfold clearCaptures. cbn [endIndex captures foldr groupsOf app currencyClass].
  rewrite group_alone_step. unfold currencyClass. rewrite class_step.
  cbn [endIndex captures].
  destruct (text !! e) as [c|] eqn:Ec.
  2:{ intros E. exists [], caps. cbn [length app]. rewrite Nat.add_0_r.
      split; [left; split; [reflexivity | discriminate]|].
      split; [reflexivity|]. split; [reflexivity | exact E]. }
  rewrite currencyClass_matches.
  destruct (isCurrencySymbol c) eqn:Pc.
  2:{ intros E. exists [], caps. cbn [length app]. rewrite Nat.add_0_r.
      split; [left; split; [reflexivity | intros b [= <-]; exact Pc]|].
      split; [reflexivity|]. split; [reflexivity | exact E]. }
  cbn [setCapture endIndex captures].
  replace (S e =? e) with false by (symmetry; apply Nat.eqb_neq; lia).
  assert (length text ≠ 0) as Hlen by (apply lookup_lt_Some in Ec; lia).
  destruct (length text) as [|fuel]; [contradiction|].
  cbn [pred fmap option_fmap option_map].
  rewrite repeatMatcher_unfold, bool_decide_eq_true_2 by reflexivity.
  match goal with
  | |- match ?o with _ => _ end = _ -> _ => destruct o as [z| |] eqn:Eo
  end.
  - intros [= ->]. cbn [setCapture endIndex captures Nat.pred] in Eo.
    exists [c], (<[3 := Some (e, S e)]> (<[3 := None]> caps)). cbn [length].
    replace (e + 1) with (S e) by lia.
    split; [right; exists c; auto|]. split; [rewrite (drop_S _ _ _ Ec); reflexivity|].
    split; [|exact Eo].
    intros j Hj. rewrite !list_lookup_insert_ne by lia. reflexivity.
  - exfalso. exact (Hk _ Eo).
  - discriminate.
Qed.

Lemma startsWith_keyword (K text : jsstring) e :
  startsWith K (drop e text) = true ->
  sameText K (take (length K) (drop e text)) = true
  ∧ drop e text = take (length K) (drop e text) ++ drop (e + length K) text
  ∧ length (take (length K) (drop e text)) = length K.
Proof.
  intros Hs. pose proof (startsWith_length _ _ Hs) as Hlen.
  assert (Htake : length (take (length K) (drop e text)) = length K)
    by (rewrite length_take; lia).
  split; [|split; [|exact Htake]].
  - unfold sameText. rewrite Htake, Nat.eqb_refl, startsWith_take, Hs by lia. reflexivity.
  - rewrite <- drop_drop, take_drop. reflexivity.
Qed.

Ltac keyword_cases HK :=
  unfold periodKeywords in HK;
  repeat (apply elem_of_cons in HK as [-> | HK]);
  [.. | inversion HK].

Ltac keyword_elem := unfold periodKeywords; repeat constructor.

Lemma disj_step input ic r1 r2 k x :
  compile input ic (Disj r1 r2) Forward k x
  = match compile input ic r1 Forward k x with
    | Failure => compile input ic r2 Forward k x
    | z => z
    end.
Proof. reflexivity. Qed.

(** One step of an optional part, in a text that is not empty. *)
Lemma opt_step input ic r1 r2 k x :
  length input ≠ 0 ->
  compile input ic (Seq (opt r1) r2) Forward k x
  = match compile input ic r1 Forward
            (fun y => if endIndex y =? endIndex x then Failure
                      else compile input ic r2 Forward k y)
            (clearCaptures (groupsOf r1) x) with
    | Failure => compile input ic r2 Forward k x
    | z => z
    end.
Proof.
  intros Hlen. unfold opt. rewrite seq_step, quant_step.
  destruct (length input) as [|fuel]; [contradiction|]. reflexivity.
Qed.

(** The optional period keyword at the end of the pattern: it is taken when
    one is there. *)
Lemma opt_keyword_inv text e caps y :
  length text ≠ 0 ->
  compile text true
    (Seq (opt (Disj (lit "per year")
                 (Disj (lit "annually") (Disj (lit "per annum") (lit "per month")))))
       Empty)
    Forward Matched (mkState e caps) = Matched y ->
  ∃ kw,
    ((kw = [] ∧ ∀ K, K ∈ periodKeywords -> startsWith K (drop e text) = false)
     ∨ ∃ K, K ∈ periodKeywords ∧ sameText K kw = true)
    ∧ drop e text = kw ++ drop (e + length kw) text
    ∧ y = mkState (e + length kw) caps.
Proof.
  intros Hlen. rewrite opt_step by exact Hlen.
  unfold clearCaptures. cbn [endIndex captures foldr groupsOf app].
  change (lit "per year") with (literal (js "per year") Empty).
  change (lit "annually") with (literal (js "annually") Empty).
  change (lit "per annum") with (literal (js "per annum") Empty).
  change (lit "per month") with (literal (js "per month") Empty).
  assert (Hempty : groupsOf (literal (js "per year") Empty)
                   ++ groupsOf (literal (js "annually") Empty)
                   ++ groupsOf (literal (js "per annum") Empty)
                   ++ groupsOf (literal (js "per month") Empty) = []) by reflexivity.
  rewrite Hempty. cbn [foldr].
  rewrite !disj_step, !compile_literal, !empty_step. cbv beta. cbn [endIndex].
  assert (Hresult : ∀ K, K ∈ periodKeywords ->
            startsWith K (drop e text) = true ->
            Matched (mkState (e + length K) caps) = Matched y ->
            ∃ kw,
              ((kw = [] ∧ ∀ K, K ∈ periodKeywords -> startsWith K (drop e text) = false)
               ∨ ∃ K, K ∈ periodKeywords ∧ sameText K kw = true)
              ∧ drop e text = kw ++ drop (e + length kw) text
              ∧ y = mkState (e + length kw) caps).
  { intros K HK Hs [= <-].
    destruct (startsWith_keyword K text e Hs) as (Hsame & Hdrop & HlenT).
    exists (take (length K) (drop e text)). rewrite HlenT.
    split; [right; exists K; auto|]. split; [exact Hdrop | reflexivity]. }
  destruct (startsWith (js "per year") (drop e text)) eqn:H1.
  { intros E. apply (Hresult (js "per year")); [keyword_elem | exact H1|].
    replace (e + length (js "per year") =? e) with false in E
      by (symmetry; apply Nat.eqb_neq; simpl; lia).
    exact E. }
  destruct (startsWith (js "annually") (drop e text)) eqn:H2.
  { intros E. apply (Hresult (js "annually")); [keyword_elem | exact H2|].
    replace (e + length (js "annually") =? e) with false in E
      by (symmetry; apply Nat.eqb_neq; simpl; lia).
    exact E. }
  destruct (startsWith (js "per annum") (drop e text)) eqn:H3.
  { intros E. apply (Hresult (js "per annum")); [keyword_elem | exact H3|].
    replace (e + length (js "per annum") =? e) with false in E
      by (symmetry; apply Nat.eqb_neq; simpl; lia).
    exact E. }
  destruct (startsWith (js "per month") (drop e text)) eqn:H4.
  { intros E. apply (Hresult (js "per month")); [keyword_elem | exact H4|].
    replace (e + length (js "per month") =? e) with false in E
      by (symmetry; apply Nat.eqb_neq; simpl; lia).
    exact E. }
  intros [= <-]. exists []. cbn [length app]. rewrite Nat.add_0_r.
  split; [left; split; [reflexivity|] | split; reflexivity].
  intros K HK. keyword_cases HK; assumption.
Qed.

Lemma lookup_head_drop (str : jsstring) e : str !! e = head (drop e str).
Proof. rewrite head_lookup, lookup_drop, Nat.add_0_r. reflexivity. Qed.

(** The end of the salary pattern, after the spaces: it cannot fail. *)
Lemma salary_tail_total text x :
  compile text true
    (Seq (opt (Group 4 currencyClass))
       (Seq (opt (CharSet false [CSpace]))
          (Seq (opt (CharSet false [CSpace]))
             (Seq (opt (Disj (lit "per year")
                          (Disj (lit "annually")
                             (Disj (lit "per annum") (lit "per month")))))
                Empty))))
    Forward Matched x ≠ Failure.
Proof.
  revert x. unfold opt. do 4 apply optional_total. discriminate.
Qed.

(** What a match of the salary pattern is made of, what it leaves in the
    captures, and where it ends. *)
Lemma salary_match_inv text i y :
  matchAt salaryRegex text i = Matched y ->
  ∃ sym ws amt sp sym2 ws2 kw,
    drop i text = sym :: ws ++ amt ++ sp ++ sym2 ++ ws2 ++ kw ++ drop (endIndex y) text
    ∧ endIndex y = i + 1 + length ws + length amt + length sp
                   + length sym2 + length ws2 + length kw
    ∧ isCurrencySymbol sym = true
    ∧ (ws = [] ∨ ∃ c, ws = [c] ∧ isWhiteSpace c = true)
    ∧ amountShape amt
    ∧ 1 ≤ length sp ≤ 3
    ∧ Forall (fun a => a = ch " ") sp
    ∧ (sym2 = [] ∨ ∃ c, sym2 = [c] ∧ isCurrencySymbol c = true)
    ∧ length ws2 ≤ 2
    ∧ Forall (fun a => isWhiteSpace a = true) ws2
    ∧ (kw = [] ∨ ∃ K, K ∈ periodKeywords ∧ sameText K kw = true)
    ∧ (length sp = 3
       ∨ head (sym2 ++ ws2 ++ kw ++ drop (endIndex y) text) ≠ Some (ch " "))
    ∧ (sym2 = [] ->
       ∀ b, head (ws2 ++ kw ++ drop (endIndex y) text) = Some b ->
            isCurrencySymbol b = false)
    ∧ (length ws2 = 2
       ∨ ∀ b, head (kw ++ drop (endIndex y) text) = Some b -> isWhiteSpace b = false)
    ∧ (kw = [] ->
       ∀ K, K ∈ periodKeywords -> startsWith K (drop (endIndex y) text) = false)
    ∧ captures y !! 0 = Some (Some (i, S i))
    ∧ captures y !! 1
      = Some (Some (i + 1 + length ws, i + 1 + length ws + length amt)).
Proof.
  unfold matchAt. cbn [pattern salaryRegex nGroups ignoreCaseFlag seqs foldr].
  intros E.
  (* the symbol *)
  unfold currencyClass at 1 in E.
  apply group_class_inv in E as (sym & Hsym & Psym & E).
  rewrite currencyClass_matches in Psym.
  cbn [endIndex captures setCapture Nat.pred] in *.
  assert (Hlen : length text ≠ 0) by (apply lookup_lt_Some in Hsym; lia).
  (* the optional blank *)
  apply quant_class_inv in E as (n1 & _ & Hn1 & Hws & E); [|intros mx [= <-]; lia].
  specialize (Hn1 1 eq_refl). cbn [endIndex captures] in *.
  destruct (run_drop text _ n1 (S i) Hws) as (ws & Lws & Fws & Dws).
  (* the amount *)
  rewrite group_step in E. cbn [endIndex] in E.
  apply plus_class_inv in E as (n2 & Hn2 & Hd0 & E). cbn [endIndex captures] in *.
  destruct (run_drop text _ n2 (S i + n1) Hd0) as (d0 & Ld0 & Fd0 & Dd0).
  unfold star in E. rewrite seq_step, quant_step in E.
  apply star_groups_inv in E as (groups & Hgroups & Dgroups & E).
  apply fraction_inv in E as (frac & Hfrac & Dfrac & E).
  rewrite empty_step in E. cbv beta in E. cbn [setCapture endIndex captures Nat.pred] in E.
  set (e3 := S i + n1 + n2 + length (concat groups) + length frac) in *.
  (* the spaces *)
  rewrite group_step in E. unfold one, chr in E.
  apply quant_alone_inv_greedy in E as (n3 & Hn3 & Hn3' & Hsp & E & Gsp);
    [|intros mx [= <-]; lia | intros x'; apply salary_tail_total].
  specialize (Hn3' 3 eq_refl). cbv beta in E.
  cbn [setCapture endIndex captures Nat.pred] in *.
  destruct (run_drop text _ n3 e3 Hsp) as (sp & Lsp & Fsp & Dsp).
  (* the optional second symbol *)
  apply opt_symbol_inv in E as (sym2 & caps4 & Hsym2 & Dsym2 & Kcaps & E);
    [|intros x'; unfold opt; do 3 apply optional_total; discriminate].
  (* the two optional blanks *)
  apply quant_class_inv_greedy in E as (n5 & _ & Hn5 & Hw5 & E & G5);
    [|intros mx [= <-]; lia | intros x'; unfold opt; do 2 apply optional_total; discriminate].
  specialize (Hn5 1 eq_refl). cbn [endIndex captures] in *.
  destruct (run_drop text _ n5 _ Hw5) as (w5 & Lw5 & Fw5 & Dw5).
  apply quant_class_inv_greedy in E as (n6 & _ & Hn6 & Hw6 & E & G6);
    [|intros mx [= <-]; lia | intros x'; unfold opt; apply optional_total; discriminate].
  specialize (Hn6 1 eq_refl). cbn [endIndex captures] in *.
  destruct (run_drop text _ n6 _ Hw6) as (w6 & Lw6 & Fw6 & Dw6).
  (* the optional keyword *)
  apply opt_keyword_inv in E as (kw & Hkw & Dkw & ->); [|exact Hlen].
  cbn [endIndex captures].
  set (e4 := e3 + n3) in *. set (e5 := e4 + length sym2) in *.
  set (e6 := e5 + n5) in *. set (e7 := e6 + n6) in *.
  (* what the text reads from each point on *)
  assert (T7 : drop e7 text = kw ++ drop (e7 + length kw) text) by exact Dkw.
  assert (T6 : drop e6 text = w6 ++ kw ++ drop (e7 + length kw) text)
    by (rewrite Dw6; fold e7; rewrite T7; reflexivity).
  assert (T5 : drop e5 text = (w5 ++ w6) ++ kw ++ drop (e7 + length kw) text)
    by (rewrite Dw5; fold e6; rewrite T6, <- app_assoc; reflexivity).
  assert (T4 : drop e4 text = sym2 ++ (w5 ++ w6) ++ kw ++ drop (e7 + length kw) text)
    by (rewrite Dsym2; fold e5; rewrite T5; reflexivity).
  assert (T3 : drop e3 text
               = sp ++ sym2 ++ (w5 ++ w6) ++ kw ++ drop (e7 + length kw) text)
    by (rewrite Dsp; fold e4; rewrite T4; reflexivity).
  assert (T1 : drop (S i + n1) text
               = (d0 ++ concat groups ++ frac)
                 ++ sp ++ sym2 ++ (w5 ++ w6) ++ kw ++ drop (e7 + length kw) text).
  { rewrite Dd0, Dgroups, Dfrac. fold e3. rewrite T3, <- !app_assoc. reflexivity. }
  exists sym, ws, (d0 ++ concat groups ++ frac), sp, sym2, (w5 ++ w6), kw.
  split; [rewrite (drop_S _ _ _ Hsym), Dws, T1; reflexivity|].
  split; [unfold e7, e6, e5, e4, e3; rewrite !length_app; lia|].
  split; [exact Psym|].
  split.
  { destruct ws as [|c [|c' ws]]; [left; reflexivity | right | simpl in Lws; lia].
    apply Forall_inv in Fws. cbv beta in Fws. rewrite space_matches in Fws. eauto. }
  split.
  { exists d0, groups, frac. split; [reflexivity|]. split; [lia|]. split; [|auto].
    eapply Forall_impl; [exact Fd0|]. intros a Ha. rewrite <- (digit_matches true). exact Ha. }
  split; [lia|].
  split.
  { eapply Forall_impl; [exact Fsp|]. intros a Ha. cbv beta in Ha. rewrite blank_matches in Ha.
    apply N.eqb_eq in Ha. exact Ha. }
  split.
  { destruct Hsym2 as [[-> _] | (c & -> & Pc)]; [left; reflexivity | right; eauto]. }
  split; [rewrite length_app; lia|].
  split.
  { apply Forall_app. split.
    - eapply Forall_impl; [exact Fw5|]. intros a Ha. cbv beta in Ha. rewrite space_matches in Ha. exact Ha.
    - eapply Forall_impl; [exact Fw6|]. intros a Ha. cbv beta in Ha. rewrite space_matches in Ha. exact Ha. }
  split.
  { destruct Hkw as [[-> _] | HK]; [left; reflexivity | right; exact HK]. }
  split.
  { destruct Gsp as [[= <-] | Gsp]; [left; lia | right].
    rewrite <- T4, <- lookup_head_drop. intros Hb. apply Gsp in Hb.
    rewrite blank_matches in Hb. discriminate. }
  split.
  { intros -> b Hb. destruct Hsym2 as [[_ Hno] | (c & [=] & _)].
    apply Hno. rewrite lookup_head_drop.
    replace e4 with e5 by (unfold e5; simpl; lia). rewrite T5. exact Hb. }
  split.
  { rewrite length_app.
    destruct G6 as [[= <-] | G6].
    - left. destruct (decide (n5 = 1)) as [-> | Hz0]; [lia|].
      destruct G5 as [[= <-] | G5]; [lia|]. exfalso.
      assert (n5 = 0) as Hz by lia.
      destruct (Hw6 0 ltac:(lia)) as (a & Ha & Pa).
      rewrite Nat.add_0_r in Ha. rewrite (G5 a) in Pa; [discriminate|].
      rewrite <- Ha. reflexivity.
    - right. intros b Hb. rewrite <- space_matches. apply G6.
      rewrite lookup_head_drop. fold e7. rewrite T7. exact Hb. }
  split.
  { intros -> K HK. destruct Hkw as [[_ Hno] | (K' & HK' & Hsame)].
    - rewrite Nat.add_0_r in *. apply Hno. exact HK.
    - exfalso. unfold sameText in Hsame. apply andb_true_iff in Hsame as [Hl _].
      apply Nat.eqb_eq in Hl. keyword_cases HK'; discriminate. }
  split.
  { rewrite Kcaps by lia. reflexivity. }
  rewrite Kcaps by lia. cbn. do 3 f_equal; unfold e3; rewrite ?length_app; lia.
Qed.

(** *** Where the salary pattern matches *)

Lemma repeat_class_reaches_max input ic inv atoms (m : Cont -> MatchState -> Outcome) k :
  (∀ c x, m c x = compile input ic (CharSet inv atoms) Forward c x) ->
  ∀ n fuel min max e caps,
    n < fuel ->
    min ≤ n ->
    (∀ mx, max = Some mx -> n ≤ mx) ->
    (∀ j, j < n -> ∃ a, input !! (e + j) = Some a
                        ∧ charSetMatches ic inv atoms a = true) ->
    k (mkState (e + n) caps) ≠ Failure ->
    repeatMatcher m [] fuel min max k (mkState e caps) ≠ Failure.
Proof.
  intros Hm n. induction n as [|n IH]; intros fuel min max e caps Hfuel Hmin Hmax Hrun Hk;
    (destruct fuel as [|fuel]; [lia|]); rewrite repeatMatcher_unfold; cbv zeta.
  - rewrite Nat.add_0_r in Hk. case_bool_decide; [exact Hk|].
    replace min with 0 by lia. cbn [Nat.eqb].
    match goal with
    | |- match ?o with _ => _ end ≠ _ => destruct o
    end; [discriminate | exact Hk | discriminate].
  - rewrite bool_decide_eq_false_2 by (intros E; specialize (Hmax 0 E); lia).
    rewrite Hm, class_step. unfold clearCaptures. cbn [endIndex captures foldr].
    destruct (Hrun 0 ltac:(lia)) as (a & Ha & Hc). rewrite Nat.add_0_r in Ha.
    rewrite Ha, Hc.
    replace (S e =? e) with false by (symmetry; apply Nat.eqb_neq; lia).
    rewrite andb_false_r.
    assert (Hnext : repeatMatcher m [] fuel (pred min) (pred <$> max) k (mkState (S e) caps)
                    ≠ Failure).
    { apply (IH fuel (pred min) (pred <$> max) (S e) caps); [lia | lia | | |].
      - intros mx Hmx. destruct max as [mx'|]; [|discriminate].
        injection Hmx as <-. specialize (Hmax mx' eq_refl). lia.
      - intros j Hj. destruct (Hrun (S j) ltac:(lia)) as (b & Hb & Hcb).
        rewrite Nat.add_succ_r in Hb. eauto.
      - rewrite Nat.add_succ_r in Hk. exact Hk. }
    destruct (min =? 0); [|exact Hnext].
    destruct (repeatMatcher m [] fuel (pred min) (pred <$> max) k (mkState (S e) caps));
      [discriminate | contradiction | discriminate].
Qed.

Lemma run_within (input : jsstring) (P : N -> bool) e n :
  (∀ j, j < n -> ∃ a, input !! (e + j) = Some a ∧ P a = true) ->
  n ≤ length input.
Proof.
  intros Hrun. destruct n as [|n]; [lia|].
  destruct (Hrun n ltac:(lia)) as (a & Ha & _). apply lookup_lt_Some in Ha. lia.
Qed.

Lemma quant_alone_reaches input ic min max inv atoms k x n :
  min ≤ n ->
  (∀ mx, max = Some mx -> n ≤ mx) ->
  (∀ j, j < n -> ∃ a, input !! (endIndex x + j) = Some a
                      ∧ charSetMatches ic inv atoms a = true) ->
  k (mkState (endIndex x + n) (captures x)) ≠ Failure ->
  compile input ic (Quant min max (CharSet inv atoms)) Forward k x ≠ Failure.
Proof.
  intros Hmin Hmax Hrun Hk. destruct x as [e caps]. cbn [endIndex captures] in *.
  rewrite quant_step.
  apply (repeat_class_reaches_max input ic inv atoms) with (n := n);
    [reflexivity | | exact Hmin | exact Hmax | exact Hrun | exact Hk].
  pose proof (run_within _ _ _ _ Hrun). lia.
Qed.

Lemma quant_seq_reaches input ic min max inv atoms r k x n :
  min ≤ n ->
  (∀ mx, max = Some mx -> n ≤ mx) ->
  (∀ j, j < n -> ∃ a, input !! (endIndex x + j) = Some a
                      ∧ charSetMatches ic inv atoms a = true) ->
  compile input ic r Forward k (mkState (endIndex x + n) (captures x)) ≠ Failure ->
  compile input ic (Seq (Quant min max (CharSet inv atoms)) r) Forward k x ≠ Failure.
Proof. intros. rewrite seq_step. eapply quant_alone_reaches; eassumption. Qed.

Lemma group_class_reaches input ic g inv atoms r k x a :
  input !! endIndex x = Some a ->
  charSetMatches ic inv atoms a = true ->
  compile input ic r Forward k
    (setCapture g (endIndex x, S (endIndex x)) (mkState (S (endIndex x)) (captures x)))
  ≠ Failure ->
  compile input ic (Seq (Group g (CharSet inv atoms)) r) Forward k x ≠ Failure.
Proof.
  intros Ha Hc Hk. rewrite group_step, class_step, Ha, Hc. exact Hk.
Qed.

(** The groups of three digits that stand in the text are within reach. *)
Lemma star_groups_reaches text k groups :
  ∀ fuel e caps rest,
    length groups < fuel ->
    Forall groupShape groups ->
    drop e text = concat groups ++ rest ->
    k (mkState (e + length (concat groups)) caps) ≠ Failure ->
    repeatMatcher
      (compile text true (Seq (opt (one ",")) (Seq (Quant 3 (Some 3) digit) Empty)) Forward)
      [] fuel 0 None k (mkState e caps) ≠ Failure.
Proof.
  induction groups as [|g groups IH]; intros fuel e caps rest Hfuel Hshape Hread Hk;
    (destruct fuel as [|fuel]; [simpl in Hfuel; lia|]);
    rewrite repeatMatcher_unfold, bool_decide_eq_false_2 by discriminate;
    cbn [Nat.eqb andb]; cbv zeta; unfold clearCaptures; cbn [foldr endIndex captures].
  - cbn [concat length] in Hk. rewrite Nat.add_0_r in Hk.
    match goal with
    | |- match ?o with _ => _ end ≠ _ => destruct o
    end; [discriminate | exact Hk | discriminate].
  - apply Forall_cons in Hshape as [(c & ds & -> & Hc & Lds & Fds) Hshape].
    cbn [concat] in Hread, Hk. rewrite <- !app_assoc in Hread.
    assert (Hbody : compile text true
                      (Seq (opt (one ",")) (Seq (Quant 3 (Some 3) digit) Empty)) Forward
                      (fun y => if endIndex y =? e then Failure
                                else repeatMatcher
                                       (compile text true
                                          (Seq (opt (one ","))
                                             (Seq (Quant 3 (Some 3) digit) Empty)) Forward)
                                       [] fuel (pred 0) (pred <$> None) k y)
                      (mkState e caps) ≠ Failure).
    { unfold opt, one, chr, digit.
      apply quant_seq_reaches with (n := length c).
      - lia.
      - intros mx [= <-]. destruct Hc as [-> | ->]; simpl; lia.
      - cbn [endIndex]. intros j Hj. destruct Hc as [-> | ->]; [simpl in Hj; lia|].
        destruct j as [|j]; [|simpl in Hj; lia]. exists (ch ",").
        rewrite Nat.add_0_r. split; [|reflexivity].
        apply (drop_lookup_head _ _ _ _ Hread).
      - cbn [endIndex captures].
        apply quant_seq_reaches with (n := length ds).
        + lia.
        + intros mx [= <-]. lia.
        + cbn [endIndex]. apply drop_app_length in Hread.
          intros j Hj. destruct (drop_run _ _ _ _ _ Hread Fds j Hj) as (a & Ha & Pa).
          exists a. rewrite digit_matches. auto.
        + rewrite empty_step. cbn [endIndex captures].
          replace (e + length c + length ds =? e) with false
            by (symmetry; apply Nat.eqb_neq; lia).
          cbn [pred fmap option_fmap option_map].
          apply (IH fuel _ caps rest); [simpl in Hfuel; lia | exact Hshape | |].
          * apply drop_app_length in Hread. apply drop_app_length in Hread. exact Hread.
          * rewrite !length_app in Hk. rewrite <- !Nat.add_assoc.
            rewrite <- !Nat.add_assoc in Hk. exact Hk. }
    match goal with
    | |- match ?o with _ => _ end ≠ _ => destruct o
    end; [discriminate | contradiction | discriminate].
Qed.

Lemma groups_length (groups : list jsstring) :
  Forall groupShape groups -> length groups ≤ length (concat groups).
Proof.
  induction 1 as [|g groups (c & ds & -> & _ & Lds & _) _ IH]; [simpl; lia|].
  cbn [concat length]. rewrite !length_app. lia.
Qed.

(** The fraction that stands in the text is within reach. *)
Lemma fraction_reaches text r k e caps frac rest :
  length text ≠ 0 ->
  fractionShape frac ->
  drop e text = frac ++ rest ->
  compile text true r Forward k (mkState (e + length frac) caps) ≠ Failure ->
  compile text true
    (Seq (opt (Seq (one ".") (Seq (Quant 1 (Some 2) digit) Empty))) r)
    Forward k (mkState e caps) ≠ Failure.
Proof.
  intros Hlen Hshape Hread Hk. rewrite opt_step by exact Hlen.
  unfold clearCaptures. cbn [endIndex captures foldr groupsOf app one chr digit].
  destruct Hshape as [-> | (ds & -> & Lds & Fds)].
  - cbn [length] in Hk. rewrite Nat.add_0_r in Hk.
    match goal with
    | |- match ?o with _ => _ end ≠ _ => destruct o
    end; [discriminate | exact Hk | discriminate].
  - match goal with
    | |- match ?o with _ => _ end ≠ _ =>
        assert (Hbody : o ≠ Failure); [|destruct o; [discriminate | contradiction | discriminate]]
    end.
    apply class_reaches with (a := ch ".").
    + apply (drop_lookup_head _ _ _ _ Hread).
    + reflexivity.
    + cbn [endIndex captures].
      apply quant_seq_reaches with (n := length ds).
      * lia.
      * intros mx [= <-]. lia.
      * cbn [endIndex]. change (ch "." :: ds) with ([ch "."] ++ ds) in Hread.
        rewrite <- app_assoc in Hread. apply drop_app_length in Hread.
        cbn [length] in Hread. replace (e + 1) with (S e) in Hread by lia.
        intros j Hj. destruct (drop_run _ _ _ _ _ Hread Fds j Hj) as (a & Ha & Pa).
        exists a. rewrite digit_matches. auto.
      * rewrite empty_step. cbn [endIndex captures].
        replace (S e + length ds =? e) with false by (symmetry; apply Nat.eqb_neq; lia).
        cbn [length] in Hk. replace (e + S (length ds)) with (S e + length ds) in Hk by lia.
        exact Hk.
Qed.

(** Where a salary stands, the pattern matches. *)
Lemma salary_match_complete text i sym amt :
  salaryAt text i sym amt -> ∃ y, matchAt salaryRegex text i = Matched y.
Proof.
  intros (ws & rest & Hread & Psym & Hws
          & d0 & groups & frac & -> & Ld0 & Fd0 & Hgroups & Hfrac).
  assert (Hsym : text !! i = Some sym) by apply (drop_lookup_head _ _ _ _ Hread).
  assert (Hi : i < length text) by (apply lookup_lt_Some in Hsym; exact Hsym).
  assert (R1 : drop (S i) text = ws ++ (d0 ++ concat groups ++ frac) ++ ch " " :: rest).
  { rewrite (drop_S _ _ _ Hsym) in Hread. injection Hread as ->. reflexivity. }
  assert (R2 : drop (S i + length ws) text
               = d0 ++ concat groups ++ frac ++ ch " " :: rest).
  { apply drop_app_length in R1. rewrite R1, <- !app_assoc. reflexivity. }
  assert (R3 : drop (S i + length ws + length d0) text
               = concat groups ++ frac ++ ch " " :: rest)
    by (apply drop_app_length in R2; exact R2).
  assert (R4 : drop (S i + length ws + length d0 + length (concat groups)) text
               = frac ++ ch " " :: rest)
    by (apply drop_app_length in R3; exact R3).
  assert (R5 : drop (S i + length ws + length d0 + length (concat groups) + length frac) text
               = [ch " "] ++ rest)
    by (apply drop_app_length in R4; exact R4).
  destruct (matchAt salaryRegex text i) as [y| |] eqn:E; [eauto | exfalso | exfalso].
  2:{ revert E. apply matchAt_fuel. lia. }
  revert E. unfold matchAt. cbn [pattern salaryRegex nGroups ignoreCaseFlag seqs foldr].
  unfold currencyClass at 1.
  apply group_class_reaches with (a := sym);
    [exact Hsym | rewrite currencyClass_matches; exact Psym|].
  cbn [setCapture endIndex captures Nat.pred].
  unfold opt at 1. apply quant_seq_reaches with (n := length ws).
  { lia. }
  { intros mx [= <-]. destruct Hws as [-> | (c & -> & _)]; simpl; lia. }
  { cbn [endIndex]. intros j Hj. destruct Hws as [-> | (c & -> & Pc)]; [simpl in Hj; lia|].
    destruct j as [|j]; [|simpl in Hj; lia]. exists c. rewrite Nat.add_0_r.
    split; [apply (drop_lookup_head _ _ _ _ R1) | rewrite space_matches; exact Pc]. }
  cbn [endIndex captures]. rewrite group_step. cbn [endIndex].
  unfold plus, digit at 1. apply quant_seq_reaches with (n := length d0).
  { exact Ld0. }
  { discriminate. }
  { cbn [endIndex]. intros j Hj. destruct (drop_run _ _ _ _ _ R2 Fd0 j Hj) as (a & Ha & Pa).
    exists a. rewrite digit_matches. auto. }
  cbn [endIndex captures]. unfold star. rewrite seq_step, quant_step.
  apply (star_groups_reaches text _ groups _ _ _ (frac ++ ch " " :: rest)).
  { pose proof (groups_length groups Hgroups) as Hg.
    apply (f_equal length) in R3. rewrite length_drop, !length_app in R3. lia. }
  { exact Hgroups. }
  { exact R3. }
  apply (fraction_reaches text _ _ _ _ frac (ch " " :: rest)); [lia | exact Hfrac | exact R4|].
  rewrite empty_step. cbv beta. cbn [setCapture endIndex captures Nat.pred].
  rewrite group_step. unfold one, chr.
  apply quant_alone_reaches with (n := 1).
  { lia. }
  { intros mx [= <-]. lia. }
  { cbn [endIndex]. intros j Hj. assert (j = 0) as -> by lia. exists (ch " ").
    rewrite Nat.add_0_r. split; [apply (drop_lookup_head _ _ _ _ R5) | reflexivity]. }
  apply salary_tail_total.
Qed.

(** *** The salary at a position is unique *)

Lemma isDigit_not_space a : isDigit a = true -> isWhiteSpace a = false.
Proof. unfold isDigit, isWhiteSpace, inRange. n_cases. Qed.

Lemma amount_chars amt a :
  amountShape amt -> a ∈ amt -> isDigit a = true ∨ a = ch "," ∨ a = ch ".".
Proof.
  intros (d0 & groups & frac & -> & _ & Fd0 & Hgroups & Hfrac) Ha.
  apply elem_of_app in Ha as [Ha | Ha].
  { left. rewrite Forall_forall in Fd0. apply Fd0, Ha. }
  apply elem_of_app in Ha as [Ha | Ha].
  - apply list_elem_of_In, in_concat in Ha as (g & Hg & Ha).
    apply list_elem_of_In in Hg, Ha.
    rewrite Forall_forall in Hgroups.
    destruct (Hgroups g Hg) as (c & ds & -> & Hc & _ & Fds).
    apply elem_of_app in Ha as [Ha | Ha].
    + destruct Hc as [-> | ->]; [inversion Ha|].
      apply list_elem_of_singleton in Ha. auto.
    + left. rewrite Forall_forall in Fds. apply Fds, Ha.
  - destruct Hfrac as [-> | (ds & -> & _ & Fds)]; [inversion Ha|].
    apply elem_of_cons in Ha as [-> | Ha]; [auto|].
    left. rewrite Forall_forall in Fds. apply Fds, Ha.
Qed.

Lemma amount_no_space amt : amountShape amt -> ch " " ∉ amt.
Proof.
  intros Hamt Hin. destruct (amount_chars amt _ Hamt Hin) as [H | [H | H]];
    vm_compute in H; discriminate.
Qed.

Lemma amount_head amt :
  amountShape amt -> ∃ d tail, amt = d :: tail ∧ isDigit d = true.
Proof.
  intros (d0 & groups & frac & -> & Ld0 & Fd0 & _).
  destruct d0 as [|d d0]; [simpl in Ld0; lia|].
  exists d, (d0 ++ concat groups ++ frac). split; [reflexivity|].
  apply Forall_inv in Fd0. exact Fd0.
Qed.

Lemma before_separator sep (a a' r r' : jsstring) :
  sep ∉ a -> sep ∉ a' -> a ++ sep :: r = a' ++ sep :: r' -> a = a'.
Proof.
  revert a'. induction a as [|x a IH]; intros a' Ha Ha' E.
  - destruct a' as [|x' a']; [reflexivity|]. cbn [app] in E. injection E as <- _.
    exfalso. apply Ha'. left.
  - apply not_elem_of_cons in Ha as [Hx Ha].
    destruct a' as [|x' a']; cbn [app] in E.
    + injection E as -> _. contradiction.
    + apply not_elem_of_cons in Ha' as [_ Ha']. injection E as <- E.
      f_equal. apply (IH a' Ha Ha' E).
Qed.

Lemma salaryAt_unique text i sym amt sym' amt' :
  salaryAt text i sym amt -> salaryAt text i sym' amt' -> sym = sym' ∧ amt = amt'.
Proof.
  intros (ws & rest & Hread & _ & Hws & Hamt) (ws' & rest' & Hread' & _ & Hws' & Hamt').
  rewrite Hread in Hread'. injection Hread' as <- E. split; [reflexivity|].
  destruct (amount_head amt Hamt) as (d & tail & Hd & Pd).
  destruct (amount_head amt' Hamt') as (d' & tail' & Hd' & Pd').
  pose proof (amount_no_space amt Hamt) as Hno.
  pose proof (amount_no_space amt' Hamt') as Hno'.
  apply isDigit_not_space in Pd, Pd'.
  destruct Hws as [-> | (c & -> & Pc)], Hws' as [-> | (c' & -> & Pc')]; cbn [app] in E.
  - apply (before_separator _ _ _ _ _ Hno Hno' E).
  - exfalso. rewrite Hd in E. cbn [app] in E. injection E as -> _. congruence.
  - exfalso. rewrite Hd' in E. cbn [app] in E. injection E as -> _. congruence.
  - injection E as _ E. apply (before_separator _ _ _ _ _ Hno Hno' E).
Qed.

(** *** From a match to the salary *)

Lemma substring_of_drop (text s rest : jsstring) a :
  drop a text = s ++ rest -> substring text a (a + length s) = s.
Proof.
  intros Hd. unfold substring. replace (a + length s - a) with (length s) by lia.
  rewrite Hd. apply take_app_length.
Qed.

Lemma scanFrom_finds R str i y :
  matchAt R str i = Matched y ->
  ∀ n start,
    start ≤ i ≤ start + n ->
    (∀ k, start ≤ k < i -> ∀ z, matchAt R str k ≠ Matched z) ->
    scanFrom R str n start = Some (i, y).
Proof.
  intros Hm n. induction n as [|n IH]; intros start Hi Hleft; cbn [scanFrom].
  - assert (start = i) as -> by lia. rewrite Hm. reflexivity.
  - destruct (decide (start = i)) as [-> | Hne]; [rewrite Hm; reflexivity|].
    destruct (matchAt R str start) as [z| |] eqn:E.
    + exfalso. apply (Hleft start ltac:(lia) z E).
    + apply IH; [lia|]. intros k Hk. apply Hleft. lia.
    + apply IH; [lia|]. intros k Hk. apply Hleft. lia.
Qed.

(** [exec] of a global pattern answers the leftmost match from [lastIndex]
    on, and moves [lastIndex] to its end. *)
Lemma exec_leftmost R str lastIndex i y :
  global R = true ->
  lastIndex ≤ i ≤ length str ->
  matchAt R str i = Matched y ->
  (∀ k, lastIndex ≤ k < i -> ∀ z, matchAt R str k ≠ Matched z) ->
  regExpBuiltinExec R lastIndex str = (Some (toResult str i y), endIndex y).
Proof.
  intros Hg Hi Hm Hleft. unfold regExpBuiltinExec. rewrite Hg.
  replace (length str <? lastIndex) with false by (symmetry; apply Nat.ltb_ge; lia).
  rewrite (scanFrom_finds R str i y Hm); [reflexivity | lia | exact Hleft].
Qed.

Lemma currencyCode_lookup sym :
  isCurrencySymbol sym = true ->
  default [] (orElse (currencyLookup [sym]) (Some (js "USD"))) = currencyCode sym.
Proof.
  unfold isCurrencySymbol. intros Hc.
  apply orb_true_iff in Hc as [Hc | Hc]; [apply orb_true_iff in Hc as [Hc | Hc]|];
    apply N.eqb_eq in Hc; subst sym; reflexivity.
Qed.

(** A match of the salary pattern stands where a salary stands. *)
Lemma salaryAt_of_match text i y :
  matchAt salaryRegex text i = Matched y -> ∃ sym amt, salaryAt text i sym amt.
Proof.
  intros Hm. destruct (salary_match_inv text i y Hm)
    as (sym & ws & amt & sp & sym2 & ws2 & kw & Hread & _ & Psym & Hws & Hamt & Lsp & Fsp & _).
  exists sym, amt. destruct sp as [|s sp]; [simpl in Lsp; lia|].
  apply Forall_cons in Fsp as [-> _].
  exists ws, (sp ++ sym2 ++ ws2 ++ kw ++ drop (endIndex y) text). auto.
Qed.

(** The salary the extractor answers when [exec] finds the match [y] at [i]. *)
Lemma extractSalary_of_match text w i y :
  salaryLastIndex w ≤ i ≤ length text ->
  matchAt salaryRegex text i = Matched y ->
  (∀ k, salaryLastIndex w ≤ k < i -> ∀ z, matchAt salaryRegex text k ≠ Matched z) ->
  ∀ sym ws amt tail,
    drop i text = sym :: ws ++ amt ++ tail ->
    isCurrencySymbol sym = true ->
    amountShape amt ->
    captures y !! 0 = Some (Some (i, S i)) ->
    captures y !! 1 = Some (Some (i + 1 + length ws, i + 1 + length ws + length amt)) ->
    extractSalary text w
    = (Return (Some (mkSalary (parseFloat (filter (fun a => a ≠ ch ",") amt))
                       (currencyCode sym))),
       mkWorld (files w) (endIndex y) (calls w)).
Proof.
  intros Hi Hm Hleft sym ws amt tail Hread Psym Hamt H0 H1.
  unfold extractSalary.
  rewrite (exec_leftmost salaryRegex text (salaryLastIndex w) i y eq_refl Hi Hm Hleft).
  assert (Hsym : text !! i = Some sym) by apply (drop_lookup_head _ _ _ _ Hread).
  assert (Hgs : namedGroup salaryRegex (toResult text i y) "currencySymbol" = Some [sym]).
  { rewrite namedGroup_currencySymbol. unfold toResult.
    cbn [groupValues]. rewrite list_lookup_fmap, H0. cbn.
    unfold substring. replace (S i - i) with 1 by lia.
    rewrite (drop_S _ _ _ Hsym). reflexivity. }
  assert (Hga : namedGroup salaryRegex (toResult text i y) "amount" = Some amt).
  { rewrite namedGroup_amount. unfold toResult.
    cbn [groupValues]. rewrite list_lookup_fmap, H1. cbn. f_equal.
    apply (substring_of_drop text amt tail).
    change (sym :: ws ++ amt ++ tail) with ([sym] ++ ws ++ amt ++ tail) in Hread.
    apply drop_app_length in Hread. apply drop_app_length in Hread.
    cbn [length] in Hread. exact Hread. }
  rewrite Hga, Hgs.
  destruct (amount_head amt Hamt) as (d & rest & -> & _).
  cbn [truthy default orElse]. unfold id.
  rewrite currencyCode_lookup by exact Psym. reflexivity.
Qed.

(** The extractor answers [null] where no salary stands from [lastIndex] on. *)
Lemma extractSalary_none text w :
  (∀ k sym amt, salaryLastIndex w ≤ k -> ¬ salaryAt text k sym amt) ->
  extractSalary text w = (Return None, mkWorld (files w) 0 (calls w)).
Proof.
  intros Hno. unfold extractSalary, regExpBuiltinExec.
  change (global salaryRegex) with true. cbn iota.
  destruct (length text <? salaryLastIndex w) eqn:E; [reflexivity|].
  rewrite (proj2 (scanFrom_None _ _ _ _)); [reflexivity|].
  intros k Hk z Hz. destruct (salaryAt_of_match text k z Hz) as (sym & amt & Hat).
  apply (Hno k sym amt); [lia | exact Hat].
Qed.

(** The extractor answers the salary that stands first from [lastIndex] on. *)
Lemma extractSalary_first text w i sym amt :
  salaryLastIndex w ≤ i ->
  salaryAt text i sym amt ->
  (∀ k sym' amt', salaryLastIndex w ≤ k < i -> ¬ salaryAt text k sym' amt') ->
  ∃ y, matchAt salaryRegex text i = Matched y
       ∧ extractSalary text w
         = (Return (Some (mkSalary (parseFloat (filter (fun a => a ≠ ch ",") amt))
                            (currencyCode sym))),
            mkWorld (files w) (endIndex y) (calls w)).
Proof.
  intros Hi Hat Hfirst.
  destruct (salary_match_complete text i sym amt Hat) as (y & Hm).
  exists y. split; [exact Hm|].
  destruct (salary_match_inv text i y Hm)
    as (sym' & ws & amt' & sp & sym2 & ws2 & kw & Hread & _ & Psym & Hws & Hamt & Lsp & Fsp
        & _ & _ & _ & _ & _ & _ & _ & _ & H0 & H1).
  assert (Hat' : salaryAt text i sym' amt').
  { destruct sp as [|s sp]; [simpl in Lsp; lia|].
    apply Forall_cons in Fsp as [-> _].
    exists ws, (sp ++ sym2 ++ ws2 ++ kw ++ drop (endIndex y) text). auto. }
  destruct (salaryAt_unique text i sym amt sym' amt' Hat Hat') as [<- <-].
  assert (Hlen : i ≤ length text).
  { destruct Hat as (ws0 & rest0 & Hr & _).
    apply (f_equal length) in Hr. rewrite length_drop in Hr. simpl in Hr. lia. }
  apply (extractSalary_of_match text w i y ltac:(lia) Hm) with (ws := ws)
    (tail := sp ++ sym2 ++ ws2 ++ kw ++ drop (endIndex y) text);
    [|exact Hread | exact Psym | exact Hamt | exact H0 | exact H1].
  intros k Hk z Hz. destruct (salaryAt_of_match text k z Hz) as (s & a & Hka).
  apply (Hfirst k s a Hk Hka).
Qed.

(** *** The amount is a number *)

Lemma roundHalfEven_nonneg num den :
  (0 <= num)%Z -> (0 < den)%Z -> (0 <= roundHalfEven num den)%Z.
Proof.
  intros Hn Hd. unfold roundHalfEven.
  pose proof (Z.div_pos num den Hn Hd) as Hq.
  destruct (2 * (num mod den) ?= den)%Z; [destruct (Z.even _)| |]; lia.
Qed.

Lemma roundToDouble_nonneg n d :
  (0 <= n)%Z -> (0 < d)%Z ->
  roundToDouble n d = Infinity ∨ ∃ q, roundToDouble n d = Double q ∧ (0 <= q)%Q.
Proof.
  intros Hn Hd. unfold roundToDouble.
  destruct (n =? 0)%Z; [right; exists 0%Q; split; [reflexivity | unfold Qle; simpl; lia]|].
  cbv zeta.
  match goal with
  | |- context [roundHalfEven ?a ?b] =>
      assert (0 <= roundHalfEven a b)%Z as Hm;
      [|generalize dependent (roundHalfEven a b); intros m Hm]
  end.
  { apply roundHalfEven_nonneg.
    - apply Z.mul_nonneg_nonneg; [lia|]. apply Z.pow_nonneg. lia.
    - apply Z.mul_pos_pos; [lia|]. apply Z.pow_pos_nonneg; lia. }
  destruct (_ <=? _)%Z; [left; reflexivity|]. right. eexists. split; [reflexivity|].
  rewrite Qred_correct. unfold Qle. cbn [Qnum Qden].
  match goal with
  | |- context [(m * 2 ^ ?k)%Z] => assert (0 <= 2 ^ k)%Z by (apply Z.pow_nonneg; lia)
  end.
  nia.
Qed.

(** On a string that begins with a digit [parseFloat] answers a number that
    is not negative, never NaN. *)
Lemma parseFloat_digit_first d rest :
  isDigit d = true ->
  parseFloat (d :: rest) = Infinity
  ∨ ∃ q, parseFloat (d :: rest) = Double q ∧ (0 <= q)%Q.
Proof.
  intros Hd. unfold parseFloat. cbn [spanDigits]. rewrite Hd.
  destruct (spanDigits rest) as [ds rest'].
  set (fp := match rest' with
             | a :: rest'0 => if (a =? ch ".")%N then (spanDigits rest'0).1 else []
             | [] => []
             end).
  apply roundToDouble_nonneg; [lia|]. apply Z.pow_pos_nonneg; lia.
Qed.

Lemma amount_number amt :
  amountShape amt ->
  parseFloat (filter (fun a => a ≠ ch ",") amt) = Infinity
  ∨ ∃ q, parseFloat (filter (fun a => a ≠ ch ",") amt) = Double q ∧ (0 <= q)%Q.
Proof.
  intros Hamt. destruct (amount_head amt Hamt) as (d & tail & -> & Hd).
  rewrite filter_cons_True by (intros ->; vm_compute in Hd; discriminate).
  apply parseFloat_digit_first, Hd.
Qed.

(** What a call that answered a salary found: the leftmost match from
    [lastIndex] on, whose end is the new [lastIndex]. *)
Lemma extractSalary_inv text w w' salary :
  extractSalary text w = (Return (Some salary), w') ->
  ∃ i y,
    salaryLastIndex w ≤ i ≤ length text
    ∧ matchAt salaryRegex text i = Matched y
    ∧ (∀ k, salaryLastIndex w ≤ k < i -> ∀ z, matchAt salaryRegex text k ≠ Matched z)
    ∧ w' = mkWorld (files w) (endIndex y) (calls w).
Proof.
  intros Hrun. pose proof Hrun as Hrun'. unfold extractSalary in Hrun'.
  destruct (regExpBuiltinExec salaryRegex (salaryLastIndex w) text) as [[m|] li] eqn:E;
    [|discriminate].
  clear Hrun'.
  apply exec_Some in E as (i & y & Hi & Hm & Hleft & -> & ->).
  change (global salaryRegex) with true in Hi, Hleft, Hrun. cbn iota in Hi, Hleft.
  exists i, y. split; [exact Hi|]. split; [exact Hm|]. split; [exact Hleft|].
  destruct (salary_match_inv text i y Hm)
    as (sym & ws & amt & sp & sym2 & ws2 & kw & Hread & _ & Psym & _ & Hamt & _ & _
        & _ & _ & _ & _ & _ & _ & _ & _ & H0 & H1).
  rewrite (extractSalary_of_match text w i y Hi Hm Hleft sym ws amt _ Hread Psym Hamt H0 H1)
    in Hrun.
  injection Hrun as _ <-. reflexivity.
Qed.

(** C6 (amended). What the salary extractor matches, in terms of the text
    alone.  A salary stands at a position when a currency symbol ($, € or £)
    is there, then optionally one blank, then an amount (one or more digits,
    groups of three digits each after an optional comma, optionally a dot and
    one or two digits) and then a space, which is required.

    - A call that answers a salary found one at a position [i], at or after
      [lastIndex]: the text reads there the symbol, at most one blank, the
      amount, one to three spaces, at most one second symbol, at most two
      blanks and at most one period keyword, in any case of letters; each
      optional part is taken as long as the text offers it; the answer is the
      amount without its commas, read as a number, in the currency of the
      first symbol; the new [lastIndex] is where the keyword ends.
    - Where a salary stands at [i] and none stands between [lastIndex] and
      [i], the call answers that salary.
    - Where no salary stands from [lastIndex] on, the call answers [null];
      such are the texts without currency symbol and those without space.
    - With [lastIndex] 0: "$50,000  per year" gives 50000 USD; "£1200.50"
      followed by a space gives 1200.5 GBP; "expects € 3,500.5   € per
      month" gives 3500.5 EUR up to the end of the text; "$1.123 " gives
      [null], a third decimal being no part of an amount; "$5 € " gives
      5 USD, the second symbol deciding nothing. *)
Theorem extractSalary_matches :
  (∀ text w w' salary,
     extractSalary text w = (Return (Some salary), w') ->
     ∃ i sym ws amt sp sym2 ws2 kw,
       salaryLastIndex w ≤ i
       ∧ drop i text
         = sym :: ws ++ amt ++ sp ++ sym2 ++ ws2 ++ kw ++ drop (salaryLastIndex w') text
       ∧ salaryLastIndex w'
         = i + 1 + length ws + length amt + length sp + length sym2 + length ws2
           + length kw
       ∧ isCurrencySymbol sym = true
       ∧ (ws = [] ∨ ∃ c, ws = [c] ∧ isWhiteSpace c = true)
       ∧ amountShape amt
       ∧ 1 ≤ length sp ≤ 3 ∧ Forall (fun a => a = ch " ") sp
       ∧ (sym2 = [] ∨ ∃ c, sym2 = [c] ∧ isCurrencySymbol c = true)
       ∧ length ws2 ≤ 2 ∧ Forall (fun a => isWhiteSpace a = true) ws2
       ∧ (kw = [] ∨ ∃ K, K ∈ periodKeywords ∧ sameText K kw = true)
       ∧ (length sp = 3
          ∨ head (sym2 ++ ws2 ++ kw ++ drop (salaryLastIndex w') text) ≠ Some (ch " "))
       ∧ (sym2 = [] ->
          ∀ b, head (ws2 ++ kw ++ drop (salaryLastIndex w') text) = Some b ->
               isCurrencySymbol b = false)
       ∧ (length ws2 = 2
          ∨ ∀ b, head (kw ++ drop (salaryLastIndex w') text) = Some b ->
                 isWhiteSpace b = false)
       ∧ (kw = [] ->
          ∀ K, K ∈ periodKeywords ->
               startsWith K (drop (salaryLastIndex w') text) = false)
       ∧ salary = mkSalary (parseFloat (filter (fun a => a ≠ ch ",") amt))
                    (currencyCode sym)
       ∧ files w' = files w ∧ calls w' = calls w)
  ∧ (∀ text w i sym amt,
       salaryLastIndex w ≤ i ->
       salaryAt text i sym amt ->
       (∀ k sym' amt', salaryLastIndex w ≤ k < i -> ¬ salaryAt text k sym' amt') ->
       (extractSalary text w).1
       = Return (Some (mkSalary (parseFloat (filter (fun a => a ≠ ch ",") amt))
                         (currencyCode sym))))
  ∧ (∀ text w,
       (∀ k sym amt, salaryLastIndex w ≤ k -> ¬ salaryAt text k sym amt) ->
       extractSalary text w = (Return None, mkWorld (files w) 0 (calls w)))
  ∧ (∀ text w, (∀ a, a ∈ text -> isCurrencySymbol a = false) ->
       (extractSalary text w).1 = Return None)
  ∧ (∀ text w, ch " " ∉ text -> (extractSalary text w).1 = Return None)
  ∧ (∀ w, salaryLastIndex w = 0 ->
       extractSalary (js "$50,000  per year") w
       = (Return (Some (mkSalary (Double 50000) (js "USD"))),
          mkWorld (files w) 17 (calls w)))
  ∧ (∀ w, salaryLastIndex w = 0 ->
       extractSalary (pound :: js "1200.50 ") w
       = (Return (Some (mkSalary (Double (Qred 1200.5)) (js "GBP"))),
          mkWorld (files w) 9 (calls w)))
  ∧ (∀ w, salaryLastIndex w = 0 ->
       extractSalary (js "expects " ++ euro :: js " 3,500.5   " ++ euro :: js " per month") w
       = (Return (Some (mkSalary (Double (Qred 3500.5)) (js "EUR"))),
          mkWorld (files w) 31 (calls w)))
  ∧ (∀ w, salaryLastIndex w = 0 ->
       (extractSalary (js "$1.123 ") w).1 = Return None)
  ∧ (∀ w, salaryLastIndex w = 0 ->
       (extractSalary (js "$5 " ++ euro :: js " ") w).1
       = Return (Some (mkSalary (Double 5) (js "USD")))).
Proof.
  split; [|split; [|split; [|split; [|split]]]].
  - intros text w w' salary Hrun.
    destruct (extractSalary_inv text w w' salary Hrun) as (i & y & Hi & Hm & Hleft & ->).
    destruct (salary_match_inv text i y Hm)
      as (sym & ws & amt & sp & sym2 & ws2 & kw & Hread & Hend & Psym & Hws & Hamt & Lsp
          & Fsp & Hsym2 & Lws2 & Fws2 & Hkw & Msp & Msym2 & Mws2 & Mkw & H0 & H1).
    rewrite (extractSalary_of_match text w i y Hi Hm Hleft sym ws amt _ Hread Psym Hamt H0 H1)
      in Hrun.
    injection Hrun as <-.
    exists i, sym, ws, amt, sp, sym2, ws2, kw. cbn [salaryLastIndex files calls].
    repeat (split; [first [assumption | reflexivity | lia]|]).
    split; reflexivity.
  - intros text w i sym amt Hi Hat Hfirst.
    destruct (extractSalary_first text w i sym amt Hi Hat Hfirst) as (y & _ & ->).
    reflexivity.
  - apply extractSalary_none.
  - intros text w Hno. rewrite extractSalary_null; [reflexivity | left; exact Hno].
  - intros text w Hno. rewrite extractSalary_null; [reflexivity | right; exact Hno].
  - repeat split; intros [fs li cs] Hw; simpl in Hw; subst li; vm_compute; reflexivity.
Qed.

(** X6. A salary the extractor returns is the one that stands first in the
    text from [lastIndex] on: its currency is the code of the symbol that
    salary begins with ($ USD, € EUR, £ GBP), and its amount is what
    [parseFloat] reads of that salary's amount without commas, a number that
    is not negative, never NaN.  The second symbol of the pattern and the
    two defaults to USD never decide the currency. *)
Theorem extractSalary_result (text : jsstring) (w w' : World) (salary : Salary) :
  extractSalary text w = (Return (Some salary), w') ->
  ∃ i sym amt,
    salaryLastIndex w ≤ i
    ∧ salaryAt text i sym amt
    ∧ (∀ k sym' amt', salaryLastIndex w ≤ k < i -> ¬ salaryAt text k sym' amt')
    ∧ ((sym = ch "$" ∧ currency salary = js "USD")
       ∨ (sym = euro ∧ currency salary = js "EUR")
       ∨ (sym = pound ∧ currency salary = js "GBP"))
    ∧ amount salary = parseFloat (filter (fun a => a ≠ ch ",") amt)
    ∧ (amount salary = Infinity ∨ ∃ q, amount salary = Double q ∧ (0 <= q)%Q).
Proof.
  intros Hrun.
  destruct (extractSalary_inv text w w' salary Hrun) as (i & y & Hi & Hm & Hleft & ->).
  destruct (salary_match_inv text i y Hm)
    as (sym & ws & amt & sp & sym2 & ws2 & kw & Hread & _ & Psym & Hws & Hamt & Lsp & Fsp
        & _ & _ & _ & _ & _ & _ & _ & _ & H0 & H1).
  rewrite (extractSalary_of_match text w i y Hi Hm Hleft sym ws amt _ Hread Psym Hamt H0 H1)
    in Hrun.
  injection Hrun as <-. cbn [amount currency].
  exists i, sym, amt. split; [lia|]. split.
  { destruct sp as [|s sp]; [simpl in Lsp; lia|].
    apply Forall_cons in Fsp as [-> _].
    exists ws, (sp ++ sym2 ++ ws2 ++ kw ++ drop (endIndex y) text). auto. }
  split.
  { intros k sym' amt' Hk Hat.
    destruct (salary_match_complete text k sym' amt' Hat) as (z & Hz).
    apply (Hleft k Hk z Hz). }
  split; [|split; [reflexivity | apply amount_number, Hamt]].
  unfold isCurrencySymbol in Psym.
  apply orb_true_iff in Psym as [Hc | Hc]; [apply orb_true_iff in Hc as [Hc | Hc]|];
    apply N.eqb_eq in Hc; subst sym.
  - left. split; reflexivity.
  - right. left. split; reflexivity.
  - right. right. split; reflexivity.
Qed.

Lemma extractSalary_result_witness :
  ∃ i sym amt,
    0 ≤ i
    ∧ salaryAt (js "pay: $5 " ++ euro :: js " or " ++ euro :: js "900 $") i sym amt
    ∧ (∀ k sym' amt', 0 ≤ k < i ->
         ¬ salaryAt (js "pay: $5 " ++ euro :: js " or " ++ euro :: js "900 $") k sym' amt')
    ∧ ((sym = ch "$" ∧ js "USD" = js "USD")
       ∨ (sym = euro ∧ js "USD" = js "EUR")
       ∨ (sym = pound ∧ js "USD" = js "GBP"))
    ∧ Double 5 = parseFloat (filter (fun a => a ≠ ch ",") amt)
    ∧ (Double 5 = Infinity ∨ ∃ q, Double 5 = Double q ∧ (0 <= q)%Q).
Proof.
  apply (extractSalary_result (js "pay: $5 " ++ euro :: js " or " ++ euro :: js "900 $")
           Demo.world (mkWorld ∅ 10 []) (mkSalary (Double 5) (js "USD"))).
  vm_compute. reflexivity.
Defined.
